(** * A shallow embedding of the LRU key-value store (kvstore.h, lru_cache.cpp,
      the KVStore facade and the tokens of the command line) and the
      properties of its specification.

    The C++ objects are modelled at the level of pointers: [Node] objects live
    in a heap indexed by locations, a [shared_ptr<Node>] is an optional
    location ([None] is [nullptr]), and every member function is a computation
    in a state-and-failure monad, where failure stands for undefined behaviour
    (dereferencing a null or dangling pointer, using a local that is not
    initialised).  Objects are never freed in
    the model: a node that no pointer refers to any more stays in the heap.

    Integers of fixed width are integers of [Z] with the wrap-around written
    out; [size_t] is taken to be 64 bits wide and the byte order little-endian.
    A [std::string] is a [string], a sequence of bytes; the content of a file
    is a list of bytes.  A reading of [steady_clock::now()] is an argument of
    the function that takes it.  The locks are not modelled: a member function
    runs alone, except that the two lock regions of [get] are two functions
    that can be run with other calls in between. *)

From Stdlib Require Import ZArith Lia Ascii String.
From stdpp Require Import gmap strings list fin_maps.

Open Scope Z_scope.

Set Warnings "-clear-no-such-hyp".

(** ** Fixed-width integers *)

(** [size_t] and [uint64_t] are 64 bits wide (LP64), [uint32_t] is 32. *)
Definition wrap64 (z : Z) : Z := z mod 2 ^ 64.
Definition wrap32 (z : Z) : Z := z mod 2 ^ 32.

(** ** The data model of kvstore.h *)

Definition loc := positive.

(** [std::shared_ptr<Node>]; [None] is the null pointer. *)
Definition NodePtr := option loc.

Definition time_point := Z.

(** [struct CacheEntry]. *)
Record CacheEntry := mkCacheEntry {
  value : string;
  last_accessed : time_point;
  access_count : Z
}.

(** [CacheEntry(const std::string& val)]: the clock reading is an argument. *)
Definition new_CacheEntry (now : time_point) (val : string) : CacheEntry :=
  mkCacheEntry val now 1.

(** [struct Node].  The entry that a node's [shared_ptr<CacheEntry>] points to
    is created together with the node and the pointer is never copied, so the
    entry is stored in the node; [None] is the null entry of the sentinels. *)
Record Node := mkNode {
  key : string;
  entry : option CacheEntry;
  prev : NodePtr;
  next : NodePtr
}.

(** [Node(const std::string& k, std::shared_ptr<CacheEntry> e)]. *)
Definition new_Node (k : string) (e : option CacheEntry) : Node :=
  mkNode k e None None.

Definition with_prev (v : NodePtr) (n : Node) : Node :=
  mkNode (key n) (entry n) v (next n).
Definition with_next (v : NodePtr) (n : Node) : Node :=
  mkNode (key n) (entry n) (prev n) v.
Definition with_entry (e : option CacheEntry) (n : Node) : Node :=
  mkNode (key n) e (prev n) (next n).

(** [class LRUCache], together with the heap of the [Node] objects its
    pointers refer to.  [head] and [tail] are set once by the constructor from
    [make_shared] and never reassigned, and the values of [cache_map] all come
    from [make_shared], so these are locations. *)
Record LRUCache := mkLRUCache {
  heap : gmap loc Node;
  cache_map : gmap string loc;
  head : loc;
  tail : loc;
  capacity : Z;
  current_size : Z
}.

Definition set_heap (h : gmap loc Node) (s : LRUCache) : LRUCache :=
  mkLRUCache h (cache_map s) (head s) (tail s) (capacity s) (current_size s).
Definition set_cache_map (m : gmap string loc) (s : LRUCache) : LRUCache :=
  mkLRUCache (heap s) m (head s) (tail s) (capacity s) (current_size s).
Definition set_current_size (z : Z) (s : LRUCache) : LRUCache :=
  mkLRUCache (heap s) (cache_map s) (head s) (tail s) (capacity s) z.

(** ** The monad of member functions *)

(** A member function maps the state to a result and a new state, or to
    [None] when the C++ behaviour is undefined. *)
Definition M (A : Type) : Type := LRUCache -> option (A * LRUCache).

Definition ret {A} (a : A) : M A := fun s => Some (a, s).
Definition bind {A B} (m : M A) (f : A -> M B) : M B :=
  fun s => match m s with
           | Some (a, s') => f a s'
           | None => None
           end.
Definition undefined {A} : M A := fun _ => None.

Notation "'let*' x ':=' m 'in' k" := (bind m (fun x => k))
  (at level 10, x pattern, m at level 100, k at level 200).
Notation "m1 ;;; m2" := (bind m1 (fun _ => m2))
  (at level 100, m2 at level 200, right associativity).

(** Reading and writing through pointers. *)
Definition deref (p : NodePtr) : M Node := fun s =>
  match p with
  | Some l => match heap s !! l with
              | Some n => Some (n, s)
              | None => None
              end
  | None => None
  end.

Definition modify (p : NodePtr) (f : Node -> Node) : M unit := fun s =>
  match p with
  | Some l => match heap s !! l with
              | Some n => Some (tt, set_heap (<[l := f n]> (heap s)) s)
              | None => None
              end
  | None => None
  end.

(** [p->prev], [p->next], [p->key], [p->entry] as rvalues. *)
Definition get_prev (p : NodePtr) : M NodePtr := let* n := deref p in ret (prev n).
Definition get_next (p : NodePtr) : M NodePtr := let* n := deref p in ret (next n).
Definition get_key (p : NodePtr) : M string := let* n := deref p in ret (key n).
(** [*(p->entry)]: undefined when the entry pointer is null. *)
Definition get_entry (p : NodePtr) : M CacheEntry :=
  let* n := deref p in
  match entry n with
  | Some e => ret e
  | None => undefined
  end.

(** [p->prev = v], [p->next = v], [*(p->entry) = e]. *)
Definition set_prev (p : NodePtr) (v : NodePtr) : M unit := modify p (with_prev v).
Definition set_next (p : NodePtr) (v : NodePtr) : M unit := modify p (with_next v).
Definition set_entry (p : NodePtr) (e : CacheEntry) : M unit :=
  let* _ := get_entry p in modify p (with_entry (Some e)).

(** [std::make_shared<Node>(k, e)]: a location not in use. *)
Definition make_shared_Node (k : string) (e : option CacheEntry) : M loc := fun s =>
  let l := fresh (dom (heap s)) in
  Some (l, set_heap (<[l := new_Node k e]> (heap s)) s).

(** Members of the object. *)
Definition read {A} (f : LRUCache -> A) : M A := fun s => Some (f s, s).
Definition write_cache_map (f : gmap string loc -> gmap string loc) : M unit :=
  fun s => Some (tt, set_cache_map (f (cache_map s)) s).
Definition write_current_size (f : Z -> Z) : M unit :=
  fun s => Some (tt, set_current_size (f (current_size s)) s).

(** ** lru_cache.cpp *)

(** [LRUCache::LRUCache(size_t cap)]; [None] is [std::invalid_argument]. *)
Definition new_LRUCache (cap : Z) : option LRUCache :=
  if cap =? 0 then None
  else
    let h : loc := 1%positive in
    let t : loc := 2%positive in
    Some (mkLRUCache
            (<[t := with_prev (Some h) (new_Node "" None)]>
               (<[h := with_next (Some t) (new_Node "" None)]> ∅))
            ∅ h t cap 0).

(** The four statements that link [node] right after the head sentinel; the
    source writes them out in [move_to_front], [put] and [load_snapshot]:
      node->next = head->next; node->prev = head;
      head->next->prev = node; head->next = node; *)
Definition insert_after_head (node : NodePtr) : M unit :=
  let* hd := read head in
  let* hn := get_next (Some hd) in
  set_next node hn ;;;
  set_prev node (Some hd) ;;;
  let* hn := get_next (Some hd) in
  set_prev hn node ;;;
  set_next (Some hd) node.

(** [LRUCache::remove_node]. *)
Definition remove_node (node : NodePtr) : M unit :=
  let* p := get_prev node in
  (match p with
   | Some _ => let* n := get_next node in set_next p n
   | None => ret tt
   end) ;;;
  let* n := get_next node in
  match n with
  | Some _ => let* p := get_prev node in set_prev n p
  | None => ret tt
  end.

(** [LRUCache::move_to_front]: the two unlinking statements, which are those
    of [remove_node], then the insertion after the head. *)
Definition move_to_front (node : NodePtr) : M unit :=
  remove_node node ;;;
  insert_after_head node.

(** [LRUCache::remove_tail]. *)
Definition remove_tail : M NodePtr :=
  let* tl := read tail in
  let* hd := read head in
  let* last := get_prev (Some tl) in
  if decide (last <> Some hd) then
    remove_node last ;;; ret last
  else ret None.

(** The lookup phase of [LRUCache::get], under the shared lock:
    [cache_map.find], and on a hit the update of the entry's access time and
    count.  The result is the node the iterator designates. *)
Definition get_lookup (now : time_point) (k : string) : M (option loc) :=
  let* it := read (fun s => cache_map s !! k) in
  match it with
  | None => ret None
  | Some node =>
      let* e := get_entry (Some node) in
      set_entry (Some node) (mkCacheEntry (value e) now (access_count e)) ;;;
      let* e := get_entry (Some node) in
      set_entry (Some node)
        (mkCacheEntry (value e) (last_accessed e) (wrap64 (access_count e + 1))) ;;;
      ret (Some node)
  end.

(** The promotion phase of [LRUCache::get], under the exclusive lock, for the
    node [it->second] found by the lookup phase. *)
Definition get_promote (node : loc) : M (bool * string) :=
  move_to_front (Some node) ;;;
  let* e := get_entry (Some node) in
  ret (true, value e).

(** [LRUCache::get(key, value)]: [value0] is the content of the caller's
    [value] before the call; the result is the returned flag and the content
    of [value] after the call. *)
Definition get (now : time_point) (k : string) (value0 : string) : M (bool * string) :=
  let* it := get_lookup now k in
  match it with
  | None => ret (false, value0)
  | Some node => get_promote node
  end.

(** [LRUCache::put]. *)
Definition put (now : time_point) (k : string) (v : string) : M unit :=
  let* it := read (fun s => cache_map s !! k) in
  match it with
  | Some node =>
      let* e := get_entry (Some node) in
      set_entry (Some node) (mkCacheEntry v (last_accessed e) (access_count e)) ;;;
      let* e := get_entry (Some node) in
      set_entry (Some node) (mkCacheEntry (value e) now (access_count e)) ;;;
      let* e := get_entry (Some node) in
      set_entry (Some node)
        (mkCacheEntry (value e) (last_accessed e) (wrap64 (access_count e + 1))) ;;;
      move_to_front (Some node)
  | None =>
      let* node := make_shared_Node k (Some (new_CacheEntry now v)) in
      let* sz := read current_size in
      let* cap := read capacity in
      (if decide (cap <= sz) then
         let* tail_node := remove_tail in
         match tail_node with
         | Some _ =>
             let* tk := get_key tail_node in
             write_cache_map (delete tk) ;;;
             write_current_size (fun z => wrap64 (z - 1))
         | None => ret tt
         end
       else ret tt) ;;;
      insert_after_head (Some node) ;;;
      write_cache_map (<[k := node]>) ;;;
      write_current_size (fun z => wrap64 (z + 1))
  end.

(** [LRUCache::remove]. *)
Definition remove (k : string) : M bool :=
  let* it := read (fun s => cache_map s !! k) in
  match it with
  | None => ret false
  | Some node =>
      remove_node (Some node) ;;;
      write_cache_map (delete k) ;;;
      write_current_size (fun z => wrap64 (z - 1)) ;;;
      ret true
  end.

(** The body shared by [LRUCache::clear] and the start of [load_snapshot]:
      cache_map.clear(); head->next = tail; tail->prev = head; current_size = 0; *)
Definition clear : M unit :=
  write_cache_map (fun _ => ∅) ;;;
  let* hd := read head in
  let* tl := read tail in
  set_next (Some hd) (Some tl) ;;;
  set_prev (Some tl) (Some hd) ;;;
  write_current_size (fun _ => 0).

(** [LRUCache::size] and [LRUCache::empty]. *)
Definition size : M Z := read current_size.
Definition empty : M bool := read (fun s => current_size s =? 0).

(** ** Snapshot streams *)

(** A byte of a stream as a number and back. *)
Definition byte_of_Z (z : Z) : ascii := ascii_of_N (Z.to_N (z mod 256)).
Definition Z_of_byte (a : ascii) : Z := Z.of_N (N_of_ascii a).

(** The object representation of a [uint32_t], little-endian, as
    [reinterpret_cast<const char*>(&x)] with [sizeof(x)] reads and writes it. *)
Definition le32 (z : Z) : list ascii :=
  [byte_of_Z z; byte_of_Z (z ≫ 8); byte_of_Z (z ≫ 16); byte_of_Z (z ≫ 24)].
Definition un_le32 (bs : list ascii) : Z :=
  foldr (fun b acc => Z_of_byte b + 256 * acc) 0 bs.

Definition string_size (s : string) : Z := Z.of_nat (String.length s).

(** The loop of [save_snapshot]: [while (current != tail) { ... }], appending
    to the bytes written so far.  The loop has no bound in the source; [fuel]
    bounds the number of iterations of the model. *)
Fixpoint save_entries (fuel : nat) (current : NodePtr) (file : list ascii)
  : M (list ascii) :=
  let* tl := read tail in
  if decide (current <> Some tl) then
    match fuel with
    | O => undefined
    | S fuel' =>
        let* k := get_key current in
        let* e := get_entry current in
        let key_size := wrap32 (string_size k) in
        let value_size := wrap32 (string_size (value e)) in
        let file := file ++ le32 key_size in
        let file := file ++ take (Z.to_nat key_size) (list_ascii_of_string k) in
        let file := file ++ le32 value_size in
        let file := file ++ take (Z.to_nat value_size) (list_ascii_of_string (value e)) in
        let* nx := get_next current in
        save_entries fuel' nx file
    end
  else ret file.

(** [LRUCache::save_snapshot]: [opened] tells whether the [ofstream] could be
    opened; the result is the content of the file, or [None] for the
    [std::runtime_error]. *)
Definition save_snapshot (opened : bool) (fuel : nat) : M (option (list ascii)) :=
  if negb opened then ret None
  else
    let version := 1 in
    let* sz := read current_size in
    let count := wrap32 sz in
    let file := le32 version ++ le32 count in
    let* hd := read head in
    let* current := get_next (Some hd) in
    let* file := save_entries fuel current file in
    ret (Some file).

(** A [std::ifstream]: the bytes not yet read, and whether the stream has
    failed. *)
Record ifstream := mkIfstream {
  pending : list ascii;
  failed : bool
}.

(** [file.read(buf, n)], where [buf] holds [n] bytes before the call: the
    result is the content of [buf] after it.  A stream that has failed reads
    nothing; a stream with fewer than [n] bytes left stores what is left and
    fails. *)
Definition stream_read (n : nat) (buf : list ascii) (f : ifstream)
  : list ascii * ifstream :=
  if failed f then (buf, f)
  else if decide (n <= length (pending f))%nat then
    (take n (pending f), mkIfstream (drop n (pending f)) false)
  else
    (pending f ++ drop (length (pending f)) buf, mkIfstream [] true).

(** [file.read(reinterpret_cast<char*>(&x), sizeof(x))] for a [uint32_t x]
    that is not initialised.  When the stream has failed, or has fewer than
    four bytes left, the read fails and leaves [x], or a part of it, as it
    was: the result is [None], and [x] must not be used. *)
Definition read_u32 (f : ifstream) : option Z * ifstream :=
  if failed f then (None, f)
  else if decide (4 <= length (pending f))%nat then
    (Some (un_le32 (take 4 (pending f))), mkIfstream (drop 4 (pending f)) false)
  else (None, mkIfstream [] true).

(** [std::string s(n, 0); file.read(&s[0], n)]. *)
Definition read_string (n : Z) (f : ifstream) : string * ifstream :=
  let '(bs, f') := stream_read (Z.to_nat n) (repeat zero (Z.to_nat n)) f in
  (string_of_list_ascii bs, f').

(** The loop of [load_snapshot],
      for (uint32_t i = 0; i < count && i < capacity; ++i) { ... }
    from iteration [i] on, with [n] iterations to go; [clock i] is the clock
    reading of the [CacheEntry] constructor in iteration [i].  The locals
    [key_size] and [value_size] are not initialised: after a read that fails,
    [std::string key(key_size, 0)] and [std::string value(value_size, 0)] use
    an indeterminate value, which is undefined. *)
Fixpoint load_entries (clock : nat -> time_point)
    (n : nat) (i : nat) (file : ifstream) : M ifstream :=
  match n with
  | O => ret file
  | S n' =>
      let '(key_size, file) := read_u32 file in
      match key_size with
      | None => undefined
      | Some key_size =>
          let '(k, file) := read_string key_size file in
          let '(value_size, file) := read_u32 file in
          match value_size with
          | None => undefined
          | Some value_size =>
              let '(v, file) := read_string value_size file in
              let* node := make_shared_Node k (Some (new_CacheEntry (clock i) v)) in
              insert_after_head (Some node) ;;;
              write_cache_map (<[k := node]>) ;;;
              write_current_size (fun z => wrap64 (z + 1)) ;;;
              load_entries clock n' (S i) file
          end
      end
  end.

(** [LRUCache::load_snapshot]: [file] is the content of the file, or [None]
    when the [ifstream] could not be opened.  The locals [version] and [count]
    are not initialised: [version != 1] after a read of [version] that failed,
    and [i < count] after a read of [count] that failed, use an indeterminate
    value, which is undefined.  The loop runs for [min count capacity]
    iterations. *)
Definition load_snapshot (clock : nat -> time_point)
    (file : option (list ascii)) : M bool :=
  match file with
  | None => ret false
  | Some bytes =>
      clear ;;;
      let '(version, f) := read_u32 (mkIfstream bytes false) in
      let '(count, f) := read_u32 f in
      match version with
      | None => undefined
      | Some version =>
          if decide (version <> 1) then ret false
          else
            match count with
            | None => undefined
            | Some count =>
                let* cap := read capacity in
                load_entries clock (Z.to_nat (Z.min count cap)) 0 f ;;;
                ret true
            end
      end
  end.

(** ** The facade: [struct PerformanceMetrics] and [class KVStore] *)

Record PerformanceMetrics := mkPerformanceMetrics {
  total_operations : Z;
  cache_hits : Z;
  cache_misses : Z;
  evictions : Z;
  start_time : time_point
}.

(** [PerformanceMetrics()]. *)
Definition new_PerformanceMetrics (now : time_point) : PerformanceMetrics :=
  mkPerformanceMetrics 0 0 0 0 now.

Definition inc_total_operations (m : PerformanceMetrics) : PerformanceMetrics :=
  mkPerformanceMetrics (wrap64 (total_operations m + 1)) (cache_hits m)
    (cache_misses m) (evictions m) (start_time m).
Definition inc_cache_hits (m : PerformanceMetrics) : PerformanceMetrics :=
  mkPerformanceMetrics (total_operations m) (wrap64 (cache_hits m + 1))
    (cache_misses m) (evictions m) (start_time m).
Definition inc_cache_misses (m : PerformanceMetrics) : PerformanceMetrics :=
  mkPerformanceMetrics (total_operations m) (cache_hits m)
    (wrap64 (cache_misses m + 1)) (evictions m) (start_time m).
Definition inc_evictions (m : PerformanceMetrics) : PerformanceMetrics :=
  mkPerformanceMetrics (total_operations m) (cache_hits m)
    (cache_misses m) (wrap64 (evictions m + 1)) (start_time m).

Record KVStore := mkKVStore {
  cache_ : LRUCache;
  metrics_ : PerformanceMetrics;
  snapshot_file_ : string
}.

(** Member functions of [KVStore]: as [M], over the store. *)
Definition K (A : Type) : Type := KVStore -> option (A * KVStore).

(** A call [cache_->f(...)]. *)
Definition on_cache {A} (m : M A) : K A := fun st =>
  match m (cache_ st) with
  | Some (a, c) => Some (a, mkKVStore c (metrics_ st) (snapshot_file_ st))
  | None => None
  end.
Definition on_metrics (f : PerformanceMetrics -> PerformanceMetrics) : K unit :=
  fun st => Some (tt, mkKVStore (cache_ st) (f (metrics_ st)) (snapshot_file_ st)).
Definition kret {A} (a : A) : K A := fun st => Some (a, st).
Definition kbind {A B} (m : K A) (f : A -> K B) : K B :=
  fun st => match m st with
            | Some (a, st') => f a st'
            | None => None
            end.

(** What a call of [KVStore::save_snapshot] did: nothing, wrote the file, or
    threw the [std::runtime_error] of the engine. *)
Inductive save_outcome :=
  | Skipped
  | Wrote (bytes : list ascii)
  | Threw.

Module KVStoreOps.

(** [KVStore::get]. *)
Definition get (now : time_point) (k : string) (value0 : string) : K (bool * string) :=
  kbind (on_metrics inc_total_operations) (fun _ =>
  kbind (on_cache (get now k value0)) (fun r =>
  kbind (if fst r then on_metrics inc_cache_hits
         else on_metrics inc_cache_misses) (fun _ =>
  kret r))).

(** [KVStore::put]. *)
Definition put (now : time_point) (k : string) (v : string) : K unit :=
  kbind (on_metrics inc_total_operations) (fun _ =>
  kbind (on_cache size) (fun old_size =>
  kbind (on_cache (put now k v)) (fun _ =>
  kbind (on_cache size) (fun new_size =>
  if decide (new_size < wrap64 (old_size + 1)) then on_metrics inc_evictions
  else kret tt)))).

(** [KVStore::remove]. *)
Definition remove (k : string) : K bool :=
  kbind (on_metrics inc_total_operations) (fun _ =>
  on_cache (remove k)).

(** [KVStore::reset_metrics]. *)
Definition reset_metrics (now : time_point) : K unit :=
  on_metrics (fun _ => new_PerformanceMetrics now).

(** [KVStore::clear]. *)
Definition clear (now : time_point) : K unit :=
  kbind (on_cache clear) (fun _ => reset_metrics now).

(** [KVStore::size] and [KVStore::empty]. *)
Definition size : K Z := on_cache size.
Definition empty : K bool := on_cache empty.

(** [KVStore::save_snapshot]: nothing is done when [snapshot_file_] is empty;
    [opened] and the result are those of the engine's [save_snapshot]. *)
Definition save_snapshot (opened : bool) (fuel : nat) : K save_outcome :=
  fun st =>
    if decide (snapshot_file_ st <> EmptyString) then
      kbind (on_cache (save_snapshot opened fuel))
            (fun r => kret (match r with
                            | Some bytes => Wrote bytes
                            | None => Threw
                            end)) st
    else kret Skipped st.

(** [KVStore::load_snapshot]: [file] is the content of the file
    [snapshot_file_], or [None] when it cannot be opened. *)
Definition load_snapshot (clock : nat -> time_point)
    (file : option (list ascii)) : K bool :=
  fun st =>
    if decide (snapshot_file_ st <> EmptyString) then
      on_cache (load_snapshot clock file) st
    else kret false st.

End KVStoreOps.

(** [KVStore::KVStore(capacity, snapshot_file)]: [now] is the clock reading
    of [PerformanceMetrics()], [file] the content of [snapshot_file] when it
    can be opened.  No store is constructed ([None]) when the constructor of
    the engine throws its [std::invalid_argument], or when [load_snapshot] is
    undefined. *)
Definition new_KVStore (now : time_point) (cap : Z) (snapshot_file : string)
    (clock : nat -> time_point) (file : option (list ascii))
  : option KVStore :=
  match new_LRUCache cap with
  | None => None
  | Some c =>
      let st := mkKVStore c (new_PerformanceMetrics now) snapshot_file in
      if decide (snapshot_file <> EmptyString) then
        snd <$> KVStoreOps.load_snapshot clock file st
      else Some st
  end.

(** [KVStore::~KVStore]: [file] is the content of the file [snapshot_file_]
    before the call ([None] when there is none) and the result is its content
    after it.  The exception of [save_snapshot] is caught. *)
Definition delete_KVStore (opened : bool) (fuel : nat) (file : option (list ascii))
    (st : KVStore) : option (option (list ascii)) :=
  if decide (snapshot_file_ st <> EmptyString) then
    match KVStoreOps.save_snapshot opened fuel st with
    | Some (Wrote bytes, _) => Some (Some bytes)
    | Some (_, _) => Some file
    | None => None
    end
  else Some file.

(** ** The command line: [KVStoreCLI::split] *)

(** [std::getline(ss, token, delimiter)] on a stream that has characters
    left: the token, up to the first delimiter (which is consumed) or to the
    end of the stream, and the characters left. *)
Fixpoint getline (delimiter : ascii) (ss : list ascii) : list ascii * list ascii :=
  match ss with
  | [] => ([], [])
  | c :: ss' =>
      if decide (c = delimiter) then ([], ss')
      else let '(token, rest) := getline delimiter ss' in (c :: token, rest)
  end.

(** The loop of [split]: [while (std::getline(ss, token, delimiter))], which
    ends when no character is left.  The loop has no bound in the source;
    [fuel] bounds the number of iterations of the model. *)
Fixpoint split_loop (fuel : nat) (delimiter : ascii) (ss : list ascii)
    (tokens : list string) : option (list string) :=
  match ss with
  | [] => Some tokens
  | _ :: _ =>
      match fuel with
      | O => None
      | S fuel' =>
          let '(token, rest) := getline delimiter ss in
          split_loop fuel' delimiter rest
            (if decide (token = []) then tokens
             else tokens ++ [string_of_list_ascii token])
      end
  end.

(** [KVStoreCLI::split(str, delimiter)]. *)
Definition split (str : string) (delimiter : ascii) : option (list string) :=
  split_loop (String.length str) delimiter (list_ascii_of_string str) [].


(** * Specifications *)

(** ** Views of the heap *)

Definition nxt (s : LRUCache) (l : loc) : option NodePtr := next <$> heap s !! l.
Definition prv (s : LRUCache) (l : loc) : option NodePtr := prev <$> heap s !! l.
Definition key_of (s : LRUCache) (l : loc) : option string := key <$> heap s !! l.
Definition entry_of (s : LRUCache) (l : loc) : option (option CacheEntry) :=
  entry <$> heap s !! l.

(** The state after [l->field = ...]. *)
Definition upd (l : loc) (f : Node -> Node) (s : LRUCache) : LRUCache :=
  set_heap (alter f l (heap s)) s.

(** The state after [make_shared<Node>(k, e)]. *)
Definition allocated_state (k : string) (e : option CacheEntry) (s : LRUCache) : LRUCache :=
  set_heap (<[fresh (dom (heap s)) := new_Node k e]> (heap s)) s.

(** ** The recency list as a list of locations *)

Fixpoint lastd (x : loc) (L : list loc) : loc :=
  match L with
  | [] => x
  | y :: L' => lastd y L'
  end.

(** [fwd s x L]: following [next] from [x] goes through [L];
    [bwd s x L]: following [prev] from the end of [L] goes back to [x]. *)
Fixpoint fwd (s : LRUCache) (x : loc) (L : list loc) : Prop :=
  match L with
  | [] => True
  | y :: L' => nxt s x = Some (Some y) /\ fwd s y L'
  end.

Fixpoint bwd (s : LRUCache) (x : loc) (L : list loc) : Prop :=
  match L with
  | [] => True
  | y :: L' => prv s y = Some (Some x) /\ bwd s y L'
  end.

(** [Rep s L]: between the sentinels, the list of [s] holds exactly the nodes
    [L], from the head to the tail. *)
Definition Rep (s : LRUCache) (L : list loc) : Prop :=
  NoDup (head s :: L ++ [tail s])
  /\ fwd s (head s) (L ++ [tail s])
  /\ bwd s (head s) (L ++ [tail s]).

(** The sentinels are two distinct allocated nodes. *)
Definition Sentinels (s : LRUCache) : Prop :=
  head s <> tail s /\ is_Some (heap s !! head s) /\ is_Some (heap s !! tail s).

(** ** The invariants of the engine *)

(** [WF s L]: the recency list of [s] is [L], every node of it has an entry,
    the index maps keys to nodes of the list that carry the key, and
    [current_size] is the length of the list, within the capacity.  Every
    operation that is defined keeps it, [load_snapshot] included, whatever
    the stream. *)
Record WF (s : LRUCache) (L : list loc) : Prop := mkWF {
  WF_rep : Rep s L;
  WF_entries : forall l, l ∈ L -> exists e, entry_of s l = Some (Some e);
  WF_map : forall k l, cache_map s !! k = Some l -> l ∈ L /\ key_of s l = Some k;
  WF_size : current_size s = Z.of_nat (length L);
  WF_cap : 0 < capacity s < 2 ^ 64;
  WF_bound : current_size s <= capacity s
}.

(** [Inv s L]: moreover every node of the list is the one the index holds for
    its key, so that the index and the list have the same size and no two
    nodes share a key. *)
Definition Inv (s : LRUCache) (L : list loc) : Prop :=
  WF s L /\ forall l, l ∈ L -> exists k, key_of s l = Some k /\ cache_map s !! k = Some l.

(** [Contents s L kvs]: the nodes [L] carry the keys and values [kvs]. *)
Definition Contents (s : LRUCache) (L : list loc) (kvs : list (string * string)) : Prop :=
  Forall2 (fun l kv => key_of s l = Some kv.1
                       /\ exists e, entry_of s l = Some (Some e) /\ value e = kv.2)
          L kvs.

(** ** Relations between states *)

(** [same_payload s s']: [s'] differs from [s] in the links of nodes only. *)
Definition same_payload (s s' : LRUCache) : Prop :=
  cache_map s' = cache_map s /\ head s' = head s /\ tail s' = tail s
  /\ capacity s' = capacity s /\ current_size s' = current_size s
  /\ (forall l, key_of s' l = key_of s l)
  /\ (forall l, entry_of s' l = entry_of s l).

(** [same_nodes s s']: the same sentinels, capacity and payload of nodes. *)
Definition same_nodes (s s' : LRUCache) : Prop :=
  head s' = head s /\ tail s' = tail s /\ capacity s' = capacity s
  /\ (forall l, key_of s' l = key_of s l)
  /\ (forall l, entry_of s' l = entry_of s l).

(** [touched s n e s']: [s'] is [s] with the entry of [n] replaced by [e], up
    to the links. *)
Definition touched (s : LRUCache) (n : loc) (e : CacheEntry) (s' : LRUCache) : Prop :=
  cache_map s' = cache_map s /\ head s' = head s /\ tail s' = tail s
  /\ capacity s' = capacity s /\ current_size s' = current_size s
  /\ (forall l, key_of s' l = key_of s l)
  /\ (forall l, entry_of s' l = if decide (l = n) then Some (Some e) else entry_of s l).

(** [inserted s n k e s']: [s'] has the node [n], new in [s], with key [k] and
    entry [e]; the payload of the other nodes is that of [s]. *)
Definition inserted (s : LRUCache) (n : loc) (k : string) (e : CacheEntry)
    (s' : LRUCache) : Prop :=
  heap s !! n = None /\ head s' = head s /\ tail s' = tail s
  /\ capacity s' = capacity s
  /\ key_of s' n = Some k /\ entry_of s' n = Some (Some e)
  /\ (forall l, l <> n -> key_of s' l = key_of s l /\ entry_of s' l = entry_of s l).

(** [grows s L s']: from [s] to [s'] the nodes [L] keep their payload and the
    index keeps its keys. *)
Definition grows (s : LRUCache) (L : list loc) (s' : LRUCache) : Prop :=
  head s' = head s /\ tail s' = tail s /\ capacity s' = capacity s
  /\ (forall l, l ∈ L -> key_of s' l = key_of s l /\ entry_of s' l = entry_of s l)
  /\ (forall k, is_Some (cache_map s !! k) -> is_Some (cache_map s' !! k)).

(** ** The records of a snapshot *)

(** The bytes of one record of a snapshot. *)
Definition encode_entry (kv : string * string) : list ascii :=
  le32 (string_size kv.1) ++ list_ascii_of_string kv.1
  ++ le32 (string_size kv.2) ++ list_ascii_of_string kv.2.

Definition encode_entries (kvs : list (string * string)) : list ascii :=
  concat (encode_entry <$> kvs).

(** The lengths of a record fit their 32-bit fields. *)
Definition fits32 (kv : string * string) : Prop :=
  string_size kv.1 < 2 ^ 32 /\ string_size kv.2 < 2 ^ 32.

(** The reads of one iteration of the loop of [load_snapshot]; [None] when
    the read of one of the two sizes fails. *)
Definition read_record (f : ifstream) : option (string * string) * ifstream :=
  let '(key_size, f) := read_u32 f in
  match key_size with
  | None => (None, f)
  | Some key_size =>
      let '(k, f) := read_string key_size f in
      let '(value_size, f) := read_u32 f in
      match value_size with
      | None => (None, f)
      | Some value_size =>
          let '(v, f) := read_string value_size f in
          (Some (k, v), f)
      end
  end.

(** A buffer of [n] zero bytes after a read that stored [part] at its
    start. *)
Definition padded (part : list ascii) (n : Z) : string :=
  string_of_list_ascii (part ++ drop (length part) (repeat zero (Z.to_nat n))).

(** [truncated_record partial]: the bytes [partial] are the start of a record
    that is cut short (possibly before its first byte). *)
Definition truncated_record (partial : list ascii) : Prop :=
  exists kv more, fits32 kv /\ encode_entry kv = partial ++ more /\ more <> [].

(** ** Sequences of calls *)

(** [put(k1, v1); ...; put(kn, vn)], each with its clock reading. *)
Fixpoint put_all (ops : list (time_point * (string * string))) : M unit :=
  match ops with
  | [] => ret tt
  | (now, (k, v)) :: ops' => put now k v ;;; put_all ops'
  end.

(** The calls of the public interface of the engine. *)
Inductive operation :=
  | CallGet (now : time_point) (k : string) (value0 : string)
  | CallPut (now : time_point) (k v : string)
  | CallRemove (k : string)
  | CallClear
  | CallLoad (clock : nat -> time_point) (file : option (list ascii)).

(** The state after a call; [None] if the call is undefined. *)
Definition apply_operation (o : operation) (s : LRUCache) : option LRUCache :=
  match o with
  | CallGet now k value0 => snd <$> get now k value0 s
  | CallPut now k v => snd <$> put now k v s
  | CallRemove k => snd <$> remove k s
  | CallClear => snd <$> clear s
  | CallLoad clock file => snd <$> load_snapshot clock file s
  end.

Definition is_load (o : operation) : bool :=
  match o with
  | CallLoad _ _ => true
  | _ => false
  end.

Fixpoint apply_operations (os : list operation) (s : LRUCache) : option LRUCache :=
  match os with
  | [] => Some s
  | o :: os' =>
      match apply_operation o s with
      | Some s' => apply_operations os' s'
      | None => None
      end
  end.

(** [reachable s]: the engine is in state [s] after its construction with a
    capacity of the range of [size_t] and some sequence of calls. *)
Definition reachable (s : LRUCache) : Prop :=
  exists (C : Z) (os : list operation) (s0 : LRUCache),
    0 < C < 2 ^ 64 /\ new_LRUCache C = Some s0 /\ apply_operations os s0 = Some s.

(** ** Checks by computation *)

Fixpoint fwdb (s : LRUCache) (x : loc) (L : list loc) : bool :=
  match L with
  | [] => true
  | y :: L' => bool_decide (nxt s x = Some (Some y)) && fwdb s y L'
  end.

Fixpoint bwdb (s : LRUCache) (x : loc) (L : list loc) : bool :=
  match L with
  | [] => true
  | y :: L' => bool_decide (prv s y = Some (Some x)) && bwdb s y L'
  end.

Definition has_entry (s : LRUCache) (l : loc) : bool :=
  match entry_of s l with
  | Some (Some _) => true
  | _ => false
  end.

Definition indexed_in (s : LRUCache) (L : list loc) (kl : string * loc) : bool :=
  bool_decide (kl.2 ∈ L) && bool_decide (key_of s kl.2 = Some kl.1).

Definition in_index (s : LRUCache) (l : loc) : bool :=
  match key_of s l with
  | Some k => bool_decide (cache_map s !! k = Some l)
  | None => false
  end.

Definition WF_check (s : LRUCache) (L : list loc) : bool :=
  bool_decide (NoDup (head s :: L ++ [tail s]))
  && fwdb s (head s) (L ++ [tail s])
  && bwdb s (head s) (L ++ [tail s])
  && forallb (has_entry s) L
  && forallb (indexed_in s L) (map_to_list (cache_map s))
  && bool_decide (current_size s = Z.of_nat (length L))
  && bool_decide (0 < capacity s < 2 ^ 64)
  && bool_decide (current_size s <= capacity s).

Definition Inv_check (s : LRUCache) (L : list loc) : bool :=
  WF_check s L && forallb (in_index s) L.

Fixpoint Contents_check (s : LRUCache) (L : list loc) (kvs : list (string * string))
  : bool :=
  match L, kvs with
  | [], [] => true
  | l :: L', kv :: kvs' =>
      bool_decide (key_of s l = Some kv.1)
      && match entry_of s l with
         | Some (Some e) => bool_decide (value e = kv.2)
         | _ => false
         end
      && Contents_check s L' kvs'
  | _, _ => false
  end.

Definition fits32_check (kv : string * string) : bool :=
  (string_size kv.1 <? 2 ^ 32) && (string_size kv.2 <? 2 ^ 32).

(** The nodes of the list, by the traversal of [save_snapshot]: from
    [current], following [next] up to the tail sentinel, within [fuel]
    steps. *)
Fixpoint list_nodes (fuel : nat) (current : NodePtr) (s : LRUCache) : option (list loc) :=
  match fuel with
  | O => None
  | S fuel' =>
      match current with
      | None => None
      | Some c =>
          if decide (c = tail s) then Some []
          else match nxt s c with
               | Some nx => cons c <$> list_nodes fuel' nx s
               | None => None
               end
      end
  end.

(** The number of nodes between the sentinels. *)
Definition list_length (fuel : nat) (s : LRUCache) : option nat :=
  match nxt s (head s) with
  | Some first => length <$> list_nodes fuel first s
  | None => None
  end.

(** ** Example states *)

(** The engine that the constructor returns for a non-zero capacity. *)
Definition engine (cap : Z) : LRUCache :=
  match new_LRUCache cap with
  | Some s => s
  | None => mkLRUCache ∅ ∅ 1%positive 2%positive cap 0
  end.

(** The state after [m], or [s] itself if [m] is undefined. *)
Definition after {A} (m : M A) (s : LRUCache) : LRUCache :=
  match m s with
  | Some (_, s') => s'
  | None => s
  end.

(** A full engine of capacity 2: [put("a","1"); put("b","2")]. *)
Definition engine_ab : LRUCache :=
  after (put 1 "a" "1" ;;; put 2 "b" "2") (engine 2).

(** A record with key ["k"] and a value of two bytes, the last of which is
    missing, and the call that loads a file of version 1 which announces one
    record and ends with it. *)
Definition cut_record : list ascii :=
  le32 1 ++ list_ascii_of_string "k" ++ le32 2 ++ list_ascii_of_string "v".

Definition load_cut_stream : M bool :=
  load_snapshot (fun _ => 0)
    (Some (le32 1 ++ le32 1 ++ encode_entries [] ++ cut_record)).

(** An engine with two nodes for the key ["a"], as [load_snapshot] builds it
    from a file that holds the key twice, the file that [save_snapshot]
    writes for it, and the engine loaded from that file. *)
Definition duplicate_stream : list ascii :=
  le32 1 ++ le32 2 ++ encode_entries [("a", "1"); ("a", "2")].

Definition engine_dup : LRUCache :=
  after (load_snapshot (fun _ => 0) (Some duplicate_stream)) (engine 2).

Definition saved_dup : list ascii :=
  match save_snapshot true 3 engine_dup with
  | Some (Some bytes, _) => bytes
  | _ => []
  end.

Definition engine_dup_reloaded : LRUCache :=
  after (load_snapshot (fun _ => 0) (Some saved_dup)) (engine 2).

(** A store around [engine_ab] that has counted five operations. *)
Definition store_ab : KVStore :=
  mkKVStore engine_ab (mkPerformanceMetrics 5 2 1 0 0) "".

Definition engine_a : LRUCache := after (put 1 "a" "1") (engine 2).

(** The lookup phase of [get("a")], then [remove("a")] of another thread
    between the two locks, then the promotion phase for the node that the
    lookup found. *)
Definition get_with_remove_between : M (bool * string) :=
  let* it := get_lookup 2 "a" in
  remove "a" ;;;
  match it with
  | Some node => get_promote node
  | None => ret (false, "")
  end.

(** ** The reads of [load_snapshot] *)

(** [reads_sizes n f]: on the stream [f], each of the next [n] iterations of
    the loop of [load_snapshot] reads its two sizes. *)
Fixpoint reads_sizes (n : nat) (f : ifstream) : bool :=
  match n with
  | O => true
  | S n' =>
      match read_record f with
      | (Some _, f') => reads_sizes n' f'
      | (None, _) => false
      end
  end.

(** [reads_initialised cap file]: [load_snapshot] of [file] into an engine of
    capacity [cap] uses none of its locals [version], [count], [key_size] and
    [value_size] after a read of it that failed. *)
Definition reads_initialised (cap : Z) (file : option (list ascii)) : bool :=
  match file with
  | None => true
  | Some bytes =>
      let '(version, f) := read_u32 (mkIfstream bytes false) in
      let '(count, f) := read_u32 f in
      match version with
      | None => false
      | Some version =>
          if decide (version <> 1) then true
          else
            match count with
            | None => false
            | Some count => reads_sizes (Z.to_nat (Z.min count cap)) f
            end
      end
  end.

(** A call other than a [load_snapshot] that uses an uninitialised local. *)
Definition well_read (cap : Z) (o : operation) : bool :=
  match o with
  | CallLoad _ file => reads_initialised cap file
  | _ => true
  end.

(** ** What a lookup finds *)

(** The value that the index leads to for [k]: that of the entry of the node
    it holds for [k]. *)
Definition lookup_value (s : LRUCache) (k : string) : option string :=
  match cache_map s !! k with
  | Some n => match entry_of s n with
              | Some (Some e) => Some (value e)
              | _ => None
              end
  | None => None
  end.

(** The result of [get] for a lookup that finds [o], on a caller's value
    [value0]. *)
Definition get_result (o : option string) (value0 : string) : bool * string :=
  match o with
  | Some v => (true, v)
  | None => (false, value0)
  end.

(** ** An association list as a model of the engine *)

(** The model is the list of the pairs of the cache, from the most to the
    least recently used. *)
Fixpoint assoc (k : string) (m : list (string * string)) : option string :=
  match m with
  | [] => None
  | (k', v) :: m' => if decide (k' = k) then Some v else assoc k m'
  end.

Definition remove_key (k : string) (m : list (string * string)) : list (string * string) :=
  filter (fun kv => kv.1 <> k) m.

Definition model_get (k : string) (m : list (string * string)) : list (string * string) :=
  match assoc k m with
  | Some v => (k, v) :: remove_key k m
  | None => m
  end.

Definition model_put (C : Z) (k v : string) (m : list (string * string)) : list (string * string) :=
  match assoc k m with
  | Some _ => (k, v) :: remove_key k m
  | None => (k, v) :: take (Z.to_nat C - 1) m
  end.

(** The calls of the engine other than the snapshot functions, and what they
    return. *)
Inductive request :=
  | ReqGet (now : time_point) (k : string) (value0 : string)
  | ReqPut (now : time_point) (k v : string)
  | ReqRemove (k : string)
  | ReqClear
  | ReqSize
  | ReqEmpty.

Inductive reply :=
  | GetReply (r : bool * string)
  | PutReply
  | RemoveReply (b : bool)
  | ClearReply
  | SizeReply (n : Z)
  | EmptyReply (b : bool).

Definition serve (q : request) : M reply :=
  match q with
  | ReqGet now k value0 => let* r := get now k value0 in ret (GetReply r)
  | ReqPut now k v => put now k v ;;; ret PutReply
  | ReqRemove k => let* b := remove k in ret (RemoveReply b)
  | ReqClear => clear ;;; ret ClearReply
  | ReqSize => let* n := size in ret (SizeReply n)
  | ReqEmpty => let* b := empty in ret (EmptyReply b)
  end.

Fixpoint serve_all (qs : list request) : M (list reply) :=
  match qs with
  | [] => ret []
  | q :: qs' => let* r := serve q in let* rs := serve_all qs' in ret (r :: rs)
  end.

(** The same calls on the model of an engine of capacity [C]. *)
Definition model_serve (C : Z) (q : request) (m : list (string * string)) : reply * list (string * string) :=
  match q with
  | ReqGet now k value0 => (GetReply (get_result (assoc k m) value0), model_get k m)
  | ReqPut now k v => (PutReply, model_put C k v m)
  | ReqRemove k => (RemoveReply (bool_decide (is_Some (assoc k m))), remove_key k m)
  | ReqClear => (ClearReply, [])
  | ReqSize => (SizeReply (Z.of_nat (length m)), m)
  | ReqEmpty => (EmptyReply (bool_decide (m = [])), m)
  end.

Fixpoint model_serve_all (C : Z) (qs : list request) (m : list (string * string)) : list reply * list (string * string) :=
  match qs with
  | [] => ([], m)
  | q :: qs' =>
      let '(r, m') := model_serve C q m in
      let '(rs, m'') := model_serve_all C qs' m' in
      (r :: rs, m'')
  end.

(** [Models s m]: the engine [s] satisfies the strong invariant and its list
    carries the pairs [m]. *)
Definition Models (s : LRUCache) (m : list (string * string)) : Prop :=
  exists L, Inv s L /\ Contents s L m.

(** ** Sequences of calls of the store *)

Inductive store_call :=
  | StoreGet (now : time_point) (k : string) (value0 : string)
  | StorePut (now : time_point) (k v : string)
  | StoreRemove (k : string).

Definition store_apply (c : store_call) : K unit :=
  match c with
  | StoreGet now k value0 => kbind (KVStoreOps.get now k value0) (fun _ => kret tt)
  | StorePut now k v => KVStoreOps.put now k v
  | StoreRemove k => kbind (KVStoreOps.remove k) (fun _ => kret tt)
  end.

Fixpoint store_apply_all (cs : list store_call) : K unit :=
  match cs with
  | [] => kret tt
  | c :: cs' => kbind (store_apply c) (fun _ => store_apply_all cs')
  end.

Definition is_store_get (c : store_call) : bool :=
  match c with
  | StoreGet _ _ _ => true
  | _ => false
  end.

(** The number of calls of [get] in a sequence. *)
Definition count_gets (cs : list store_call) : nat :=
  length (List.filter is_store_get cs).

(** A store around [engine_ab] with a snapshot file. *)
Definition store_snap : KVStore :=
  mkKVStore engine_ab (mkPerformanceMetrics 5 2 1 0 0) "kvstore.snap".

(** ** Tokens *)


(** * Properties *)

(** ** Running monadic code *)

Lemma bind_run {A B} (m : M A) (f : A -> M B) s a s' :
  m s = Some (a, s') -> bind m f s = f a s'.
Proof. unfold bind. intros ->. reflexivity. Qed.

(** [step tac]: run the first computation of a [bind], whose result [tac]
    establishes. *)
Ltac step tac := erewrite bind_run; [|solve [tac]]; cbv beta iota.

Lemma modify_run s l f :
  is_Some (heap s !! l) -> modify (Some l) f s = Some (tt, upd l f s).
Proof.
  intros [n Hn]. unfold modify, upd. rewrite Hn. do 3 f_equal.
  apply map_eq. intros j. rewrite lookup_alter, lookup_insert.
  destruct (decide (l = j)) as [<-|]; [|reflexivity].
  rewrite Hn. reflexivity.
Qed.

Lemma deref_run s l n : heap s !! l = Some n -> deref (Some l) s = Some (n, s).
Proof. unfold deref. intros ->. reflexivity. Qed.

Lemma get_next_run s l v : nxt s l = Some v -> get_next (Some l) s = Some (v, s).
Proof.
  unfold nxt, get_next, bind, deref, ret. destruct (heap s !! l); simpl; congruence.
Qed.

Lemma get_prev_run s l v : prv s l = Some v -> get_prev (Some l) s = Some (v, s).
Proof.
  unfold prv, get_prev, bind, deref, ret. destruct (heap s !! l); simpl; congruence.
Qed.

Lemma get_key_run s l k : key_of s l = Some k -> get_key (Some l) s = Some (k, s).
Proof.
  unfold key_of, get_key, bind, deref, ret. destruct (heap s !! l); simpl; congruence.
Qed.

Lemma get_entry_run s l e :
  entry_of s l = Some (Some e) -> get_entry (Some l) s = Some (e, s).
Proof.
  unfold entry_of, get_entry, bind, deref, ret.
  destruct (heap s !! l) as [n|]; simpl; [|congruence].
  intros [= ->]. reflexivity.
Qed.

Lemma allocated_nxt s l : is_Some (heap s !! l) <-> is_Some (nxt s l).
Proof. unfold nxt. rewrite fmap_is_Some. reflexivity. Qed.
Lemma allocated_prv s l : is_Some (heap s !! l) <-> is_Some (prv s l).
Proof. unfold prv. rewrite fmap_is_Some. reflexivity. Qed.
Lemma allocated_key_of s l : is_Some (heap s !! l) <-> is_Some (key_of s l).
Proof. unfold key_of. rewrite fmap_is_Some. reflexivity. Qed.
Lemma allocated_entry_of s l : is_Some (heap s !! l) <-> is_Some (entry_of s l).
Proof. unfold entry_of. rewrite fmap_is_Some. reflexivity. Qed.

Lemma set_next_run s l v :
  is_Some (heap s !! l) -> set_next (Some l) v s = Some (tt, upd l (with_next v) s).
Proof. apply modify_run. Qed.
Lemma set_prev_run s l v :
  is_Some (heap s !! l) -> set_prev (Some l) v s = Some (tt, upd l (with_prev v) s).
Proof. apply modify_run. Qed.
Lemma set_entry_run s l e e' :
  entry_of s l = Some (Some e) ->
  set_entry (Some l) e' s = Some (tt, upd l (with_entry (Some e')) s).
Proof.
  intros H. unfold set_entry. erewrite bind_run by (apply get_entry_run; eassumption).
  apply modify_run. apply allocated_entry_of. rewrite H. eauto.
Qed.

(** How an update shows in each view. *)
Lemma view_upd {A} (g : Node -> A) l f s x :
  g <$> heap (upd l f s) !! x
  = if decide (x = l) then (fun n => g (f n)) <$> heap s !! l else g <$> heap s !! x.
Proof.
  unfold upd. simpl. rewrite lookup_alter.
  destruct (decide (x = l)) as [->|Hne].
  - rewrite decide_True by reflexivity. destruct (heap s !! l); reflexivity.
  - rewrite decide_False by congruence. reflexivity.
Qed.

Lemma allocated_upd l f s x :
  is_Some (heap (upd l f s) !! x) <-> is_Some (heap s !! x).
Proof.
  unfold upd. simpl. rewrite lookup_alter.
  destruct (decide (l = x)) as [->|Hne]; [|reflexivity].
  rewrite fmap_is_Some. reflexivity.
Qed.

Lemma nxt_upd_next l v s x :
  is_Some (heap s !! l) ->
  nxt (upd l (with_next v) s) x = if decide (x = l) then Some v else nxt s x.
Proof.
  intros [n Hn]. unfold nxt. rewrite view_upd. case_decide; [|reflexivity].
  rewrite Hn. reflexivity.
Qed.
Lemma prv_upd_prev l v s x :
  is_Some (heap s !! l) ->
  prv (upd l (with_prev v) s) x = if decide (x = l) then Some v else prv s x.
Proof.
  intros [n Hn]. unfold prv. rewrite view_upd. case_decide; [|reflexivity].
  rewrite Hn. reflexivity.
Qed.
Lemma entry_of_upd_entry l e s x :
  is_Some (heap s !! l) ->
  entry_of (upd l (with_entry e) s) x = if decide (x = l) then Some e else entry_of s x.
Proof.
  intros [n Hn]. unfold entry_of. rewrite view_upd. case_decide; [|reflexivity].
  rewrite Hn. reflexivity.
Qed.

Lemma view_upd_same {A} (g : Node -> A) l f s x :
  (forall n, g (f n) = g n) -> g <$> heap (upd l f s) !! x = g <$> heap s !! x.
Proof.
  intros Hg. rewrite view_upd. destruct (decide (x = l)) as [->|Hne]; [|reflexivity].
  destruct (heap s !! l); simpl; [rewrite Hg|]; reflexivity.
Qed.

Lemma nxt_upd_prev l v s x : nxt (upd l (with_prev v) s) x = nxt s x.
Proof. apply (view_upd_same next). reflexivity. Qed.
Lemma nxt_upd_entry l e s x : nxt (upd l (with_entry e) s) x = nxt s x.
Proof. apply (view_upd_same next). reflexivity. Qed.
Lemma prv_upd_next l v s x : prv (upd l (with_next v) s) x = prv s x.
Proof. apply (view_upd_same prev). reflexivity. Qed.
Lemma prv_upd_entry l e s x : prv (upd l (with_entry e) s) x = prv s x.
Proof. apply (view_upd_same prev). reflexivity. Qed.
Lemma key_of_upd_next l v s x : key_of (upd l (with_next v) s) x = key_of s x.
Proof. apply (view_upd_same key). reflexivity. Qed.
Lemma key_of_upd_prev l v s x : key_of (upd l (with_prev v) s) x = key_of s x.
Proof. apply (view_upd_same key). reflexivity. Qed.
Lemma key_of_upd_entry l e s x : key_of (upd l (with_entry e) s) x = key_of s x.
Proof. apply (view_upd_same key). reflexivity. Qed.
Lemma entry_of_upd_next l v s x : entry_of (upd l (with_next v) s) x = entry_of s x.
Proof. apply (view_upd_same entry). reflexivity. Qed.
Lemma entry_of_upd_prev l v s x : entry_of (upd l (with_prev v) s) x = entry_of s x.
Proof. apply (view_upd_same entry). reflexivity. Qed.

(** ** The recency list as a list of locations *)

Lemma lastd_app x A B : lastd x (A ++ B) = lastd (lastd x A) B.
Proof. revert x. induction A as [|a A IH]; intros x; simpl; [reflexivity|apply IH]. Qed.

Lemma lastd_elem x L : lastd x L ∈ x :: L.
Proof.
  revert x. induction L as [|y L IH]; intros x; simpl.
  - apply list_elem_of_here.
  - apply list_elem_of_further, IH.
Qed.

Lemma fwd_app s x A B : fwd s x (A ++ B) <-> fwd s x A /\ fwd s (lastd x A) B.
Proof.
  revert x. induction A as [|a A IH]; intros x; simpl.
  - tauto.
  - rewrite IH. tauto.
Qed.

Lemma bwd_app s x A B : bwd s x (A ++ B) <-> bwd s x A /\ bwd s (lastd x A) B.
Proof.
  revert x. induction A as [|a A IH]; intros x; simpl.
  - tauto.
  - rewrite IH. tauto.
Qed.

Lemma fwd_frame s s' x L :
  NoDup (x :: L) ->
  (forall z, z ∈ x :: L -> z <> lastd x L -> nxt s' z = nxt s z) ->
  fwd s x L -> fwd s' x L.
Proof.
  revert x. induction L as [|y L IH]; intros x Hnd Hz; simpl; [tauto|].
  intros [Hx HL]. apply NoDup_cons in Hnd as [Hx' Hnd]. split.
  - rewrite Hz; [assumption|apply list_elem_of_here|].
    simpl. intros E. apply Hx'. rewrite E. apply lastd_elem.
  - apply IH; [assumption| |assumption].
    intros z Hin Hne. apply Hz; [apply list_elem_of_further, Hin|exact Hne].
Qed.

Lemma bwd_frame s s' x L :
  (forall z, z ∈ L -> prv s' z = prv s z) ->
  bwd s x L -> bwd s' x L.
Proof.
  revert x. induction L as [|y L IH]; intros x Hz; simpl; [tauto|].
  intros [Hy HL]. split.
  - rewrite Hz; [assumption|apply list_elem_of_here].
  - apply IH; [|assumption].
    intros z Hin. apply Hz. apply list_elem_of_further, Hin.
Qed.

Lemma bwd_allocated s x L z : bwd s x L -> z ∈ L -> is_Some (heap s !! z).
Proof.
  revert x. induction L as [|y L IH]; intros x; simpl.
  - intros _ Hin. apply elem_of_nil in Hin. contradiction.
  - intros [Hy HL] Hin. apply elem_of_cons in Hin as [->|Hin].
    + apply allocated_prv. rewrite Hy. eauto.
    + eapply IH; eassumption.
Qed.

Lemma Rep_allocated s L z : Rep s L -> z ∈ head s :: L ++ [tail s] -> is_Some (heap s !! z).
Proof.
  intros (Hnd & Hf & Hb) Hin. apply elem_of_cons in Hin as [->|Hin].
  - destruct (L ++ [tail s]) as [|y L'] eqn:E.
    + destruct L; discriminate.
    + simpl in Hf. apply allocated_nxt. destruct Hf as [-> _]. eauto.
  - eapply bwd_allocated; eassumption.
Qed.

Lemma same_payload_refl s : same_payload s s.
Proof. repeat split. Qed.

Lemma same_payload_trans s1 s2 s3 :
  same_payload s1 s2 -> same_payload s2 s3 -> same_payload s1 s3.
Proof.
  intros (?&?&?&?&?&Hk&He) (?&?&?&?&?&Hk'&He').
  repeat split; congruence.
Qed.

Lemma same_payload_upd_next s l v : same_payload s (upd l (with_next v) s).
Proof.
  repeat split; intros; [apply key_of_upd_next|apply entry_of_upd_next].
Qed.

Lemma same_payload_upd_prev s l v : same_payload s (upd l (with_prev v) s).
Proof.
  repeat split; intros; [apply key_of_upd_prev|apply entry_of_upd_prev].
Qed.

Lemma same_payload_allocated s s' l :
  same_payload s s' -> is_Some (heap s' !! l) <-> is_Some (heap s !! l).
Proof.
  intros (_&_&_&_&_&Hk&_). rewrite !allocated_key_of, Hk. reflexivity.
Qed.

(** Unlinking [n] from between its neighbours [p] and [q]. *)
Lemma remove_node_chain s x A n q B :
  let p := lastd x A in
  let s' := upd q (with_prev (Some p)) (upd p (with_next (Some q)) s) in
  NoDup (x :: A ++ n :: q :: B) ->
  fwd s x (A ++ n :: q :: B) ->
  bwd s x (A ++ n :: q :: B) ->
  remove_node (Some n) s = Some (tt, s')
  /\ fwd s' x (A ++ q :: B) /\ bwd s' x (A ++ q :: B).
Proof.
  intros p s' Hnd Hf Hb.
  apply fwd_app in Hf as (HfA & Hpn & Hnq & HfB). fold p in Hpn.
  apply bwd_app in Hb as (HbA & Hnp & Hqn & HbB). fold p in Hnp.
  assert (Hp_in : p ∈ x :: A) by apply lastd_elem.
  apply NoDup_cons in Hnd as Hnd'. destruct Hnd' as [Hx HndA].
  apply NoDup_app in HndA as (HndA & Hdisj & HndB).
  apply NoDup_cons in HndB as [Hn HndB]. apply NoDup_cons in HndB as [Hq HndB].
  assert (Hpn' : p <> n).
  { intros E. rewrite E in Hp_in. apply elem_of_cons in Hp_in as [->|Hin].
    - apply Hx. set_solver.
    - apply (Hdisj n Hin). set_solver. }
  assert (Hpq : p <> q).
  { intros E. rewrite E in Hp_in. apply elem_of_cons in Hp_in as [->|Hin].
    - apply Hx. set_solver.
    - apply (Hdisj q Hin). set_solver. }
  assert (Hnq' : n <> q) by set_solver.
  assert (Hpa : is_Some (heap s !! p)) by (apply allocated_nxt; rewrite Hpn; eauto).
  assert (Hqa : is_Some (heap s !! q)) by (apply allocated_prv; rewrite Hqn; eauto).
  split; [|split].
  - unfold remove_node.
    step ltac:(apply get_prev_run; eassumption).
    step ltac:(step ltac:(apply get_next_run; eassumption);
               apply set_next_run; assumption).
    step ltac:(apply get_next_run; rewrite nxt_upd_next by assumption;
               rewrite decide_False by congruence; eassumption).
    step ltac:(apply get_prev_run; rewrite prv_upd_next; eassumption).
    apply set_prev_run. apply allocated_upd. assumption.
  - apply fwd_app. split; [|split].
    + eapply fwd_frame; [..|exact HfA].
      * apply NoDup_cons. split; [set_solver|assumption].
      * intros z Hz Hne. unfold s'. rewrite nxt_upd_prev, nxt_upd_next by assumption.
        rewrite decide_False by exact Hne. reflexivity.
    + unfold s'. rewrite nxt_upd_prev, nxt_upd_next by assumption.
      rewrite decide_True by reflexivity. reflexivity.
    + eapply fwd_frame; [..|exact HfB].
      * apply NoDup_cons. split; assumption.
      * intros z Hz _. unfold s'. rewrite nxt_upd_prev, nxt_upd_next by assumption.
        rewrite decide_False; [reflexivity|].
        intros ->. apply elem_of_cons in Hp_in as [->|Hin].
        -- apply Hx. set_solver.
        -- apply (Hdisj p Hin). set_solver.
  - apply bwd_app. split; [|split].
    + eapply bwd_frame; [|exact HbA].
      intros z Hz. unfold s'. rewrite prv_upd_prev by (apply allocated_upd; assumption).
      rewrite decide_False; [apply prv_upd_next|].
      intros ->. apply (Hdisj q Hz). set_solver.
    + unfold s'. rewrite prv_upd_prev by (apply allocated_upd; assumption).
      rewrite decide_True by reflexivity. reflexivity.
    + eapply bwd_frame; [|exact HbB].
      intros z Hz. unfold s'. rewrite prv_upd_prev by (apply allocated_upd; assumption).
      rewrite decide_False; [apply prv_upd_next|].
      intros ->. contradiction.
Qed.

Lemma remove_node_spec s L1 n L2 :
  Rep s (L1 ++ n :: L2) ->
  exists s', remove_node (Some n) s = Some (tt, s')
             /\ Rep s' (L1 ++ L2) /\ same_payload s s'.
Proof.
  intros (Hnd & Hf & Hb).
  rewrite <- app_assoc in Hnd, Hf, Hb. simpl in Hnd, Hf, Hb.
  destruct (L2 ++ [tail s]) as [|q B] eqn:EB; [destruct L2; discriminate|].
  destruct (remove_node_chain s (head s) L1 n q B Hnd Hf Hb) as (Hrun & Hf' & Hb').
  eexists. split; [exact Hrun|]. split.
  - unfold Rep. simpl. rewrite <- app_assoc, EB. split; [|split; assumption].
    clear -Hnd. rewrite !NoDup_cons, !NoDup_app, !NoDup_cons in *. set_solver.
  - eapply same_payload_trans; [apply same_payload_upd_next|apply same_payload_upd_prev].
Qed.

(** Linking an allocated node [n] that is not in the list after the head. *)
Lemma insert_after_head_chain s x n f B :
  let s' := upd x (with_next (Some n)) (upd f (with_prev (Some n))
              (upd n (with_prev (Some x)) (upd n (with_next (Some f)) s))) in
  head s = x ->
  NoDup (x :: f :: B) -> n ∉ x :: f :: B -> is_Some (heap s !! n) ->
  fwd s x (f :: B) -> bwd s x (f :: B) ->
  insert_after_head (Some n) s = Some (tt, s')
  /\ fwd s' x (n :: f :: B) /\ bwd s' x (n :: f :: B).
Proof.
  intros s' Hhd Hnd Hn Hna [Hxf HfB] [Hfx HbB].
  apply NoDup_cons in Hnd as [Hx Hnd]. apply NoDup_cons in Hnd as [Hf Hnd].
  assert (Hnx : n <> x) by set_solver.
  assert (Hnf : n <> f) by set_solver.
  assert (Hxf' : x <> f) by set_solver.
  assert (Hxa : is_Some (heap s !! x)) by (apply allocated_nxt; rewrite Hxf; eauto).
  assert (Hfa : is_Some (heap s !! f)) by (apply allocated_prv; rewrite Hfx; eauto).
  set (s1 := upd n (with_next (Some f)) s).
  set (s2 := upd n (with_prev (Some x)) s1).
  set (s3 := upd f (with_prev (Some n)) s2).
  assert (Hn1 : forall z, nxt s' z
            = if decide (z = x) then Some (Some n)
              else if decide (z = n) then Some (Some f) else nxt s z).
  { intros z. unfold s'. rewrite nxt_upd_next by (rewrite !allocated_upd; assumption).
    case_decide; [reflexivity|].
    rewrite !nxt_upd_prev. apply nxt_upd_next. assumption. }
  assert (Hp1 : forall z, prv s' z
            = if decide (z = f) then Some (Some n)
              else if decide (z = n) then Some (Some x) else prv s z).
  { intros z. unfold s'. rewrite prv_upd_next.
    rewrite prv_upd_prev by (rewrite !allocated_upd; assumption).
    case_decide; [reflexivity|].
    rewrite prv_upd_prev by (rewrite !allocated_upd; assumption).
    case_decide; [reflexivity|]. apply prv_upd_next. }
  split; [|split].
  - unfold insert_after_head.
    step ltac:(reflexivity). rewrite Hhd.
    step ltac:(apply get_next_run; eassumption).
    step ltac:(apply set_next_run; assumption). fold s1.
    step ltac:(apply set_prev_run; apply allocated_upd; assumption). fold s2.
    step ltac:(apply get_next_run; unfold s2, s1;
               rewrite nxt_upd_prev, nxt_upd_next by assumption;
               rewrite decide_False by congruence; eassumption).
    step ltac:(apply set_prev_run; unfold s2, s1; rewrite !allocated_upd; assumption).
    fold s3.
    apply set_next_run. unfold s3, s2, s1. rewrite !allocated_upd. assumption.
  - simpl. rewrite !Hn1. rewrite decide_True by reflexivity.
    rewrite decide_False by assumption. rewrite decide_True by reflexivity.
    split; [reflexivity|]. split; [reflexivity|].
    eapply fwd_frame; [apply NoDup_cons; split; eassumption| |exact HfB].
    intros z Hz _. rewrite Hn1. rewrite !decide_False; [reflexivity|..]; set_solver.
  - simpl. rewrite !Hp1. rewrite decide_False by assumption.
    rewrite !decide_True by reflexivity.
    split; [reflexivity|]. split; [reflexivity|].
    eapply bwd_frame; [|exact HbB].
    intros z Hz. rewrite Hp1. rewrite !decide_False; [reflexivity|..]; set_solver.
Qed.

Lemma insert_after_head_spec s L n :
  Rep s L -> n ∉ head s :: L ++ [tail s] -> is_Some (heap s !! n) ->
  exists s', insert_after_head (Some n) s = Some (tt, s')
             /\ Rep s' (n :: L) /\ same_payload s s'.
Proof.
  intros (Hnd & Hf & Hb) Hn Hna.
  destruct (L ++ [tail s]) as [|f B] eqn:EB; [destruct L; discriminate|].
  destruct (insert_after_head_chain s (head s) n f B eq_refl Hnd Hn Hna Hf Hb)
    as (Hrun & Hf' & Hb').
  eexists. split; [exact Hrun|]. split.
  - unfold Rep. simpl. rewrite EB. split; [|split; assumption].
    clear -Hnd Hn. rewrite !NoDup_cons in *. set_solver.
  - eapply same_payload_trans; [apply same_payload_upd_next|].
    eapply same_payload_trans; [apply same_payload_upd_prev|].
    eapply same_payload_trans; [apply same_payload_upd_prev|].
    apply same_payload_upd_next.
Qed.

Lemma move_to_front_spec s L1 n L2 :
  Rep s (L1 ++ n :: L2) ->
  exists s', move_to_front (Some n) s = Some (tt, s')
             /\ Rep s' (n :: L1 ++ L2) /\ same_payload s s'.
Proof.
  intros HR.
  assert (Hna : is_Some (heap s !! n)).
  { eapply Rep_allocated; [exact HR|]. set_solver. }
  assert (Hn : n ∉ head s :: (L1 ++ L2) ++ [tail s]).
  { destruct HR as (Hnd & _). clear -Hnd.
    rewrite <- !app_assoc in *. simpl in Hnd.
    rewrite !NoDup_cons, !NoDup_app, !NoDup_cons in Hnd. set_solver. }
  destruct (remove_node_spec s L1 n L2 HR) as (s1 & Hrun1 & HR1 & Hsp1).
  destruct (insert_after_head_spec s1 (L1 ++ L2) n HR1) as (s2 & Hrun2 & HR2 & Hsp2).
  - destruct Hsp1 as (_ & -> & -> & _). exact Hn.
  - apply (same_payload_allocated _ _ _ Hsp1). exact Hna.
  - exists s2. split; [|split].
    + unfold move_to_front. step ltac:(exact Hrun1). exact Hrun2.
    + exact HR2.
    + eapply same_payload_trans; eassumption.
Qed.

Lemma fwd_ext s s' x L :
  (forall z, z ∈ x :: L -> nxt s' z = nxt s z) -> fwd s x L -> fwd s' x L.
Proof.
  revert x. induction L as [|y L IH]; intros x Hz; simpl; [tauto|].
  intros [Hx HL]. split.
  - rewrite Hz; [assumption|apply list_elem_of_here].
  - apply IH; [|assumption]. intros z Hin. apply Hz, list_elem_of_further, Hin.
Qed.

(** The list depends on the links of its own nodes only. *)
Lemma Rep_frame s s' L :
  head s' = head s -> tail s' = tail s ->
  (forall z, z ∈ head s :: L ++ [tail s] -> nxt s' z = nxt s z /\ prv s' z = prv s z) ->
  Rep s L -> Rep s' L.
Proof.
  intros Hh Ht Hz (Hnd & Hf & Hb). unfold Rep. rewrite Hh, Ht.
  split; [assumption|]. split.
  - eapply fwd_ext; [|exact Hf]. intros z Hin. apply Hz, Hin.
  - eapply bwd_frame; [|exact Hb]. intros z Hin. apply Hz, list_elem_of_further, Hin.
Qed.

Lemma Rep_upd_entry s L l e :
  Rep s L -> Rep (upd l (with_entry e) s) L.
Proof.
  apply Rep_frame; [reflexivity..|].
  intros z _. split; [apply nxt_upd_entry|apply prv_upd_entry].
Qed.

Lemma Rep_set_cache_map s L m : Rep s L -> Rep (set_cache_map m s) L.
Proof. apply Rep_frame; [reflexivity..|]. intros z _. split; reflexivity. Qed.

Lemma Rep_set_current_size s L z : Rep s L -> Rep (set_current_size z s) L.
Proof. apply Rep_frame; [reflexivity..|]. intros l _. split; reflexivity. Qed.

Lemma Rep_NoDup s L : Rep s L -> NoDup L.
Proof.
  intros (Hnd & _). apply NoDup_cons in Hnd as [_ Hnd].
  apply NoDup_app in Hnd as (Hnd & _). exact Hnd.
Qed.

Lemma Rep_not_sentinel s L l : Rep s L -> l ∈ L -> l <> head s /\ l <> tail s.
Proof.
  intros (Hnd & _) Hin. apply NoDup_cons in Hnd as [Hh Hnd].
  apply NoDup_app in Hnd as (_ & Hd & _). split.
  - intros ->. apply Hh. set_solver.
  - intros ->. apply (Hd _ Hin). set_solver.
Qed.

(** ** The invariant of the engine *)

Lemma touched_upd_entry s n e e0 :
  entry_of s n = Some (Some e0) -> touched s n e (upd n (with_entry (Some e)) s).
Proof.
  intros H. repeat split.
  - intros l. apply key_of_upd_entry.
  - intros l. apply entry_of_upd_entry. apply allocated_entry_of. rewrite H. eauto.
Qed.

Lemma touched_twice s1 s2 s3 n e e' :
  touched s1 n e s2 -> touched s2 n e' s3 -> touched s1 n e' s3.
Proof.
  intros (?&?&?&?&?&Hk&He) (?&?&?&?&?&Hk'&He').
  repeat split; try congruence.
  intros l. rewrite He'. case_decide; [reflexivity|]. rewrite He.
  rewrite decide_False by assumption. reflexivity.
Qed.

Lemma touched_same_payload s1 s2 s3 n e :
  touched s1 n e s2 -> same_payload s2 s3 -> touched s1 n e s3.
Proof.
  intros (?&?&?&?&?&Hk&He) (?&?&?&?&?&Hk'&He').
  repeat split; try congruence.
  intros l. rewrite He'. apply He.
Qed.

Lemma touched_entry s n e s' : touched s n e s' -> entry_of s' n = Some (Some e).
Proof.
  intros (_&_&_&_&_&_&He). rewrite He. rewrite decide_True by reflexivity. reflexivity.
Qed.

(** The invariant across a change of one entry and a permutation of the
    list. *)
Lemma WF_touched s L n e s' L' :
  WF s L -> touched s n e s' -> Rep s' L' -> L' ≡ₚ L -> WF s' L'.
Proof.
  intros [HR He Hm Hs Hc Hb] (Em & Eh & Et & Ec & Es & Hk & Hen) HR' HP.
  split.
  - exact HR'.
  - intros l Hl. rewrite Hen. case_decide; [eauto|]. apply He. rewrite <- HP. exact Hl.
  - intros k l. rewrite Em, Hk, HP. apply Hm.
  - rewrite Es, Hs, HP. reflexivity.
  - rewrite Ec. exact Hc.
  - rewrite Es, Ec. exact Hb.
Qed.

Lemma Inv_touched s L n e s' L' :
  Inv s L -> touched s n e s' -> Rep s' L' -> L' ≡ₚ L -> Inv s' L'.
Proof.
  intros [HW HI] Ht HR' HP. split; [eapply WF_touched; eassumption|].
  destruct Ht as (Em & _ & _ & _ & _ & Hk & _).
  intros l Hl. rewrite Em. setoid_rewrite Hk. apply HI. rewrite <- HP. exact Hl.
Qed.

(** ** [get] and [put] on a key of the index *)

Lemma get_hit s L1 n L2 now k value0 e :
  WF s (L1 ++ n :: L2) -> cache_map s !! k = Some n ->
  entry_of s n = Some (Some e) ->
  exists s',
    get now k value0 s = Some ((true, value e), s')
    /\ Rep s' (n :: L1 ++ L2)
    /\ touched s n (mkCacheEntry (value e) now (wrap64 (access_count e + 1))) s'.
Proof.
  intros HW Hk He.
  set (e1 := mkCacheEntry (value e) now (access_count e)).
  set (e2 := mkCacheEntry (value e) now (wrap64 (access_count e + 1))).
  set (s1 := upd n (with_entry (Some e1)) s).
  set (s2 := upd n (with_entry (Some e2)) s1).
  assert (Ht1 : touched s n e1 s1) by (eapply touched_upd_entry; eassumption).
  assert (He1 : entry_of s1 n = Some (Some e1)) by (eapply touched_entry; eassumption).
  assert (Ht2 : touched s n e2 s2).
  { eapply touched_twice; [exact Ht1|]. eapply touched_upd_entry; eassumption. }
  assert (HR2 : Rep s2 (L1 ++ n :: L2)).
  { apply Rep_upd_entry, Rep_upd_entry, HW. }
  destruct (move_to_front_spec _ _ _ _ HR2) as (s3 & Hrun & HR3 & Hsp).
  assert (Ht3 : touched s n e2 s3) by (eapply touched_same_payload; eassumption).
  exists s3. split; [|split; assumption].
  unfold get, get_lookup.
  step ltac:(step ltac:(unfold read; rewrite Hk; reflexivity);
             step ltac:(apply get_entry_run; exact He);
             step ltac:(eapply set_entry_run; exact He); fold e1; fold s1;
             step ltac:(apply get_entry_run; exact He1);
             step ltac:(eapply set_entry_run; exact He1); fold e2; fold s2;
             reflexivity).
  unfold get_promote. step ltac:(exact Hrun).
  step ltac:(apply get_entry_run; eapply touched_entry; exact Ht3).
  reflexivity.
Qed.

Lemma put_present s L1 n L2 now k v e :
  WF s (L1 ++ n :: L2) -> cache_map s !! k = Some n ->
  entry_of s n = Some (Some e) ->
  exists s',
    put now k v s = Some (tt, s')
    /\ Rep s' (n :: L1 ++ L2)
    /\ touched s n (mkCacheEntry v now (wrap64 (access_count e + 1))) s'.
Proof.
  intros HW Hk He.
  set (e1 := mkCacheEntry v (last_accessed e) (access_count e)).
  set (e2 := mkCacheEntry v now (access_count e)).
  set (e3 := mkCacheEntry v now (wrap64 (access_count e + 1))).
  set (s1 := upd n (with_entry (Some e1)) s).
  set (s2 := upd n (with_entry (Some e2)) s1).
  set (s3 := upd n (with_entry (Some e3)) s2).
  assert (Ht1 : touched s n e1 s1) by (eapply touched_upd_entry; eassumption).
  assert (He1 : entry_of s1 n = Some (Some e1)) by (eapply touched_entry; eassumption).
  assert (Ht2 : touched s n e2 s2).
  { eapply touched_twice; [exact Ht1|]. eapply touched_upd_entry; eassumption. }
  assert (He2 : entry_of s2 n = Some (Some e2)) by (eapply touched_entry; eassumption).
  assert (Ht3 : touched s n e3 s3).
  { eapply touched_twice; [exact Ht2|]. eapply touched_upd_entry; eassumption. }
  assert (HR3 : Rep s3 (L1 ++ n :: L2)).
  { apply Rep_upd_entry, Rep_upd_entry, Rep_upd_entry, HW. }
  destruct (move_to_front_spec _ _ _ _ HR3) as (s4 & Hrun & HR4 & Hsp).
  exists s4. split; [|split; [assumption|eapply touched_same_payload; eassumption]].
  unfold put.
  step ltac:(unfold read; rewrite Hk; reflexivity).
  step ltac:(apply get_entry_run; exact He).
  step ltac:(eapply set_entry_run; exact He). fold e1; fold s1.
  step ltac:(apply get_entry_run; exact He1).
  step ltac:(eapply set_entry_run; exact He1). fold s2.
  step ltac:(apply get_entry_run; exact He2).
  step ltac:(eapply set_entry_run; exact He2).
  exact Hrun.
Qed.

Lemma get_miss s now k value0 :
  cache_map s !! k = None -> get now k value0 s = Some ((false, value0), s).
Proof.
  intros Hk. unfold get, get_lookup.
  step ltac:(step ltac:(unfold read; rewrite Hk; reflexivity); reflexivity).
  reflexivity.
Qed.

(** ** Allocation *)

Lemma make_shared_Node_run k e s :
  make_shared_Node k e s = Some (fresh (dom (heap s)), allocated_state k e s).
Proof. reflexivity. Qed.

Lemma fresh_unallocated s : heap s !! fresh (dom (heap s)) = None.
Proof. apply not_elem_of_dom, is_fresh. Qed.

Lemma view_allocated_state {A} (g : Node -> A) k e s x :
  g <$> heap (allocated_state k e s) !! x
  = if decide (x = fresh (dom (heap s))) then Some (g (new_Node k e))
    else g <$> heap s !! x.
Proof.
  unfold allocated_state. simpl. rewrite lookup_insert.
  destruct (decide (x = fresh (dom (heap s)))) as [->|Hne].
  - rewrite decide_True by reflexivity. reflexivity.
  - rewrite decide_False by congruence. reflexivity.
Qed.

Lemma Rep_fresh s L : Rep s L -> fresh (dom (heap s)) ∉ head s :: L ++ [tail s].
Proof.
  intros HR Hin. apply (Rep_allocated _ _ _ HR) in Hin.
  rewrite fresh_unallocated in Hin. destruct Hin; discriminate.
Qed.

Lemma Rep_allocated_state s L k e : Rep s L -> Rep (allocated_state k e s) L.
Proof.
  intros HR.
  apply (Rep_frame s (allocated_state k e s) L); [reflexivity..| |exact HR].
  intros z Hz. unfold nxt, prv. rewrite !view_allocated_state.
  assert (Hne : z <> fresh (dom (heap s))).
  { intros ->. eapply Rep_fresh; eassumption. }
  rewrite !decide_False by exact Hne. split; reflexivity.
Qed.

(** ** Eviction *)

Lemma Rep_last s L t : Rep s (L ++ [t]) -> prv s (tail s) = Some (Some t).
Proof.
  intros (_ & _ & Hb). apply bwd_app in Hb as (_ & Hb).
  rewrite lastd_app in Hb. simpl in Hb. apply Hb.
Qed.

Lemma Rep_nil_last s : Rep s [] -> prv s (tail s) = Some (Some (head s)).
Proof. intros (_ & _ & Hb). simpl in Hb. apply Hb. Qed.

Lemma remove_tail_spec s L t :
  Rep s (L ++ [t]) ->
  exists s', remove_tail s = Some (Some t, s') /\ Rep s' L /\ same_payload s s'.
Proof.
  intros HR.
  destruct (remove_node_spec s L t [] HR) as (s' & Hrun & HR' & Hsp).
  rewrite app_nil_r in HR'.
  exists s'. split; [|split; assumption].
  unfold remove_tail.
  step ltac:(reflexivity). step ltac:(reflexivity).
  step ltac:(apply get_prev_run; eapply Rep_last; exact HR).
  rewrite decide_True.
  - step ltac:(exact Hrun). reflexivity.
  - intros [= ->]. destruct (Rep_not_sentinel _ _ (head s) HR) as [Hne _].
    + apply elem_of_app. right. apply list_elem_of_here.
    + apply Hne. reflexivity.
Qed.

Lemma remove_tail_nil s :
  Rep s [] -> remove_tail s = Some (None, s).
Proof.
  intros HR. unfold remove_tail.
  step ltac:(reflexivity). step ltac:(reflexivity).
  step ltac:(apply get_prev_run; apply Rep_nil_last; exact HR).
  rewrite decide_False by (intros H; apply H; reflexivity).
  reflexivity.
Qed.

Lemma wrap64_small z : 0 <= z < 2 ^ 64 -> wrap64 z = z.
Proof. intros H. unfold wrap64. apply Z.mod_small. exact H. Qed.

Lemma snoc_cases {A} (L : list A) : L = [] \/ exists L' t, L = L' ++ [t].
Proof.
  induction L as [|L t _] using rev_ind; [left; reflexivity|right; eauto].
Qed.

(** ** [put] of a key that is not in the index *)

Lemma inserted_allocated_state s k e :
  inserted s (fresh (dom (heap s))) k e (allocated_state k (Some e) s).
Proof.
  split; [apply fresh_unallocated|]. repeat split.
  - unfold key_of. rewrite view_allocated_state, decide_True by reflexivity. reflexivity.
  - unfold entry_of. rewrite view_allocated_state, decide_True by reflexivity. reflexivity.
  - unfold key_of. rewrite view_allocated_state, decide_False by assumption. reflexivity.
  - unfold entry_of. rewrite view_allocated_state, decide_False by assumption. reflexivity.
Qed.

Lemma same_payload_nodes s s' : same_payload s s' -> same_nodes s s'.
Proof. intros (?&?&?&?&?&?&?). repeat split; assumption. Qed.

Lemma same_nodes_trans s1 s2 s3 :
  same_nodes s1 s2 -> same_nodes s2 s3 -> same_nodes s1 s3.
Proof. intros (?&?&?&?&?) (?&?&?&?&?). repeat split; congruence. Qed.

Lemma same_nodes_set_cache_map s m : same_nodes s (set_cache_map m s).
Proof. repeat split. Qed.

Lemma same_nodes_set_current_size s z : same_nodes s (set_current_size z s).
Proof. repeat split. Qed.

Lemma same_nodes_set_both s z m :
  same_nodes s (set_current_size z (set_cache_map m s)).
Proof. repeat split. Qed.

Lemma inserted_same_nodes s n k e s1 s2 :
  inserted s n k e s1 -> same_nodes s1 s2 -> inserted s n k e s2.
Proof.
  intros (Hn & Hh & Ht & Hc & Hk & He & Ho) (Hh' & Ht' & Hc' & Hk' & He').
  split; [exact Hn|]. repeat split; try congruence.
  - rewrite Hk'. apply Ho. assumption.
  - rewrite He'. apply Ho. assumption.
Qed.

Lemma put_absent s L now k v :
  WF s L -> cache_map s !! k = None ->
  exists s' n L',
    put now k v s = Some (tt, s')
    /\ Rep s' (n :: L')
    /\ inserted s n k (new_CacheEntry now v) s'
    /\ current_size s' = Z.of_nat (S (length L'))
    /\ ((current_size s < capacity s /\ L' = L
         /\ cache_map s' = <[k := n]> (cache_map s))
        \/ (capacity s <= current_size s
            /\ exists t kt, L = L' ++ [t] /\ key_of s t = Some kt
                            /\ cache_map s' = <[k := n]> (delete kt (cache_map s)))).
Proof.
  intros [HR He Hm Hs Hc Hb] Hk.
  set (e := new_CacheEntry now v).
  set (n := fresh (dom (heap s))).
  set (s1 := allocated_state k (Some e) s).
  assert (HR1 : Rep s1 L) by apply Rep_allocated_state, HR.
  assert (Hins1 : inserted s n k e s1) by apply inserted_allocated_state.
  assert (Hn : n ∉ head s :: L ++ [tail s]) by apply Rep_fresh, HR.
  assert (Hna : is_Some (heap s1 !! n)).
  { apply allocated_key_of. destruct Hins1 as (_&_&_&_&->&_). eauto. }
  unfold put.
  step ltac:(unfold read; rewrite Hk; reflexivity).
  step ltac:(apply make_shared_Node_run). fold e n s1.
  step ltac:(reflexivity). step ltac:(reflexivity).
  change (current_size s1) with (current_size s).
  change (capacity s1) with (capacity s).
  destruct (decide (capacity s <= current_size s)) as [Hfull|Hroom].
  - (* the cache is full: the tail node is evicted *)
    destruct (snoc_cases L) as [->|(L' & t & ->)].
    { simpl in Hs. lia. }
    destruct (remove_tail_spec s1 L' t HR1) as (s2 & Hrun2 & HR2 & Hsp2).
    assert (Ht : exists kt, key_of s t = Some kt).
    { apply allocated_key_of. eapply Rep_allocated; [exact HR|].
      apply list_elem_of_further, elem_of_app. left. apply elem_of_app. right.
      apply list_elem_of_here. }
    destruct Ht as [kt Hkt].
    assert (Htn : t <> n).
    { intros ->. apply Hn. apply list_elem_of_further, elem_of_app. left.
      apply elem_of_app. right. apply list_elem_of_here. }
    assert (Hkt2 : key_of s2 t = Some kt).
    { destruct Hsp2 as (_&_&_&_&_&->&_). destruct Hins1 as (_&_&_&_&_&_&Ho).
      destruct (Ho t Htn) as [-> _]. exact Hkt. }
    set (s3 := set_current_size (wrap64 (current_size s2 - 1))
                 (set_cache_map (delete kt (cache_map s2)) s2)).
    assert (HR3 : Rep s3 L') by apply Rep_set_current_size, Rep_set_cache_map, HR2.
    assert (Hsp3 : same_payload s1 s2) by exact Hsp2.
    destruct (insert_after_head_spec s3 L' n HR3) as (s4 & Hrun4 & HR4 & Hsp4).
    { change (head s3) with (head s2). change (tail s3) with (tail s2).
      destruct Hsp2 as (_ & -> & -> & _). change (head s1) with (head s).
      change (tail s1) with (tail s).
      intros Hin. apply Hn. apply elem_of_cons in Hin as [Hin|Hin].
      - rewrite Hin. apply list_elem_of_here.
      - apply list_elem_of_further. apply elem_of_app in Hin as [Hin|Hin].
        + apply elem_of_app. left. apply elem_of_app. left. exact Hin.
        + apply elem_of_app. right. exact Hin. }
    { change (heap s3) with (heap s2).
      apply (same_payload_allocated _ _ _ Hsp2). exact Hna. }
    exists (set_current_size (wrap64 (current_size s4 + 1))
              (set_cache_map (<[k := n]> (cache_map s4)) s4)), n, L'.
    assert (Hsz2 : current_size s2 = current_size s).
    { destruct Hsp2 as (_&_&_&_&->&_). reflexivity. }
    assert (Hsz4 : current_size s4 = current_size s - 1).
    { destruct Hsp4 as (_&_&_&_&->&_). simpl. rewrite Hsz2.
      apply wrap64_small. lia. }
    rewrite length_app in Hs. simpl in Hs.
    split; [|split; [|split; [|split]]].
    + step ltac:(step ltac:(exact Hrun2);
                 step ltac:(apply get_key_run; exact Hkt2);
                 step ltac:(reflexivity); reflexivity).
      fold s3. step ltac:(exact Hrun4). reflexivity.
    + apply Rep_set_current_size, Rep_set_cache_map, HR4.
    + eapply inserted_same_nodes; [exact Hins1|].
      eapply same_nodes_trans; [apply same_payload_nodes, Hsp2|].
      eapply same_nodes_trans; [apply (same_nodes_set_both s2)|]. fold s3.
      eapply same_nodes_trans; [apply same_payload_nodes, Hsp4|].
      apply same_nodes_set_both.
    + simpl. rewrite Hsz4. rewrite wrap64_small by lia. lia.
    + right. split; [exact Hfull|]. exists t, kt. split; [reflexivity|].
      split; [exact Hkt|]. simpl. destruct Hsp4 as (->&_). simpl.
      destruct Hsp2 as (->&_). reflexivity.
  - (* there is room *)
    destruct (insert_after_head_spec s1 L n HR1 Hn Hna) as (s4 & Hrun4 & HR4 & Hsp4).
    exists (set_current_size (wrap64 (current_size s4 + 1))
              (set_cache_map (<[k := n]> (cache_map s4)) s4)), n, L.
    assert (Hsz4 : current_size s4 = current_size s).
    { destruct Hsp4 as (_&_&_&_&->&_). reflexivity. }
    split; [|split; [|split; [|split]]].
    + step ltac:(reflexivity). step ltac:(exact Hrun4). reflexivity.
    + apply Rep_set_current_size, Rep_set_cache_map, HR4.
    + eapply inserted_same_nodes; [exact Hins1|].
      eapply same_nodes_trans; [apply same_payload_nodes, Hsp4|].
      apply same_nodes_set_both.
    + simpl. rewrite Hsz4. rewrite wrap64_small by lia. lia.
    + left. split; [lia|]. split; [reflexivity|].
      simpl. destruct Hsp4 as (->&_). reflexivity.
Qed.

(** ** [remove] and [clear] *)

Lemma remove_miss s k : cache_map s !! k = None -> remove k s = Some (false, s).
Proof.
  intros Hk. unfold remove.
  step ltac:(unfold read; rewrite Hk; reflexivity). reflexivity.
Qed.

Lemma remove_hit s L1 n L2 k :
  Rep s (L1 ++ n :: L2) -> cache_map s !! k = Some n ->
  exists s',
    remove k s = Some (true, s')
    /\ Rep s' (L1 ++ L2) /\ same_nodes s s'
    /\ cache_map s' = delete k (cache_map s)
    /\ current_size s' = wrap64 (current_size s - 1).
Proof.
  intros HR Hk.
  destruct (remove_node_spec s L1 n L2 HR) as (s1 & Hrun & HR1 & Hsp).
  exists (set_current_size (wrap64 (current_size s1 - 1))
            (set_cache_map (delete k (cache_map s1)) s1)).
  split; [|split; [|split; [|split]]].
  - unfold remove. step ltac:(unfold read; rewrite Hk; reflexivity).
    step ltac:(exact Hrun). reflexivity.
  - apply Rep_set_current_size, Rep_set_cache_map, HR1.
  - eapply same_nodes_trans; [apply same_payload_nodes, Hsp|apply same_nodes_set_both].
  - simpl. destruct Hsp as (->&_). reflexivity.
  - simpl. destruct Hsp as (_&_&_&_&->&_). reflexivity.
Qed.

Lemma Rep_Sentinels s L : Rep s L -> Sentinels s.
Proof.
  intros HR. split; [|split].
  - destruct HR as (Hnd & _). apply NoDup_cons in Hnd as [Hh _].
    intros E. apply Hh. rewrite E. apply elem_of_app. right. apply list_elem_of_here.
  - eapply Rep_allocated; [exact HR|apply list_elem_of_here].
  - eapply Rep_allocated; [exact HR|]. apply list_elem_of_further, elem_of_app.
    right. apply list_elem_of_here.
Qed.

Lemma clear_spec s :
  Sentinels s ->
  exists s',
    clear s = Some (tt, s')
    /\ Rep s' [] /\ same_nodes s s'
    /\ cache_map s' = ∅ /\ current_size s' = 0.
Proof.
  intros (Hne & Hha & Hta).
  set (s1 := set_cache_map ∅ s).
  set (s2 := upd (head s) (with_next (Some (tail s))) s1).
  set (s3 := upd (tail s) (with_prev (Some (head s))) s2).
  exists (set_current_size 0 s3).
  split; [|split; [|split; [|split]]].
  - unfold clear. step ltac:(reflexivity). fold s1.
    step ltac:(reflexivity). step ltac:(reflexivity).
    step ltac:(apply set_next_run; exact Hha). fold s2.
    step ltac:(apply set_prev_run; unfold s2; apply allocated_upd; exact Hta). fold s3.
    reflexivity.
  - apply Rep_set_current_size. unfold Rep. simpl. split; [|split].
    + apply NoDup_cons. split.
      * intros Hin. apply list_elem_of_singleton in Hin. contradiction.
      * apply NoDup_singleton.
    + split; [|exact I]. unfold s3, s2. rewrite nxt_upd_prev, nxt_upd_next by exact Hha.
      rewrite decide_True by reflexivity. reflexivity.
    + split; [|exact I]. unfold s3.
      rewrite prv_upd_prev by (unfold s2; apply allocated_upd; exact Hta).
      rewrite decide_True by reflexivity. reflexivity.
  - eapply same_nodes_trans; [apply (same_nodes_set_cache_map s ∅)|]. fold s1.
    eapply same_nodes_trans; [apply same_payload_nodes, same_payload_upd_next|].
    eapply same_nodes_trans; [apply same_payload_nodes, same_payload_upd_prev|].
    apply same_nodes_set_current_size.
  - reflexivity.
  - reflexivity.
Qed.

(** ** The operations keep the invariant *)

Lemma WF_get s L now k value0 :
  WF s L ->
  exists r s' L', get now k value0 s = Some (r, s') /\ WF s' L' /\ L' ≡ₚ L
                  /\ capacity s' = capacity s /\ cache_map s' = cache_map s.
Proof.
  intros HW. destruct (cache_map s !! k) as [n|] eqn:Hk.
  - destruct (WF_map _ _ HW _ _ Hk) as [Hin _].
    destruct (WF_entries _ _ HW _ Hin) as [e He].
    apply list_elem_of_split in Hin as (L1 & L2 & ->).
    destruct (get_hit s L1 n L2 now k value0 e HW Hk He) as (s' & Hrun & HR & Ht).
    assert (HP : n :: L1 ++ L2 ≡ₚ L1 ++ n :: L2) by apply Permutation_middle.
    exists (true, value e), s', (n :: L1 ++ L2).
    split; [exact Hrun|]. split; [eapply WF_touched; eassumption|].
    split; [exact HP|]. destruct Ht as (?&?&?&?&?). split; assumption.
  - exists (false, value0), s, L. split; [apply get_miss, Hk|].
    split; [exact HW|]. split; reflexivity || split; reflexivity.
Qed.

Lemma WF_inserted s L n k e s' L' :
  WF s L -> inserted s n k e s' -> Rep s' (n :: L') ->
  (forall l, l ∈ L' -> l ∈ L) ->
  current_size s' = Z.of_nat (S (length L')) ->
  current_size s' <= capacity s ->
  (forall k' l, cache_map s' !! k' = Some l ->
     (k' = k /\ l = n) \/ (l ∈ L' /\ cache_map s !! k' = Some l)) ->
  WF s' (n :: L').
Proof.
  intros HW (Hn & Hh & Ht & Hc & Hk & He & Ho) HR Hsub Hsz Hle Hm.
  assert (Hne : forall l, l ∈ L -> l <> n).
  { intros l Hl ->. assert (Ha : is_Some (heap s !! n)).
    { eapply Rep_allocated; [apply HW|]. apply list_elem_of_further, elem_of_app.
      left. exact Hl. }
    rewrite Hn in Ha. destruct Ha; discriminate. }
  split.
  - exact HR.
  - intros l Hl. apply elem_of_cons in Hl as [->|Hl]; [eauto|].
    destruct (Ho l (Hne l (Hsub l Hl))) as [_ ->].
    apply (WF_entries _ _ HW). apply Hsub, Hl.
  - intros k' l Hkl. destruct (Hm k' l Hkl) as [[-> ->]|[Hl Hkl']].
    + split; [apply list_elem_of_here|exact Hk].
    + split; [apply list_elem_of_further, Hl|].
      destruct (Ho l (Hne l (Hsub l Hl))) as [-> _].
      apply (WF_map _ _ HW _ _ Hkl').
  - simpl length. exact Hsz.
  - rewrite Hc. apply HW.
  - rewrite Hc. exact Hle.
Qed.

Lemma WF_put s L now k v :
  WF s L ->
  exists s' L', put now k v s = Some (tt, s') /\ WF s' L'
                /\ capacity s' = capacity s.
Proof.
  intros HW. destruct (cache_map s !! k) as [n|] eqn:Hk.
  - destruct (WF_map _ _ HW _ _ Hk) as [Hin _].
    destruct (WF_entries _ _ HW _ Hin) as [e He].
    apply list_elem_of_split in Hin as (L1 & L2 & ->).
    destruct (put_present s L1 n L2 now k v e HW Hk He) as (s' & Hrun & HR & Ht).
    exists s', (n :: L1 ++ L2). split; [exact Hrun|].
    split; [eapply WF_touched; try eassumption; apply Permutation_middle|].
    apply Ht.
  - destruct (put_absent s L now k v HW Hk) as (s' & n & L' & Hrun & HR & Hins & Hsz & Hcase).
    exists s', (n :: L'). split; [exact Hrun|].
    pose proof (WF_size _ _ HW) as Hs. pose proof (WF_bound _ _ HW) as Hb.
    split; [|apply Hins].
    eapply WF_inserted; try eassumption.
    + destruct Hcase as [(_ & -> & _)|(_ & t & kt & -> & _)]; intros l Hl;
        [exact Hl|apply elem_of_app; left; exact Hl].
    + destruct Hcase as [(Hlt & -> & _)|(_ & t & kt & -> & _)].
      * lia.
      * rewrite Hsz. rewrite length_app in Hs. simpl in Hs. lia.
    + intros k' l. destruct Hcase as [(_ & -> & ->)|(_ & t & kt & -> & Hkt & ->)];
        rewrite lookup_insert; case_decide as Hd.
      * intros [= <-]. left. split; congruence.
      * intros Hkl. right. split; [|exact Hkl]. apply (WF_map _ _ HW _ _ Hkl).
      * intros [= <-]. left. split; congruence.
      * rewrite lookup_delete. case_decide as Hd'; [discriminate|].
        intros Hkl. right. split; [|exact Hkl].
        destruct (WF_map _ _ HW _ _ Hkl) as [Hl Hkey].
        apply elem_of_app in Hl as [Hl|Hl]; [exact Hl|].
        apply list_elem_of_singleton in Hl. subst l. congruence.
Qed.

Lemma WF_remove s L k :
  WF s L ->
  exists r s' L', remove k s = Some (r, s') /\ WF s' L'
                  /\ capacity s' = capacity s.
Proof.
  intros HW. destruct (cache_map s !! k) as [n|] eqn:Hk.
  - destruct (WF_map _ _ HW _ _ Hk) as [Hin Hkey].
    apply list_elem_of_split in Hin as (L1 & L2 & ->).
    destruct (remove_hit s L1 n L2 k (WF_rep _ _ HW) Hk)
      as (s' & Hrun & HR & (Hh & Ht & Hc & Hks & Hes) & Hm & Hsz).
    pose proof (WF_size _ _ HW) as Hs. pose proof (WF_bound _ _ HW) as Hb.
    pose proof (WF_cap _ _ HW) as Hcap.
    rewrite length_app in Hs. simpl in Hs.
    rewrite wrap64_small in Hsz by lia.
    exists true, s', (L1 ++ L2). split; [exact Hrun|]. split; [|exact Hc].
    split.
    + exact HR.
    + intros l Hl. rewrite Hes. apply (WF_entries _ _ HW).
      apply elem_of_app in Hl as [Hl|Hl]; apply elem_of_app;
        [left; exact Hl|right; apply list_elem_of_further, Hl].
    + intros k' l. rewrite Hm, lookup_delete. case_decide as Hd; [discriminate|].
      intros Hkl. destruct (WF_map _ _ HW _ _ Hkl) as [Hl Hkey'].
      rewrite Hks. split; [|exact Hkey'].
      apply elem_of_app in Hl as [Hl|Hl]; [apply elem_of_app; left; exact Hl|].
      apply elem_of_cons in Hl as [->|Hl]; [congruence|].
      apply elem_of_app; right; exact Hl.
    + rewrite Hsz, Hs, length_app. lia.
    + rewrite Hc. exact Hcap.
    + rewrite Hsz, Hc. lia.
  - exists false, s, L. split; [apply remove_miss, Hk|]. split; [exact HW|reflexivity].
Qed.

Lemma WF_nil s s0 :
  Rep s [] -> cache_map s = ∅ -> current_size s = 0 ->
  capacity s = capacity s0 -> 0 < capacity s0 < 2 ^ 64 -> WF s [].
Proof.
  intros HR Hm Hs Hc Hcap. split.
  - exact HR.
  - intros l Hl. apply elem_of_nil in Hl. contradiction.
  - intros k l. rewrite Hm, lookup_empty. discriminate.
  - rewrite Hs. reflexivity.
  - rewrite Hc. exact Hcap.
  - rewrite Hs, Hc. lia.
Qed.

Lemma WF_clear s L :
  WF s L ->
  exists s', clear s = Some (tt, s') /\ WF s' [] /\ capacity s' = capacity s
             /\ same_nodes s s'.
Proof.
  intros HW.
  destruct (clear_spec s (Rep_Sentinels _ _ (WF_rep _ _ HW)))
    as (s' & Hrun & HR & Hsn & Hm & Hs).
  exists s'. split; [exact Hrun|]. split; [|split; [apply Hsn|exact Hsn]].
  eapply WF_nil; try eassumption; [apply Hsn|apply HW].
Qed.

(** ** The constructor *)

Lemma new_LRUCache_Rep cap s : new_LRUCache cap = Some s -> Rep s [] /\ capacity s = cap
  /\ cache_map s = ∅ /\ current_size s = 0.
Proof.
  unfold new_LRUCache. destruct (cap =? 0); [discriminate|]. intros [= <-].
  split; [|repeat split].
  unfold Rep. simpl. split; [|split].
  - apply NoDup_cons. split; [|apply NoDup_singleton].
    intros Hin. apply list_elem_of_singleton in Hin. discriminate.
  - split; [reflexivity|exact I].
  - split; [reflexivity|exact I].
Qed.

Lemma new_LRUCache_WF cap :
  0 < cap < 2 ^ 64 ->
  exists s, new_LRUCache cap = Some s /\ WF s [] /\ capacity s = cap.
Proof.
  intros Hcap. destruct (new_LRUCache cap) as [s|] eqn:E.
  - destruct (new_LRUCache_Rep cap s E) as (HR & Hc & Hm & Hs).
    exists s. split; [reflexivity|]. split; [|exact Hc].
    apply (WF_nil s s); [assumption|assumption|assumption|reflexivity|].
    rewrite Hc. exact Hcap.
  - unfold new_LRUCache in E. destruct (cap =? 0) eqn:E0; [lia|discriminate].
Qed.

(** ** Bytes and 32-bit fields *)

Lemma Z_of_byte_of_Z z : Z_of_byte (byte_of_Z z) = z mod 256.
Proof.
  unfold Z_of_byte, byte_of_Z.
  rewrite N_ascii_embedding.
  - rewrite Z2N.id; [reflexivity|]. apply Z.mod_pos_bound. lia.
  - assert (0 <= z mod 256 < 256) by (apply Z.mod_pos_bound; lia). lia.
Qed.

Lemma Z_of_byte_range a : 0 <= Z_of_byte a < 256.
Proof.
  unfold Z_of_byte. pose proof (N_ascii_bounded a). lia.
Qed.

Lemma un_le32_le32 z : 0 <= z < 2 ^ 32 -> un_le32 (le32 z) = z.
Proof.
  intros Hz. unfold un_le32, le32. simpl.
  rewrite !Z_of_byte_of_Z, !Z.shiftr_div_pow2 by lia.
  change (2 ^ 8) with 256. change (2 ^ 16) with 65536. change (2 ^ 24) with 16777216.
  change (2 ^ 32) with 4294967296 in Hz.
  pose proof (Z.div_mod z 256). pose proof (Z.mod_pos_bound z 256).
  pose proof (Z.div_mod z 65536). pose proof (Z.mod_pos_bound z 65536).
  pose proof (Z.div_mod z 16777216). pose proof (Z.mod_pos_bound z 16777216).
  pose proof (Z.div_mod (z / 256) 256). pose proof (Z.mod_pos_bound (z / 256) 256).
  pose proof (Z.div_mod (z / 65536) 256). pose proof (Z.mod_pos_bound (z / 65536) 256).
  pose proof (Z.div_mod (z / 16777216) 256).
  pose proof (Z.mod_pos_bound (z / 16777216) 256).
  assert (z / 256 / 256 = z / 65536) by (rewrite Z.div_div by lia; reflexivity).
  assert (z / 65536 / 256 = z / 16777216) by (rewrite Z.div_div by lia; reflexivity).
  assert (z / 16777216 / 256 = 0).
  { rewrite Z.div_div by lia. apply Z.div_small. lia. }
  lia.
Qed.

Lemma length_le32 z : length (le32 z) = 4%nat.
Proof. reflexivity. Qed.

Lemma un_le32_range bs : length bs = 4%nat -> 0 <= un_le32 bs < 2 ^ 32.
Proof.
  destruct bs as [|a [|b [|c [|d [|]]]]]; try discriminate. intros _.
  unfold un_le32. simpl.
  pose proof (Z_of_byte_range a). pose proof (Z_of_byte_range b).
  pose proof (Z_of_byte_range c). pose proof (Z_of_byte_range d).
  change (2 ^ 32) with 4294967296. lia.
Qed.

Lemma length_list_ascii_of_string str :
  length (list_ascii_of_string str) = String.length str.
Proof. induction str as [|a str IH]; simpl; [reflexivity|rewrite IH; reflexivity]. Qed.

(** ** Reading from a stream *)

Lemma stream_read_app n buf bs rest :
  length bs = n ->
  stream_read n buf (mkIfstream (bs ++ rest) false) = (bs, mkIfstream rest false).
Proof.
  intros Hn. unfold stream_read. simpl.
  rewrite decide_True by (rewrite length_app; lia).
  rewrite take_app_length' by (symmetry; exact Hn).
  rewrite drop_app_length' by (symmetry; exact Hn).
  reflexivity.
Qed.

Lemma stream_read_failed n buf f :
  failed f = true -> stream_read n buf f = (buf, f).
Proof. intros H. unfold stream_read. rewrite H. reflexivity. Qed.

Lemma length_stream_read n buf f :
  length buf = n -> length (fst (stream_read n buf f)) = n.
Proof.
  intros Hb. unfold stream_read. destruct (failed f); [exact Hb|].
  case_decide as Hd; simpl.
  - rewrite length_take. lia.
  - rewrite length_app, length_drop. lia.
Qed.

Lemma read_u32_bytes bs rest :
  length bs = 4%nat ->
  read_u32 (mkIfstream (bs ++ rest) false) = (Some (un_le32 bs), mkIfstream rest false).
Proof.
  intros Hn. unfold read_u32. cbn [failed pending].
  rewrite decide_True by (rewrite length_app; lia).
  rewrite take_app_length' by (symmetry; exact Hn).
  rewrite drop_app_length' by (symmetry; exact Hn).
  reflexivity.
Qed.

Lemma read_u32_app z rest :
  0 <= z < 2 ^ 32 ->
  read_u32 (mkIfstream (le32 z ++ rest) false) = (Some z, mkIfstream rest false).
Proof.
  intros Hz. rewrite read_u32_bytes by apply length_le32.
  rewrite un_le32_le32 by exact Hz. reflexivity.
Qed.

Lemma read_string_app str rest :
  read_string (string_size str) (mkIfstream (list_ascii_of_string str ++ rest) false)
  = (str, mkIfstream rest false).
Proof.
  unfold read_string, string_size. rewrite Nat2Z.id.
  rewrite stream_read_app by apply length_list_ascii_of_string.
  rewrite string_of_list_ascii_of_string. reflexivity.
Qed.

Lemma read_record_app kv rest :
  fits32 kv ->
  read_record (mkIfstream (encode_entry kv ++ rest) false)
  = (Some kv, mkIfstream rest false).
Proof.
  intros [Hk Hv]. destruct kv as [k v]. simpl in Hk, Hv.
  unfold read_record, encode_entry. simpl fst. simpl snd.
  rewrite <- !app_assoc.
  rewrite read_u32_app by (unfold string_size in *; lia).
  rewrite read_string_app.
  rewrite read_u32_app by (unfold string_size in *; lia).
  rewrite read_string_app. reflexivity.
Qed.

Lemma load_entries_S clock n i f :
  load_entries clock (S n) i f
  = match read_record f with
    | (Some (k, v), f') =>
        let* node := make_shared_Node k (Some (new_CacheEntry (clock i) v)) in
        insert_after_head (Some node) ;;;
        write_cache_map (<[k := node]>) ;;;
        write_current_size (fun z => wrap64 (z + 1)) ;;;
        load_entries clock n (S i) f'
    | (None, _) => undefined
    end.
Proof.
  simpl. unfold read_record.
  destruct (read_u32 f) as [[key_size|] f1]; [|reflexivity].
  destruct (read_string key_size f1) as [k f2].
  destruct (read_u32 f2) as [[value_size|] f3]; [|reflexivity].
  destruct (read_string value_size f3) as [v f4]. reflexivity.
Qed.

(** ** The loop of [load_snapshot] *)

(** One iteration after its reads: a node is allocated, linked after the head
    and entered in the index, whether or not the key is there already. *)
Lemma add_entry_run s L k e :
  Rep s L ->
  let n := fresh (dom (heap s)) in
  exists s1,
    (forall A (rest : M A),
        (let* node := make_shared_Node k (Some e) in
         insert_after_head (Some node) ;;;
         write_cache_map (<[k := node]>) ;;;
         write_current_size (fun z => wrap64 (z + 1)) ;;;
         rest) s = rest s1)
    /\ Rep s1 (n :: L) /\ inserted s n k e s1
    /\ cache_map s1 = <[k := n]> (cache_map s)
    /\ current_size s1 = wrap64 (current_size s + 1).
Proof.
  intros HR n.
  set (s0 := allocated_state k (Some e) s).
  assert (HR0 : Rep s0 L) by apply Rep_allocated_state, HR.
  assert (Hins0 : inserted s n k e s0) by apply inserted_allocated_state.
  assert (Hn : n ∉ head s :: L ++ [tail s]) by apply Rep_fresh, HR.
  assert (Hna : is_Some (heap s0 !! n)).
  { apply allocated_key_of. destruct Hins0 as (_&_&_&_&->&_). eauto. }
  destruct (insert_after_head_spec s0 L n HR0 Hn Hna) as (s4 & Hrun4 & HR4 & Hsp4).
  exists (set_current_size (wrap64 (current_size s4 + 1))
            (set_cache_map (<[k := n]> (cache_map s4)) s4)).
  split; [|split; [|split; [|split]]].
  - intros A rest. step ltac:(apply make_shared_Node_run). fold n s0.
    step ltac:(exact Hrun4). step ltac:(reflexivity). step ltac:(reflexivity).
    reflexivity.
  - apply Rep_set_current_size, Rep_set_cache_map, HR4.
  - eapply inserted_same_nodes; [exact Hins0|].
    eapply same_nodes_trans; [apply same_payload_nodes, Hsp4|].
    apply same_nodes_set_both.
  - simpl. destruct Hsp4 as (->&_). reflexivity.
  - simpl. destruct Hsp4 as (_&_&_&_&->&_). reflexivity.
Qed.

Lemma WF_add_entry s L n k e s1 :
  WF s L -> current_size s < capacity s ->
  Rep s1 (n :: L) -> inserted s n k e s1 ->
  cache_map s1 = <[k := n]> (cache_map s) ->
  current_size s1 = wrap64 (current_size s + 1) ->
  WF s1 (n :: L) /\ current_size s1 = current_size s + 1.
Proof.
  intros HW Hlt HR Hins Hm Hsz.
  pose proof (WF_size _ _ HW) as Hs. pose proof (WF_cap _ _ HW) as Hcap.
  rewrite wrap64_small in Hsz by lia. split; [|exact Hsz].
  eapply WF_inserted; try eassumption.
  - intros l Hl. exact Hl.
  - lia.
  - lia.
  - intros k' l. rewrite Hm, lookup_insert. case_decide as Hd.
    + intros [= <-]. left. split; congruence.
    + intros Hkl. right. split; [|exact Hkl]. apply (WF_map _ _ HW _ _ Hkl).
Qed.

Lemma Contents_frame s s' L kvs :
  (forall l, l ∈ L -> key_of s' l = key_of s l /\ entry_of s' l = entry_of s l) ->
  Contents s L kvs -> Contents s' L kvs.
Proof.
  intros Hsame HC. induction HC as [|l kv L kvs [Hk He] HC IH]; [constructor|].
  constructor.
  - destruct (Hsame l) as [-> ->]; [apply list_elem_of_here|]. split; assumption.
  - apply IH. intros l' Hl'. apply Hsame, list_elem_of_further, Hl'.
Qed.

Lemma grows_refl s L : grows s L s.
Proof. repeat split; auto. Qed.

Lemma grows_trans s1 s2 s3 L L' :
  (forall l, l ∈ L -> l ∈ L') ->
  grows s1 L s2 -> grows s2 L' s3 -> grows s1 L s3.
Proof.
  intros Hsub (Hh & Ht & Hc & Hp & Hm) (Hh' & Ht' & Hc' & Hp' & Hm').
  repeat split; try congruence.
  - destruct (Hp' l (Hsub l H)) as [-> _]. apply Hp, H.
  - destruct (Hp' l (Hsub l H)) as [_ ->]. apply Hp, H.
  - intros k Hk. apply Hm', Hm, Hk.
Qed.

Lemma grows_add_entry s L n k e s1 :
  Rep s L -> inserted s n k e s1 -> cache_map s1 = <[k := n]> (cache_map s) ->
  grows s L s1.
Proof.
  intros HR (Hn & Hh & Ht & Hc & _ & _ & Ho) Hm.
  repeat split; try assumption.
  - apply Ho. intros ->.
    assert (Ha : is_Some (heap s !! n)).
    { eapply Rep_allocated; [exact HR|]. apply list_elem_of_further, elem_of_app.
      left. assumption. }
    rewrite Hn in Ha. destruct Ha; discriminate.
  - apply Ho. intros ->.
    assert (Ha : is_Some (heap s !! n)).
    { eapply Rep_allocated; [exact HR|]. apply list_elem_of_further, elem_of_app.
      left. assumption. }
    rewrite Hn in Ha. destruct Ha; discriminate.
  - intros k' Hk'. rewrite Hm, lookup_insert. case_decide; [eauto|exact Hk'].
Qed.

(** Whatever the stream holds, [n] iterations within the capacity that read
    their sizes add [n] nodes at the head and keep the invariant. *)
Lemma load_entries_WF clock n :
  forall i f s L f' s',
    WF s L -> current_size s + Z.of_nat n <= capacity s ->
    load_entries clock n i f s = Some (f', s') ->
    exists J, WF s' (J ++ L) /\ length J = n /\ grows s L s'.
Proof.
  induction n as [|n IH]; intros i f s L f' s' HW Hle Hrun.
  - simpl in Hrun. injection Hrun as _ <-. exists [].
    split; [exact HW|]. split; [reflexivity|apply grows_refl].
  - rewrite load_entries_S in Hrun.
    destruct (read_record f) as [[[k v]|] f1]; [|discriminate].
    destruct (add_entry_run s L k (new_CacheEntry (clock i) v) (WF_rep _ _ HW))
      as (s1 & Hrun1 & HR1 & Hins & Hm & Hsz).
    rewrite Hrun1 in Hrun.
    destruct (WF_add_entry _ _ _ _ _ _ HW ltac:(lia) HR1 Hins Hm Hsz) as [HW1 Hsz1].
    destruct (IH (S i) f1 s1 _ f' s' HW1) as (J & HW' & HJ & Hg); [|exact Hrun|].
    { destruct Hins as (_&_&_&->&_). lia. }
    exists (J ++ [fresh (dom (heap s))]).
    split; [rewrite <- app_assoc; exact HW'|].
    split; [rewrite length_app, HJ; simpl; lia|].
    eapply grows_trans; [|eapply grows_add_entry; eassumption || apply HW|exact Hg].
    intros l Hl. apply list_elem_of_further, Hl.
Qed.

Lemma encode_entries_cons kv kvs :
  encode_entries (kv :: kvs) = encode_entry kv ++ encode_entries kvs.
Proof. reflexivity. Qed.

Lemma encode_entries_app kvs1 kvs2 :
  encode_entries (kvs1 ++ kvs2) = encode_entries kvs1 ++ encode_entries kvs2.
Proof. unfold encode_entries. rewrite fmap_app, concat_app. reflexivity. Qed.

(** On a stream that starts with complete records, the iterations read them
    and link their nodes, the first record deepest in the list. *)
Lemma load_entries_complete clock recs :
  forall i rest s L,
    WF s L -> Forall fits32 recs ->
    current_size s + Z.of_nat (length recs) <= capacity s ->
    exists s' J,
      load_entries clock (length recs) i
        (mkIfstream (encode_entries recs ++ rest) false) s
      = Some (mkIfstream rest false, s')
      /\ WF s' (J ++ L) /\ Contents s' J (reverse recs) /\ grows s L s'
      /\ (forall k, is_Some (cache_map s' !! k)
                    <-> is_Some (cache_map s !! k) \/ k ∈ recs.*1).
Proof.
  induction recs as [|kv recs IH]; intros i rest s L HW Hfit Hle.
  - exists s, []. split; [reflexivity|]. split; [exact HW|].
    split; [constructor|]. split; [apply grows_refl|].
    intros k. split; [auto|]. intros [H|H]; [exact H|].
    apply elem_of_nil in H. contradiction.
  - apply Forall_cons in Hfit as [Hkv Hfit]. simpl length in *.
    rewrite load_entries_S, encode_entries_cons, <- app_assoc.
    rewrite read_record_app by exact Hkv. destruct kv as [k v].
    destruct (add_entry_run s L k (new_CacheEntry (clock i) v) (WF_rep _ _ HW))
      as (s1 & Hrun & HR1 & Hins & Hm & Hsz).
    rewrite Hrun.
    destruct (WF_add_entry _ _ _ _ _ _ HW ltac:(lia) HR1 Hins Hm Hsz) as [HW1 Hsz1].
    destruct (IH (S i) rest s1 _ HW1 Hfit) as (s' & J & Hrun' & HW' & HC & Hg & Hdom).
    { destruct Hins as (_&_&_&->&_). lia. }
    set (n := fresh (dom (heap s))) in *.
    exists s', (J ++ [n]).
    split; [exact Hrun'|]. split; [rewrite <- app_assoc; exact HW'|].
    split; [|split].
    + rewrite reverse_cons. apply Forall2_app; [exact HC|].
      constructor; [|constructor].
      destruct Hg as (_&_&_&Hp&_). destruct (Hp n) as [-> ->];
        [apply list_elem_of_here|].
      destruct Hins as (_&_&_&_&Hk&He&_). split; [exact Hk|]. eauto.
    + eapply grows_trans; [|eapply grows_add_entry; eassumption || apply HW|exact Hg].
      intros l Hl. apply list_elem_of_further, Hl.
    + intros k'. rewrite Hdom, Hm, lookup_insert. rewrite fmap_cons, elem_of_cons.
      simpl. case_decide as Hd.
      * subst k'. split; [auto|]. intros _. left. eauto.
      * split; [intros [H|H]; auto|].
        intros [H|[H|H]]; [auto|congruence|auto].
Qed.

(** ** What [get] returns, in terms of the contents *)

Lemma Contents_lookup s L kvs l :
  Contents s L kvs -> l ∈ L ->
  exists kv e, kv ∈ kvs /\ key_of s l = Some kv.1
               /\ entry_of s l = Some (Some e) /\ value e = kv.2.
Proof.
  intros HC Hl. induction HC as [|l' kv L kvs [Hk (e & He & Hv)] HC IH].
  - apply elem_of_nil in Hl. contradiction.
  - apply elem_of_cons in Hl as [->|Hl].
    + exists kv, e. split; [apply list_elem_of_here|]. auto.
    + destruct (IH Hl) as (kv' & e' & Hin & H). exists kv', e'.
      split; [apply list_elem_of_further, Hin|exact H].
Qed.

Lemma get_Contents s L kvs now k value0 :
  WF s L -> Contents s L kvs ->
  exists r s', get now k value0 s = Some (r, s')
    /\ ((fst r = true /\ is_Some (cache_map s !! k) /\ (k, snd r) ∈ kvs)
        \/ (r = (false, value0) /\ cache_map s !! k = None)).
Proof.
  intros HW HC. destruct (cache_map s !! k) as [n|] eqn:Hk.
  - destruct (WF_map _ _ HW _ _ Hk) as [Hin Hkey].
    destruct (Contents_lookup _ _ _ _ HC Hin) as ([k' v] & e & Hkv & Hk' & He & Hv).
    simpl in Hk', Hv. assert (k' = k) by congruence. subst k'.
    apply list_elem_of_split in Hin as (L1 & L2 & ->).
    destruct (get_hit s L1 n L2 now k value0 e HW Hk He) as (s' & Hrun & _).
    exists (true, value e), s'. split; [exact Hrun|]. left.
    split; [reflexivity|]. split; [eauto|]. simpl. rewrite Hv. exact Hkv.
  - exists (false, value0), s. split; [apply get_miss, Hk|]. right. auto.
Qed.

(** ** [save_snapshot] *)

Lemma wrap32_small z : 0 <= z < 2 ^ 32 -> wrap32 z = z.
Proof. intros H. unfold wrap32. apply Z.mod_small. exact H. Qed.

Lemma string_size_nonneg str : 0 <= string_size str.
Proof. unfold string_size. lia. Qed.

Lemma take_string_size str :
  take (Z.to_nat (string_size str)) (list_ascii_of_string str) = list_ascii_of_string str.
Proof.
  apply take_ge. rewrite length_list_ascii_of_string. unfold string_size. lia.
Qed.

(** The loop writes the records of the nodes from [c] to the tail. *)
Lemma save_entries_run s X :
  forall c rest kvs file fuel,
    X ++ [tail s] = c :: rest -> fwd s c rest -> tail s ∉ X ->
    Contents s X kvs -> Forall fits32 kvs -> (length X < fuel)%nat ->
    save_entries fuel (Some c) file s = Some (file ++ encode_entries kvs, s).
Proof.
  induction X as [|x X IH]; intros c rest kvs file fuel HX Hf Ht HC Hfit Hfuel.
  - simpl in HX. injection HX as <- <-. apply Forall2_nil_inv_l in HC. subst kvs.
    destruct fuel; simpl; unfold bind, read; simpl;
      rewrite decide_False by (intros H; apply H; reflexivity);
      unfold encode_entries; simpl; rewrite app_nil_r; reflexivity.
  - simpl in HX. injection HX as <- <-.
    apply Forall2_cons_inv_l in HC as ([k v] & kvs' & [Hk (e & He & Hv)] & HC & ->).
    apply Forall_cons in Hfit as [[Hfk Hfv] Hfit]. simpl in Hk, Hv, Hfk, Hfv.
    destruct fuel as [|fuel]; [simpl in Hfuel; lia|].
    assert (Hxt : x <> tail s).
    { intros ->. apply Ht, list_elem_of_here. }
    destruct (X ++ [tail s]) as [|c' rest'] eqn:EX; [destruct X; discriminate|].
    destruct Hf as [Hx Hf].
    simpl save_entries.
    step ltac:(reflexivity).
    rewrite decide_True by congruence.
    step ltac:(apply get_key_run; exact Hk).
    step ltac:(apply get_entry_run; exact He).
    step ltac:(apply get_next_run; exact Hx).
    erewrite IH; [|reflexivity|exact Hf| |exact HC|exact Hfit|simpl in Hfuel; lia].
    + rewrite Hv. pose proof (string_size_nonneg k). pose proof (string_size_nonneg v).
      rewrite !wrap32_small by lia. rewrite !take_string_size.
      rewrite encode_entries_cons. unfold encode_entry. simpl.
      rewrite <- !app_assoc. reflexivity.
    + intros Hin. apply Ht, list_elem_of_further, Hin.
Qed.

Lemma save_snapshot_run s L kvs fuel :
  Rep s L -> Contents s L kvs -> Forall fits32 kvs ->
  0 <= current_size s < 2 ^ 32 -> (length L < fuel)%nat ->
  save_snapshot true fuel s
  = Some (Some (le32 1 ++ le32 (current_size s) ++ encode_entries kvs), s).
Proof.
  intros HR HC Hfit Hsz Hfuel. unfold save_snapshot.
  change (negb true) with false. cbv beta iota zeta.
  step ltac:(reflexivity). step ltac:(reflexivity).
  assert (Ht : tail s ∉ L).
  { intros Hin. apply (Rep_not_sentinel _ _ _ HR Hin). reflexivity. }
  destruct HR as (Hnd & Hf & _).
  destruct (L ++ [tail s]) as [|c rest] eqn:EL; [destruct L; discriminate|].
  destruct Hf as [Hh Hf].
  step ltac:(apply get_next_run; exact Hh).
  step ltac:(eapply (save_entries_run s L); eassumption).
  rewrite wrap32_small by exact Hsz. rewrite <- app_assoc. reflexivity.
Qed.

Lemma save_snapshot_unopened fuel s : save_snapshot false fuel s = Some (None, s).
Proof. reflexivity. Qed.

(** ** The strong invariant *)

Lemma Contents_length s L kvs : Contents s L kvs -> length L = length kvs.
Proof. apply Forall2_length. Qed.

Lemma Contents_exists s L : WF s L -> exists kvs, Contents s L kvs.
Proof.
  intros HW.
  assert (H : forall l, l ∈ L -> exists kv, key_of s l = Some kv.1
              /\ exists e, entry_of s l = Some (Some e) /\ value e = kv.2).
  { intros l Hl. destruct (WF_entries _ _ HW l Hl) as [e He].
    assert (Hk : is_Some (key_of s l)).
    { apply allocated_key_of, allocated_entry_of. rewrite He. eauto. }
    destruct Hk as [k Hk]. exists (k, value e). split; [exact Hk|]. eauto. }
  clear HW. induction L as [|l L IH].
  - exists []. constructor.
  - destruct (H l) as [kv Hkv]; [apply list_elem_of_here|].
    destruct IH as [kvs HC].
    { intros l' Hl'. apply H, list_elem_of_further, Hl'. }
    exists (kv :: kvs). constructor; assumption.
Qed.

Lemma Contents_lookup_r s L kvs kv :
  Contents s L kvs -> kv ∈ kvs -> exists l, l ∈ L /\ key_of s l = Some kv.1.
Proof.
  intros HC Hkv. induction HC as [|l kv' L kvs [Hk _] HC IH].
  - apply elem_of_nil in Hkv. contradiction.
  - apply elem_of_cons in Hkv as [->|Hkv].
    + exists l. split; [apply list_elem_of_here|exact Hk].
    + destruct (IH Hkv) as (l' & Hl' & Hk'). exists l'.
      split; [apply list_elem_of_further, Hl'|exact Hk'].
Qed.

(** Under the strong invariant the index holds exactly the keys of the list. *)
Lemma Inv_index s L kvs k :
  Inv s L -> Contents s L kvs -> is_Some (cache_map s !! k) <-> k ∈ kvs.*1.
Proof.
  intros [HW HI] HC. split.
  - intros [l Hl]. destruct (WF_map _ _ HW _ _ Hl) as [Hin Hkey].
    destruct (Contents_lookup _ _ _ _ HC Hin) as (kv & e & Hkv & Hk & _).
    apply list_elem_of_fmap. exists kv. split; [congruence|exact Hkv].
  - intros Hk. apply list_elem_of_fmap in Hk as (kv & -> & Hkv).
    destruct (Contents_lookup_r _ _ _ _ HC Hkv) as (l & Hl & Hkey).
    destruct (HI l Hl) as (k' & Hk' & Hm). exists l. congruence.
Qed.

Lemma Inv_NoDup_keys s L kvs : Inv s L -> Contents s L kvs -> NoDup kvs.*1.
Proof.
  intros [HW HI] HC. pose proof (Rep_NoDup _ _ (WF_rep _ _ HW)) as Hnd.
  assert (HI' : forall l, l ∈ L -> exists k, key_of s l = Some k /\ cache_map s !! k = Some l)
    by exact HI.
  clear HW HI. induction HC as [|l kv L kvs [Hk _] HC IH]; [constructor|].
  apply NoDup_cons in Hnd as [Hl Hnd]. rewrite fmap_cons. apply NoDup_cons. split.
  - intros Hin. apply list_elem_of_fmap in Hin as (kv' & Heq & Hkv').
    destruct (Contents_lookup_r _ _ _ _ HC Hkv') as (l' & Hl' & Hk').
    destruct (HI' l) as (k1 & Hk1 & Hm1); [apply list_elem_of_here|].
    destruct (HI' l') as (k2 & Hk2 & Hm2); [apply list_elem_of_further, Hl'|].
    assert (l = l') by congruence. subst l'. contradiction.
  - apply IH; [exact Hnd|]. intros l' Hl'. apply HI', list_elem_of_further, Hl'.
Qed.

(** The index and the list have the same size. *)
Lemma Inv_size s L : Inv s L -> base.size (cache_map s) = length L.
Proof.
  intros [HW HI]. pose proof (Rep_NoDup _ _ (WF_rep _ _ HW)) as Hnd.
  rewrite <- length_map_to_list.
  rewrite <- (length_fmap snd (map_to_list (cache_map s))).
  apply Permutation_length. apply NoDup_Permutation; [|exact Hnd|].
  - apply NoDup_fmap_2_strong; [|apply NoDup_map_to_list].
    intros [k1 l1] [k2 l2] H1 H2 Heq. simpl in Heq. subst l2.
    apply elem_of_map_to_list in H1, H2.
    destruct (WF_map _ _ HW _ _ H1) as [_ Hk1].
    destruct (WF_map _ _ HW _ _ H2) as [_ Hk2]. congruence.
  - intros l. rewrite list_elem_of_fmap. split.
    + intros ([k l'] & -> & Hin). apply elem_of_map_to_list in Hin.
      apply (WF_map _ _ HW _ _ Hin).
    + intros Hl. destruct (HI l Hl) as (k & _ & Hm). exists (k, l).
      split; [reflexivity|]. apply elem_of_map_to_list, Hm.
Qed.

Lemma new_LRUCache_Inv cap :
  0 < cap < 2 ^ 64 ->
  exists s, new_LRUCache cap = Some s /\ Inv s [] /\ capacity s = cap.
Proof.
  intros Hcap. destruct (new_LRUCache_WF cap Hcap) as (s & Hs & HW & Hc).
  exists s. split; [exact Hs|]. split; [|exact Hc]. split; [exact HW|].
  intros l Hl. apply elem_of_nil in Hl. contradiction.
Qed.

Lemma Inv_get s L now k value0 :
  Inv s L ->
  exists r s' L', get now k value0 s = Some (r, s') /\ Inv s' L'
                  /\ capacity s' = capacity s.
Proof.
  intros HI. pose proof (proj1 HI) as HW. destruct (cache_map s !! k) as [n|] eqn:Hk.
  - destruct (WF_map _ _ HW _ _ Hk) as [Hin _].
    destruct (WF_entries _ _ HW _ Hin) as [e He].
    apply list_elem_of_split in Hin as (L1 & L2 & ->).
    destruct (get_hit s L1 n L2 now k value0 e HW Hk He) as (s' & Hrun & HR & Ht).
    exists (true, value e), s', (n :: L1 ++ L2). split; [exact Hrun|].
    split; [|apply Ht].
    eapply Inv_touched; try eassumption. apply Permutation_middle.
  - exists (false, value0), s, L. split; [apply get_miss, Hk|]. split; [exact HI|reflexivity].
Qed.

Lemma Inv_put_present s L now k v n :
  Inv s L -> cache_map s !! k = Some n ->
  exists s' L', put now k v s = Some (tt, s') /\ Inv s' L'
                /\ capacity s' = capacity s /\ L' ≡ₚ L
                /\ cache_map s' = cache_map s.
Proof.
  intros HI Hk. pose proof (proj1 HI) as HW.
  destruct (WF_map _ _ HW _ _ Hk) as [Hin _].
  destruct (WF_entries _ _ HW _ Hin) as [e He].
  apply list_elem_of_split in Hin as (L1 & L2 & ->).
  destruct (put_present s L1 n L2 now k v e HW Hk He) as (s' & Hrun & HR & Ht).
  exists s', (n :: L1 ++ L2). split; [exact Hrun|].
  split; [eapply Inv_touched; try eassumption; apply Permutation_middle|].
  split; [apply Ht|]. split; [apply Permutation_middle|apply Ht].
Qed.

Lemma Inv_put_absent s L kvs now k v :
  Inv s L -> Contents s L kvs -> cache_map s !! k = None ->
  exists s' L',
    put now k v s = Some (tt, s') /\ Inv s' L'
    /\ Contents s' L' ((k, v) :: take (Z.to_nat (capacity s) - 1) kvs)
    /\ capacity s' = capacity s.
Proof.
  intros [HW HI] HC Hk.
  destruct (put_absent s L now k v HW Hk)
    as (s' & n & L' & Hrun & HR & Hins & Hsz & Hcase).
  pose proof (WF_size _ _ HW) as Hs. pose proof (WF_bound _ _ HW) as Hb.
  pose proof (Rep_NoDup _ _ (WF_rep _ _ HW)) as HndL.
  pose proof (Contents_length _ _ _ HC) as Hlen.
  assert (Hsub : forall l, l ∈ L' -> l ∈ L).
  { destruct Hcase as [(_ & -> & _)|(_ & t & kt & -> & _)]; intros l Hl;
      [exact Hl|apply elem_of_app; left; exact Hl]. }
  assert (Hne : forall l, l ∈ L -> l <> n).
  { intros l Hl ->. assert (Ha : is_Some (heap s !! n)).
    { eapply Rep_allocated; [apply HW|]. apply list_elem_of_further, elem_of_app.
      left. exact Hl. }
    destruct Hins as (Hn & _). rewrite Hn in Ha. destruct Ha; discriminate. }
  assert (Hmap : forall k' l, cache_map s' !! k' = Some l <->
            (k' = k /\ l = n)
            \/ (k' <> k /\ l ∈ L' /\ cache_map s !! k' = Some l)).
  { intros k' l.
    destruct Hcase as [(_ & -> & ->)|(_ & t & kt & -> & Hkt & ->)];
      rewrite lookup_insert; case_decide as Hd.
    - subst k'. split; [intros [= <-]; left; auto|].
      intros [[_ ->]|[Hc _]]; [reflexivity|congruence].
    - split.
      + intros Hkl. right. split; [congruence|]. split; [|exact Hkl].
        apply (WF_map _ _ HW _ _ Hkl).
      + intros [[Hc _]|(_ & _ & Hkl)]; [congruence|exact Hkl].
    - subst k'. split; [intros [= <-]; left; auto|].
      intros [[_ ->]|[Hc _]]; [reflexivity|congruence].
    - rewrite lookup_delete. case_decide as Hd'.
      + subst k'. split; [discriminate|]. intros [[Hc _]|(_ & Hl & Hkl)]; [congruence|].
        destruct (HI t) as (kt' & Hkt' & Hmt);
          [apply elem_of_app; right; apply list_elem_of_here|].
        assert (l = t) by congruence. subst l.
        apply NoDup_app in HndL as (_ & Hd1 & _). exfalso.
        apply (Hd1 t Hl), list_elem_of_here.
      + split.
        * intros Hkl. right. split; [congruence|]. split; [|exact Hkl].
          destruct (WF_map _ _ HW _ _ Hkl) as [Hl Hkey].
          apply elem_of_app in Hl as [Hl|Hl]; [exact Hl|].
          apply list_elem_of_singleton in Hl. subst l. congruence.
        * intros [[Hc _]|(_ & _ & Hkl)]; [congruence|exact Hkl]. }
  assert (HW' : WF s' (n :: L')).
  { eapply WF_inserted; try eassumption.
    - destruct Hcase as [(Hlt & -> & _)|(_ & t & kt & -> & _)].
      + lia.
      + rewrite Hsz. rewrite length_app in Hs. simpl in Hs. lia.
    - intros k' l Hkl. apply Hmap in Hkl as [H|(_ & H)]; [left; exact H|right; exact H]. }
  exists s', (n :: L'). split; [exact Hrun|]. split; [split; [exact HW'|]|split].
  - intros l Hl. apply elem_of_cons in Hl as [->|Hl].
    + exists k. split; [apply Hins|]. apply Hmap. left. auto.
    + destruct (HI l (Hsub l Hl)) as (kl & Hkl & Hml).
      exists kl. destruct Hins as (_&_&_&_&_&_&Ho).
      destruct (Ho l (Hne l (Hsub l Hl))) as [-> _]. split; [exact Hkl|].
      apply Hmap. right. split; [congruence|]. split; [exact Hl|exact Hml].
  - assert (HCL : Contents s' L kvs).
    { eapply Contents_frame; [|exact HC]. intros l Hl.
      destruct Hins as (_&_&_&_&_&_&Ho). apply Ho, Hne, Hl. }
    constructor.
    + destruct Hins as (_&_&_&_&Hkn&Hen&_). split; [exact Hkn|]. eauto.
    + destruct Hcase as [(Hlt & -> & _)|(Hfull & t & kt & -> & _)].
      * rewrite take_ge by lia. exact HCL.
      * apply Forall2_app_inv_l in HCL as (K' & Kt & HCL & _ & ->).
        pose proof (Forall2_length _ _ _ HCL) as Hlen'.
        rewrite length_app in Hs. simpl in Hs.
        rewrite take_app_length' by lia. exact HCL.
  - apply Hins.
Qed.

(** ** A sequence of puts *)

Lemma take_app_cons_take {A} c (X Y : list A) a :
  take c (X ++ a :: take (c - 1) Y) = take c (X ++ a :: Y).
Proof.
  rewrite !take_app. f_equal.
  destruct (c - length X)%nat as [|m] eqn:E; [reflexivity|].
  simpl. f_equal. rewrite take_take. f_equal. lia.
Qed.

Lemma put_all_fresh ops :
  forall s L kvs,
    Inv s L -> Contents s L kvs ->
    NoDup (ops.*2).*1 -> (forall k, k ∈ (ops.*2).*1 -> k ∉ kvs.*1) ->
    exists s' L',
      put_all ops s = Some (tt, s') /\ Inv s' L'
      /\ Contents s' L' (take (Z.to_nat (capacity s)) (reverse (ops.*2) ++ kvs))
      /\ capacity s' = capacity s.
Proof.
  induction ops as [|[now [k v]] ops IH]; intros s L kvs HI HC Hnd Hfresh.
  - exists s, L. split; [reflexivity|]. split; [exact HI|]. split; [|reflexivity].
    simpl. rewrite take_ge; [exact HC|].
    pose proof (Contents_length _ _ _ HC). pose proof (WF_size _ _ (proj1 HI)).
    pose proof (WF_bound _ _ (proj1 HI)). lia.
  - simpl in Hnd. apply NoDup_cons in Hnd as [Hk Hnd].
    assert (Habs : cache_map s !! k = None).
    { destruct (cache_map s !! k) eqn:E; [|reflexivity]. exfalso.
      apply (Hfresh k); [apply list_elem_of_here|].
      apply (Inv_index _ _ _ _ HI HC). rewrite E. eauto. }
    destruct (Inv_put_absent s L kvs now k v HI HC Habs)
      as (s1 & L1 & Hrun & HI1 & HC1 & Hc1).
    destruct (IH s1 L1 _ HI1 HC1 Hnd) as (s' & L' & Hrun' & HI' & HC' & Hc').
    { intros k' Hk' Hin. rewrite fmap_cons in Hin. apply elem_of_cons in Hin as [->|Hin].
      - contradiction.
      - apply (Hfresh k'); [apply list_elem_of_further, Hk'|].
        apply list_elem_of_fmap in Hin as (kv & -> & Hkv).
        apply list_elem_of_fmap. exists kv. split; [reflexivity|].
        apply elem_of_take in Hkv as (j & Hj & _).
        eapply list_elem_of_lookup_2, Hj. }
    exists s', L'. split; [|split; [exact HI'|split; [|congruence]]].
    + simpl. step ltac:(exact Hrun). exact Hrun'.
    + rewrite Hc1 in HC'. simpl. rewrite reverse_cons, <- app_assoc. simpl.
      rewrite take_app_cons_take in HC'. exact HC'.
Qed.

(** ** [load_snapshot] *)

Lemma load_snapshot_unopened clock s :
  load_snapshot clock None s = Some (false, s).
Proof. reflexivity. Qed.

(** [load_snapshot] on an opened file, after the engine is emptied: the
    header is read and, for version 1, the loop runs. *)
Lemma load_snapshot_opened clock bytes s :
  Sentinels s ->
  exists s1,
    clear s = Some (tt, s1) /\ Rep s1 [] /\ same_nodes s s1
    /\ cache_map s1 = ∅ /\ current_size s1 = 0
    /\ load_snapshot clock (Some bytes) s
       = let '(version, f) := read_u32 (mkIfstream bytes false) in
         let '(count, f) := read_u32 f in
         match version with
         | None => None
         | Some version =>
             if decide (version <> 1) then Some (false, s1)
             else match count with
                  | None => None
                  | Some count =>
                      match load_entries clock
                              (Z.to_nat (Z.min count (capacity s1))) 0 f s1 with
                      | Some (_, s') => Some (true, s')
                      | None => None
                      end
                  end
         end.
Proof.
  intros HS. destruct (clear_spec s HS) as (s1 & Hrun & HR & Hsn & Hm & Hsz).
  exists s1. split; [exact Hrun|]. split; [exact HR|]. split; [exact Hsn|].
  split; [exact Hm|]. split; [exact Hsz|].
  unfold load_snapshot. step ltac:(exact Hrun).
  destruct (read_u32 (mkIfstream bytes false)) as [[version|] f1];
    destruct (read_u32 f1) as [[count|] f2]; try reflexivity.
  - case_decide; [reflexivity|].
    unfold bind, read, ret.
    destruct (load_entries clock (Z.to_nat (Z.min count (capacity s1))) 0 f2 s1)
      as [[f' s']|]; reflexivity.
  - case_decide; reflexivity.
Qed.

(** [load_snapshot] keeps the invariant whenever it is defined, whatever the
    stream. *)
Lemma WF_load_snapshot clock file s L r s' :
  WF s L -> load_snapshot clock file s = Some (r, s') ->
  exists L', WF s' L' /\ capacity s' = capacity s.
Proof.
  intros HW Hrun. destruct file as [bytes|].
  2:{ injection Hrun as _ <-. exists L. split; [exact HW|reflexivity]. }
  destruct (load_snapshot_opened clock bytes s (Rep_Sentinels _ _ (WF_rep _ _ HW)))
    as (s1 & _ & HR1 & Hsn & Hm & Hsz & Heq).
  rewrite Heq in Hrun. clear Heq.
  assert (Hc1 : capacity s1 = capacity s) by apply Hsn.
  assert (HW1 : WF s1 []).
  { eapply WF_nil; try eassumption. apply HW. }
  destruct (read_u32 (mkIfstream bytes false)) as [[version|] f1];
    destruct (read_u32 f1) as [[count|] f2]; try discriminate.
  - case_decide.
    + injection Hrun as _ <-. exists []. auto.
    + pose proof (WF_cap _ _ HW) as Hcap.
      destruct (load_entries clock (Z.to_nat (Z.min count (capacity s1))) 0 f2 s1)
        as [[f' s2]|] eqn:Hload; [|discriminate].
      injection Hrun as _ <-.
      destruct (load_entries_WF clock (Z.to_nat (Z.min count (capacity s1))) 0%nat
                  f2 s1 [] f' s2 HW1 ltac:(lia) Hload)
        as (J & HW' & _ & Hg).
      exists (J ++ []). split; [exact HW'|].
      destruct Hg as (_ & _ & -> & _). exact Hc1.
  - case_decide; [|discriminate].
    injection Hrun as _ <-. exists []. auto.
Qed.

(** ** Checking the invariants of a given state *)

Lemma fwdb_sound s L : forall x, fwdb s x L = true -> fwd s x L.
Proof.
  induction L as [|y L IH]; intros x; simpl; [auto|].
  intros H. apply andb_true_iff in H as [H1 H2]. split.
  - apply bool_decide_eq_true in H1. exact H1.
  - apply IH, H2.
Qed.

Lemma bwdb_sound s L : forall x, bwdb s x L = true -> bwd s x L.
Proof.
  induction L as [|y L IH]; intros x; simpl; [auto|].
  intros H. apply andb_true_iff in H as [H1 H2]. split.
  - apply bool_decide_eq_true in H1. exact H1.
  - apply IH, H2.
Qed.

Lemma WF_check_sound s L : WF_check s L = true -> WF s L.
Proof.
  unfold WF_check. rewrite !andb_true_iff, !bool_decide_eq_true.
  intros [[[[[[[Hnd Hf] Hb] He] Hm] Hs] Hc] Hle]. split.
  - split; [exact Hnd|]. split; [apply fwdb_sound, Hf|apply bwdb_sound, Hb].
  - intros l Hl. rewrite forallb_forall in He.
    specialize (He l). rewrite <- list_elem_of_In in He. specialize (He Hl).
    unfold has_entry in He. destruct (entry_of s l) as [[e|]|]; try discriminate. eauto.
  - intros k l Hkl. rewrite forallb_forall in Hm.
    specialize (Hm (k, l)). rewrite <- list_elem_of_In in Hm.
    apply elem_of_map_to_list in Hkl. specialize (Hm Hkl).
    unfold indexed_in in Hm. apply andb_true_iff in Hm as [H1 H2].
    apply bool_decide_eq_true in H1, H2. auto.
  - exact Hs.
  - exact Hc.
  - exact Hle.
Qed.

Lemma Inv_check_sound s L : Inv_check s L = true -> Inv s L.
Proof.
  unfold Inv_check. rewrite andb_true_iff. intros [HW HI].
  split; [apply WF_check_sound, HW|].
  intros l Hl. rewrite forallb_forall in HI.
  specialize (HI l). rewrite <- list_elem_of_In in HI. specialize (HI Hl).
  unfold in_index in HI. destruct (key_of s l) as [k|]; [|discriminate].
  apply bool_decide_eq_true in HI. eauto.
Qed.

Lemma Contents_check_sound s L :
  forall kvs, Contents_check s L kvs = true -> Contents s L kvs.
Proof.
  induction L as [|l L IH]; intros [|kv kvs]; simpl; try discriminate.
  - intros _. constructor.
  - intros H. apply andb_true_iff in H as [H H3]. apply andb_true_iff in H as [H1 H2].
    apply bool_decide_eq_true in H1. constructor; [|apply IH, H3].
    split; [exact H1|]. destruct (entry_of s l) as [[e|]|]; try discriminate.
    apply bool_decide_eq_true in H2. eauto.
Qed.

Lemma fits32_check_sound kvs :
  forallb fits32_check kvs = true -> Forall fits32 kvs.
Proof.
  intros H. apply Forall_forall. intros kv Hkv.
  rewrite forallb_forall in H. specialize (H kv).
  rewrite <- list_elem_of_In in H. specialize (H Hkv).
  unfold fits32_check in H. apply andb_true_iff in H as [H1 H2].
  apply Z.ltb_lt in H1, H2. split; assumption.
Qed.

Lemma list_nodes_fwd s X :
  forall c rest fuel,
    X ++ [tail s] = c :: rest -> fwd s c rest -> tail s ∉ X ->
    (length X < fuel)%nat -> list_nodes fuel (Some c) s = Some X.
Proof.
  induction X as [|x X IH]; intros c rest fuel HX Hf Ht Hfuel.
  - simpl in HX. injection HX as <- <-. destruct fuel; [simpl in Hfuel; lia|].
    simpl. rewrite decide_True by reflexivity. reflexivity.
  - simpl in HX. injection HX as <- <-. destruct fuel; [simpl in Hfuel; lia|].
    simpl. rewrite decide_False.
    2:{ intros ->. apply Ht, list_elem_of_here. }
    destruct (X ++ [tail s]) as [|c' rest'] eqn:EX; [destruct X; discriminate|].
    destruct Hf as [-> Hf].
    erewrite IH; [reflexivity|reflexivity|exact Hf| |simpl in Hfuel; lia].
    intros Hin. apply Ht, list_elem_of_further, Hin.
Qed.

Lemma list_length_Rep s L fuel :
  Rep s L -> (length L < fuel)%nat -> list_length fuel s = Some (length L).
Proof.
  intros HR Hfuel.
  assert (Ht : tail s ∉ L).
  { intros Hin. apply (Rep_not_sentinel _ _ _ HR Hin). reflexivity. }
  destruct HR as (_ & Hf & _). unfold list_length.
  destruct (L ++ [tail s]) as [|c rest] eqn:EL; [destruct L; discriminate|].
  destruct Hf as [-> Hf].
  erewrite list_nodes_fwd; [reflexivity|exact EL|exact Hf|exact Ht|exact Hfuel].
Qed.

Lemma Inv_remove s L k :
  Inv s L ->
  exists r s' L', remove k s = Some (r, s') /\ Inv s' L'
                  /\ capacity s' = capacity s.
Proof.
  intros HI. pose proof (proj1 HI) as HW. destruct HI as [_ HI].
  destruct (cache_map s !! k) as [n|] eqn:Hk.
  - destruct (WF_map _ _ HW _ _ Hk) as [Hin Hkey].
    apply list_elem_of_split in Hin as (L1 & L2 & ->).
    destruct (remove_hit s L1 n L2 k (WF_rep _ _ HW) Hk)
      as (s' & Hrun & HR & (Hh & Ht & Hc & Hks & Hes) & Hm & Hsz).
    pose proof (WF_size _ _ HW) as Hs. pose proof (WF_bound _ _ HW) as Hb.
    pose proof (WF_cap _ _ HW) as Hcap.
    pose proof (Rep_NoDup _ _ (WF_rep _ _ HW)) as Hnd.
    rewrite length_app in Hs. simpl in Hs.
    rewrite wrap64_small in Hsz by lia.
    assert (Hsub : forall l, l ∈ L1 ++ L2 -> l ∈ L1 ++ n :: L2 /\ l <> n).
    { apply NoDup_app in Hnd as (_ & Hd & Hnd2). apply NoDup_cons in Hnd2 as [Hn2 _].
      intros l Hl. apply elem_of_app in Hl as [Hl|Hl].
      - split; [apply elem_of_app; left; exact Hl|].
        intros ->. apply (Hd n Hl), list_elem_of_here.
      - split; [apply elem_of_app; right; apply list_elem_of_further, Hl|].
        intros ->. contradiction. }
    exists true, s', (L1 ++ L2). split; [exact Hrun|]. split; [|exact Hc].
    split; [split|].
    + exact HR.
    + intros l Hl. rewrite Hes. apply (WF_entries _ _ HW), Hsub, Hl.
    + intros k' l. rewrite Hm, lookup_delete. case_decide as Hd; [discriminate|].
      intros Hkl. destruct (WF_map _ _ HW _ _ Hkl) as [Hl Hkey'].
      rewrite Hks. split; [|exact Hkey'].
      apply elem_of_app in Hl as [Hl|Hl]; [apply elem_of_app; left; exact Hl|].
      apply elem_of_cons in Hl as [->|Hl]; [congruence|].
      apply elem_of_app; right; exact Hl.
    + rewrite Hsz, Hs, length_app. lia.
    + rewrite Hc. exact Hcap.
    + rewrite Hsz, Hc. lia.
    + intros l Hl. destruct (Hsub l Hl) as [Hl' Hne].
      destruct (HI l Hl') as (kl & Hkl & Hml).
      exists kl. rewrite Hks. split; [exact Hkl|].
      rewrite Hm, lookup_delete. case_decide as Hd; [|exact Hml].
      subst kl. congruence.
  - exists false, s, L. split; [apply remove_miss, Hk|].
    split; [split; assumption|reflexivity].
Qed.

Lemma Inv_clear s L :
  Inv s L ->
  exists s', clear s = Some (tt, s') /\ Inv s' [] /\ capacity s' = capacity s.
Proof.
  intros [HW _]. destruct (WF_clear s L HW) as (s' & Hrun & HW' & Hc & _).
  exists s'. split; [exact Hrun|]. split; [|exact Hc]. split; [exact HW'|].
  intros l Hl. apply elem_of_nil in Hl. contradiction.
Qed.

Lemma Inv_put s L now k v :
  Inv s L ->
  exists s' L', put now k v s = Some (tt, s') /\ Inv s' L'
                /\ capacity s' = capacity s.
Proof.
  intros HI. destruct (cache_map s !! k) as [n|] eqn:Hk.
  - destruct (Inv_put_present s L now k v n HI Hk) as (s' & L' & Hrun & HI' & Hc & _).
    eauto.
  - destruct (Contents_exists s L (proj1 HI)) as [kvs HC].
    destruct (Inv_put_absent s L kvs now k v HI HC Hk) as (s' & L' & Hrun & HI' & _ & Hc).
    eauto.
Qed.

(** ** Operations and reachable states *)

(** Every call of [get], [put], [remove] and [clear] returns. *)
Lemma apply_operation_returns o s L :
  is_load o = false -> WF s L -> exists s', apply_operation o s = Some s'.
Proof.
  intros Ho HW. destruct o as [now k v0|now k v| k | |clock file]; simpl;
    [| | | |discriminate].
  - destruct (WF_get s L now k v0 HW) as (r & s' & L' & -> & _). eauto.
  - destruct (WF_put s L now k v HW) as (s' & L' & -> & _). eauto.
  - destruct (WF_remove s L k HW) as (r & s' & L' & -> & _). eauto.
  - destruct (WF_clear s L HW) as (s' & -> & _). eauto.
Qed.

(** Every call that is defined keeps the invariant. *)
Lemma WF_apply_operation o s L s' :
  WF s L -> apply_operation o s = Some s' ->
  exists L', WF s' L' /\ capacity s' = capacity s.
Proof.
  intros HW. destruct o as [now k v0|now k v| k | |clock file]; simpl.
  - destruct (WF_get s L now k v0 HW) as (r & s1 & L' & -> & HW' & _ & Hc & _).
    intros [= <-]. eauto.
  - destruct (WF_put s L now k v HW) as (s1 & L' & -> & HW' & Hc).
    intros [= <-]. eauto.
  - destruct (WF_remove s L k HW) as (r & s1 & L' & -> & HW' & Hc).
    intros [= <-]. eauto.
  - destruct (WF_clear s L HW) as (s1 & -> & HW' & Hc & _).
    intros [= <-]. eauto.
  - destruct (load_snapshot clock file s) as [[r s1]|] eqn:Hrun; [|discriminate].
    intros [= <-]. exact (WF_load_snapshot clock file s L r s1 HW Hrun).
Qed.

Lemma WF_apply_operations os :
  forall s L s', WF s L -> apply_operations os s = Some s' ->
    exists L', WF s' L' /\ capacity s' = capacity s.
Proof.
  induction os as [|o os IH]; intros s L s' HW Hrun; simpl in Hrun.
  - injection Hrun as <-. eauto.
  - destruct (apply_operation o s) as [s1|] eqn:Ho; [|discriminate].
    destruct (WF_apply_operation o s L s1 HW Ho) as (L1 & HW1 & Hc1).
    destruct (IH s1 L1 s' HW1 Hrun) as (L' & HW' & Hc'). exists L'.
    split; [exact HW'|congruence].
Qed.

(** Without [load_snapshot], the calls keep the strong invariant. *)
Lemma Inv_apply_operation o s L :
  is_load o = false -> Inv s L ->
  exists s' L', apply_operation o s = Some s' /\ Inv s' L'
                /\ capacity s' = capacity s.
Proof.
  intros Ho HI. destruct o as [now k v0|now k v| k | |clock file]; simpl;
    [| | | |discriminate].
  - destruct (Inv_get s L now k v0 HI) as (r & s' & L' & -> & HI' & Hc). eauto.
  - destruct (Inv_put s L now k v HI) as (s' & L' & -> & HI' & Hc). eauto.
  - destruct (Inv_remove s L k HI) as (r & s' & L' & -> & HI' & Hc). eauto.
  - destruct (Inv_clear s L HI) as (s' & -> & HI' & Hc). eauto.
Qed.

Lemma Inv_apply_operations os :
  forall s L, forallb (fun o => negb (is_load o)) os = true -> Inv s L ->
    exists s' L', apply_operations os s = Some s' /\ Inv s' L'
                  /\ capacity s' = capacity s.
Proof.
  induction os as [|o os IH]; intros s L Hos HI; simpl.
  - eauto.
  - simpl in Hos. apply andb_true_iff in Hos as [Ho Hos].
    apply negb_true_iff in Ho.
    destruct (Inv_apply_operation o s L Ho HI) as (s1 & L1 & -> & HI1 & Hc1).
    destruct (IH s1 L1 Hos HI1) as (s' & L' & Hrun & HI' & Hc'). exists s', L'.
    split; [exact Hrun|]. split; [exact HI'|congruence].
Qed.

Lemma reachable_WF s : reachable s -> exists L, WF s L.
Proof.
  intros (C & os & s0 & HC & Hnew & Hrun).
  destruct (new_LRUCache_WF C HC) as (s0' & Hnew' & HW0 & _).
  assert (s0' = s0) by congruence. subst s0'.
  destruct (WF_apply_operations os s0 [] s HW0 Hrun) as (L & HW & _). eauto.
Qed.

(** * The properties of the specification *)

(** ** Frame of a missed [get] *)

(** C10: for a key that is not in the index, [get] returns [false] and the
    whole state (list, index, size, every entry) and the caller's value are
    unchanged. *)
Theorem get_absent_unchanged (s : LRUCache) (now : time_point) (k value0 : string) :
  cache_map s !! k = None ->
  get now k value0 s = Some ((false, value0), s).
Proof. apply get_miss. Qed.

Lemma get_absent_unchanged_witness :
  cache_map engine_ab !! "missing" = None
  /\ get 3 "missing" "" engine_ab = Some ((false, ""), engine_ab).
Proof.
  split; [vm_compute; reflexivity|].
  apply (get_absent_unchanged engine_ab 3 "missing" ""). vm_compute. reflexivity.
Defined.

(** ** Overwriting a key *)

(** C5: for a key of the index, after [put(k,v1); put(k,v2)] the call
    [get(k)] returns [(true, v2)].  Each of the two calls of [put] overwrites
    the value of the node [n] of [k] and links [n] right after the head: the
    list [L1 ++ n :: L2] becomes [n :: L1 ++ L2] and stays so; no node leaves
    the list, the index and [current_size] are unchanged, whether or not the
    cache is full. *)
Theorem put_put_get (s : LRUCache) (now1 now2 now3 : time_point)
    (k v1 v2 value0 : string) :
  reachable s -> is_Some (cache_map s !! k) ->
  exists s1 s2 s3 n L1 L2,
    put now1 k v1 s = Some (tt, s1)
    /\ put now2 k v2 s1 = Some (tt, s2)
    /\ get now3 k value0 s2 = Some ((true, v2), s3)
    /\ cache_map s !! k = Some n /\ Rep s (L1 ++ n :: L2)
    /\ Rep s1 (n :: L1 ++ L2) /\ Rep s2 (n :: L1 ++ L2)
    /\ (exists e, entry_of s2 n = Some (Some e) /\ value e = v2)
    /\ cache_map s1 = cache_map s /\ cache_map s2 = cache_map s
    /\ current_size s1 = current_size s /\ current_size s2 = current_size s.
Proof.
  intros Hreach [n Hk]. destruct (reachable_WF s Hreach) as [L HW].
  destruct (WF_map _ _ HW _ _ Hk) as [Hin _].
  destruct (WF_entries _ _ HW _ Hin) as [e He].
  apply list_elem_of_split in Hin as (L1 & L2 & ->).
  destruct (put_present s L1 n L2 now1 k v1 e HW Hk He) as (s1 & Hrun1 & HR1 & Ht1).
  assert (HW1 : WF s1 ([] ++ n :: L1 ++ L2)).
  { eapply WF_touched; try eassumption. apply Permutation_middle. }
  assert (Hk1 : cache_map s1 !! k = Some n) by (destruct Ht1 as (-> & _); exact Hk).
  pose proof (touched_entry _ _ _ _ Ht1) as He1.
  destruct (put_present s1 [] n (L1 ++ L2) now2 k v2 _ HW1 Hk1 He1)
    as (s2 & Hrun2 & HR2 & Ht2).
  assert (HW2 : WF s2 ([] ++ n :: L1 ++ L2)).
  { eapply WF_touched; try eassumption. reflexivity. }
  assert (Hk2 : cache_map s2 !! k = Some n) by (destruct Ht2 as (-> & _); exact Hk1).
  pose proof (touched_entry _ _ _ _ Ht2) as He2.
  destruct (get_hit s2 [] n (L1 ++ L2) now3 k value0 _ HW2 Hk2 He2)
    as (s3 & Hrun3 & _).
  exists s1, s2, s3, n, L1, L2.
  split; [exact Hrun1|]. split; [exact Hrun2|]. split; [exact Hrun3|].
  split; [exact Hk|]. split; [apply HW|]. split; [exact HR1|]. split; [exact HR2|].
  split; [eexists; split; [exact He2|reflexivity]|].
  destruct Ht1 as (Hm1 & _ & _ & _ & Hs1 & _). destruct Ht2 as (Hm2 & _ & _ & _ & Hs2 & _).
  repeat split; congruence.
Qed.

Lemma put_put_get_witness :
  exists s1 s2 s3 n L1 L2,
    put 3 "a" "x" engine_ab = Some (tt, s1)
    /\ put 4 "a" "y" s1 = Some (tt, s2)
    /\ get 5 "a" "" s2 = Some ((true, "y"), s3)
    /\ cache_map engine_ab !! "a" = Some n /\ Rep engine_ab (L1 ++ n :: L2)
    /\ Rep s1 (n :: L1 ++ L2) /\ Rep s2 (n :: L1 ++ L2)
    /\ (exists e, entry_of s2 n = Some (Some e) /\ value e = "y")
    /\ cache_map s1 = cache_map engine_ab /\ cache_map s2 = cache_map engine_ab
    /\ current_size s1 = current_size engine_ab
    /\ current_size s2 = current_size engine_ab.
Proof.
  apply (put_put_get engine_ab 3 4 5 "a" "x" "y" "").
  - exists 2, [CallPut 1 "a" "1"; CallPut 2 "b" "2"], (engine 2).
    split; [lia|]. split; vm_compute; reflexivity.
  - exists 3%positive. vm_compute. reflexivity.
Defined.

(** ** Eviction order *)

Lemma elem_of_take_reverse {A} (ks : list A) (c i : nat) (k : A) :
  NoDup ks -> ks !! i = Some k ->
  k ∈ take c (reverse ks) <-> (length ks <= i + c)%nat.
Proof.
  intros Hnd Hi. pose proof (lookup_lt_Some _ _ _ Hi) as Hlt.
  rewrite elem_of_take. split.
  - intros (j & Hj & Hjc).
    assert (Hjl : (j < length ks)%nat).
    { apply lookup_lt_Some in Hj. rewrite length_reverse in Hj. exact Hj. }
    rewrite reverse_lookup in Hj by exact Hjl.
    pose proof (NoDup_lookup _ _ _ _ Hnd Hj Hi). lia.
  - intros Hle. exists (length ks - S i)%nat. split; [|lia].
    rewrite reverse_lookup by lia.
    replace (length ks - S (length ks - S i))%nat with i by lia. exact Hi.
Qed.

(** C2: on a fresh engine of capacity [C], after puts of more than [C]
    pairwise distinct keys [k1 ... kn] and nothing else, [get(ki)] returns
    [false] exactly for [i <= n - C] (the index [i] of the statement counts
    from 0, so the position of the claim is [i + 1]). *)
Theorem lru_eviction_order (C : Z) (ops : list (time_point * (string * string))) :
  0 < C < 2 ^ 64 -> NoDup (ops.*2).*1 -> C < Z.of_nat (length ops) ->
  exists s0 s,
    new_LRUCache C = Some s0 /\ put_all ops s0 = Some (tt, s)
    /\ forall (i : nat) (k : string) (now : time_point) (value0 : string),
         (ops.*2).*1 !! i = Some k ->
         exists r s', get now k value0 s = Some (r, s')
                      /\ (fst r = false <-> Z.of_nat (i + 1) <= Z.of_nat (length ops) - C).
Proof.
  intros HC Hnd Hn.
  destruct (new_LRUCache_Inv C HC) as (s0 & Hnew & HI0 & Hc0).
  assert (HC0 : Contents s0 [] []) by constructor.
  destruct (put_all_fresh ops s0 [] [] HI0 HC0 Hnd) as (s & L & Hrun & HI & HCs & Hc).
  { intros k _ Hin. apply elem_of_nil in Hin. contradiction. }
  rewrite app_nil_r, Hc0 in HCs.
  exists s0, s. split; [exact Hnew|]. split; [exact Hrun|].
  intros i k now value0 Hi.
  assert (Hlen : length (ops.*2).*1 = length ops) by (rewrite !length_fmap; reflexivity).
  assert (Hidx : is_Some (cache_map s !! k) <-> (length ops <= i + Z.to_nat C)%nat).
  { rewrite (Inv_index _ _ _ k HI HCs), fmap_take, fmap_reverse.
    rewrite (elem_of_take_reverse _ _ i k Hnd Hi), Hlen. reflexivity. }
  destruct (get_Contents s L _ now k value0 (proj1 HI) HCs)
    as (r & s' & Hget & [(Hr & Hsome & _)|(-> & Hnone)]).
  - exists r, s'. split; [exact Hget|]. rewrite Hr. apply Hidx in Hsome.
    split; [discriminate|]. lia.
  - exists (false, value0), s'. split; [exact Hget|]. simpl.
    split; [|reflexivity]. intros _.
    assert (Hn' : ~ (length ops <= i + Z.to_nat C)%nat).
    { intros Hle. apply Hidx in Hle. rewrite Hnone in Hle. destruct Hle; discriminate. }
    lia.
Qed.

Lemma lru_eviction_order_witness :
  exists s0 s,
    new_LRUCache 3 = Some s0
    /\ put_all [(1, ("a", "1")); (2, ("b", "2")); (3, ("c", "3")); (4, ("d", "4"))] s0
       = Some (tt, s)
    /\ forall (i : nat) (k : string) (now : time_point) (value0 : string),
         ["a"; "b"; "c"; "d"] !! i = Some k ->
         exists r s', get now k value0 s = Some (r, s')
                      /\ (fst r = false <-> Z.of_nat (i + 1) <= 4 - 3).
Proof.
  apply (lru_eviction_order 3
           [(1, ("a", "1")); (2, ("b", "2")); (3, ("c", "3")); (4, ("d", "4"))]).
  - lia.
  - apply (bool_decide_unpack _). vm_compute. exact I.
  - simpl. lia.
Defined.

(** ** Loading a snapshot *)

(** C6: if the version field of the stream (its first four bytes) is not 1,
    [load_snapshot] returns [false] and leaves the engine empty: the list
    and the index are empty and [current_size] is 0, whatever the engine held
    before, since it is emptied before the version is looked at. *)
Theorem load_snapshot_bad_version (clock : nat -> time_point)
    (s : LRUCache) (vb rest : list ascii) :
  reachable s -> length vb = 4%nat -> un_le32 vb <> 1 ->
  exists s',
    load_snapshot clock (Some (vb ++ rest)) s = Some (false, s')
    /\ WF s' [] /\ cache_map s' = ∅ /\ current_size s' = 0
    /\ capacity s' = capacity s.
Proof.
  intros Hreach Hlen Hv. destruct (reachable_WF s Hreach) as [L HW].
  destruct (load_snapshot_opened clock (vb ++ rest) s
              (Rep_Sentinels _ _ (WF_rep _ _ HW)))
    as (s1 & _ & HR1 & Hsn & Hm & Hsz & ->).
  rewrite read_u32_bytes by exact Hlen.
  destruct (read_u32 (mkIfstream rest false)) as [count f2].
  rewrite decide_True by exact Hv.
  exists s1. split; [reflexivity|].
  assert (Hc : capacity s1 = capacity s) by apply Hsn.
  split; [|auto]. eapply WF_nil; try eassumption. apply HW.
Qed.

Lemma load_snapshot_bad_version_witness :
  exists s',
    load_snapshot (fun _ => 0) (Some (le32 2 ++ le32 1)) engine_ab
    = Some (false, s')
    /\ WF s' [] /\ cache_map s' = ∅ /\ current_size s' = 0
    /\ capacity s' = capacity engine_ab.
Proof.
  apply (load_snapshot_bad_version (fun _ => 0) engine_ab (le32 2) (le32 1)).
  - exists 2, [CallPut 1 "a" "1"; CallPut 2 "b" "2"], (engine 2).
    split; [lia|]. split; vm_compute; reflexivity.
  - reflexivity.
  - vm_compute. discriminate.
Defined.

(** C7: for a stream of version 1 that holds [count] records, [count] above
    the capacity [C], [load_snapshot] returns [true]; the list holds the
    first [C] records and no other, the first one at the tail, and the index
    holds exactly their keys. *)
Theorem load_snapshot_over_capacity (clock : nat -> time_point)
    (s : LRUCache) (count : Z) (recs : list (string * string)) :
  reachable s -> count < 2 ^ 32 -> capacity s < count ->
  Z.of_nat (length recs) = count -> Forall fits32 recs ->
  let C := Z.to_nat (capacity s) in
  exists s' J,
    load_snapshot clock (Some (le32 1 ++ le32 count ++ encode_entries recs)) s
    = Some (true, s')
    /\ WF s' J /\ Contents s' J (reverse (take C recs))
    /\ current_size s' = capacity s
    /\ (forall k, is_Some (cache_map s' !! k) <-> k ∈ (take C recs).*1).
Proof.
  intros Hreach Hcount Hover Hlen Hfit C. destruct (reachable_WF s Hreach) as [L HW].
  pose proof (WF_cap _ _ HW) as Hcap.
  destruct (load_snapshot_opened clock (le32 1 ++ le32 count ++ encode_entries recs) s
              (Rep_Sentinels _ _ (WF_rep _ _ HW)))
    as (s1 & _ & HR1 & Hsn & Hm & Hsz & ->).
  assert (Hc : capacity s1 = capacity s) by apply Hsn.
  assert (HW1 : WF s1 []).
  { eapply WF_nil; try eassumption. }
  rewrite read_u32_app by lia. rewrite read_u32_app by lia.
  rewrite decide_False by (intros H; apply H; reflexivity).
  rewrite Hc. replace (Z.to_nat (Z.min count (capacity s))) with C by (unfold C; lia).
  replace (encode_entries recs)
    with (encode_entries (take C recs) ++ encode_entries (drop C recs))
    by (rewrite <- encode_entries_app, take_drop; reflexivity).
  assert (HlenC : length (take C recs) = C) by (rewrite length_take; unfold C; lia).
  destruct (load_entries_complete clock (take C recs) 0%nat
              (encode_entries (drop C recs)) s1 [] HW1)
    as (s' & J & Hrun & HW' & HC' & Hg & Hdom).
  { apply Forall_take, Hfit. }
  { rewrite HlenC. unfold C. lia. }
  rewrite HlenC in Hrun. rewrite Hrun.
  rewrite app_nil_r in HW'.
  exists s', J. split; [reflexivity|]. split; [exact HW'|]. split; [exact HC'|].
  split.
  - rewrite (WF_size _ _ HW'). rewrite (Contents_length _ _ _ HC'), length_reverse, HlenC.
    unfold C. lia.
  - intros k. rewrite Hdom, Hm, lookup_empty. split; [|auto].
    intros [H|H]; [destruct H; discriminate|exact H].
Qed.

Lemma load_snapshot_over_capacity_witness :
  exists s' J,
    load_snapshot (fun _ => 0)
      (Some (le32 1 ++ le32 3
             ++ encode_entries [("x", "1"); ("y", "2"); ("z", "3")])) engine_ab
    = Some (true, s')
    /\ WF s' J /\ Contents s' J [("y", "2"); ("x", "1")]
    /\ current_size s' = 2
    /\ (forall k, is_Some (cache_map s' !! k) <-> k ∈ ["x"; "y"]).
Proof.
  apply (load_snapshot_over_capacity (fun _ => 0) engine_ab 3
           [("x", "1"); ("y", "2"); ("z", "3")]).
  - exists 2, [CallPut 1 "a" "1"; CallPut 2 "b" "2"], (engine 2).
    split; [lia|]. split; vm_compute; reflexivity.
  - lia.
  - vm_compute. reflexivity.
  - reflexivity.
  - apply fits32_check_sound. vm_compute. reflexivity.
Defined.

Lemma load_entries_add clock m r :
  forall i f s,
    load_entries clock (m + r) i f s
    = match load_entries clock m i f s with
      | Some (f', s') => load_entries clock r (i + m) f' s'
      | None => None
      end.
Proof.
  induction m as [|m IH]; intros i f s.
  - simpl. rewrite Nat.add_0_r. reflexivity.
  - change (S m + r)%nat with (S (m + r)). rewrite !load_entries_S.
    destruct (read_record f) as [[[k v]|] f1]; [|reflexivity].
    unfold bind at 1 5.
    destruct (make_shared_Node k (Some (new_CacheEntry (clock i) v)) s) as [[n s1]|];
      [|reflexivity].
    unfold bind at 1 4. destruct (insert_after_head (Some n) s1) as [[[] s2]|];
      [|reflexivity].
    unfold bind, write_cache_map, write_current_size. rewrite IH.
    replace (i + S m)%nat with (S i + m)%nat by lia. reflexivity.
Qed.

(** The reads of a record whose value is cut short: the two sizes and the key
    are read, and the buffer of the value keeps its zero bytes after the bytes
    that the stream still had. *)
Lemma read_record_cut k vsize part :
  string_size k < 2 ^ 32 -> Z.of_nat (length part) < vsize < 2 ^ 32 ->
  read_record
    (mkIfstream (le32 (string_size k) ++ list_ascii_of_string k ++ le32 vsize ++ part)
                false)
  = (Some (k, padded part vsize), mkIfstream [] true).
Proof.
  intros Hk Hv. unfold read_record.
  rewrite read_u32_app by (pose proof (string_size_nonneg k); lia).
  rewrite read_string_app. rewrite read_u32_app by lia.
  unfold read_string, stream_read. cbn [failed pending].
  rewrite decide_False by lia. reflexivity.
Qed.

(** A stream whose next size field is cut short, or missing. *)
Lemma read_record_no_size partial :
  (length partial < 4)%nat -> fst (read_record (mkIfstream partial false)) = None.
Proof.
  intros H. unfold read_record, read_u32. cbn [failed pending].
  rewrite decide_False by lia. reflexivity.
Qed.

(** On a stream of version 1 whose last record to be read is cut inside its
    value, [load_snapshot] returns [true]: the records before it are in the
    list and in the index, and so is the cut record, with the bytes of the
    value that were read and the zero bytes of the buffer after them. *)
Lemma load_snapshot_cut_value (clock : nat -> time_point) (s : LRUCache)
    (count : Z) (recs : list (string * string)) (k : string) (vsize : Z)
    (part : list ascii) :
  reachable s -> count < 2 ^ 32 -> Forall fits32 recs ->
  string_size k < 2 ^ 32 -> Z.of_nat (length part) < vsize < 2 ^ 32 ->
  Z.of_nat (length recs) + 1 = Z.min count (capacity s) ->
  exists s' J,
    load_snapshot clock
      (Some (le32 1 ++ le32 count ++ encode_entries recs
             ++ (le32 (string_size k) ++ list_ascii_of_string k ++ le32 vsize ++ part))) s
    = Some (true, s')
    /\ WF s' J /\ Contents s' J ((k, padded part vsize) :: reverse recs)
    /\ (forall k', k' ∈ k :: recs.*1 -> is_Some (cache_map s' !! k')).
Proof.
  intros Hreach Hcount Hfit Hk Hv Hlen. destruct (reachable_WF s Hreach) as [L HW].
  pose proof (WF_cap _ _ HW) as Hcap.
  set (cut := le32 (string_size k) ++ list_ascii_of_string k ++ le32 vsize ++ part).
  destruct (load_snapshot_opened clock
              (le32 1 ++ le32 count ++ encode_entries recs ++ cut) s
              (Rep_Sentinels _ _ (WF_rep _ _ HW)))
    as (s1 & _ & HR1 & Hsn & Hm & Hsz & ->).
  assert (Hc : capacity s1 = capacity s) by apply Hsn.
  assert (HW1 : WF s1 []).
  { eapply WF_nil; try eassumption. }
  rewrite read_u32_app by lia. rewrite read_u32_app by lia.
  rewrite decide_False by (intros H; apply H; reflexivity).
  rewrite Hc.
  replace (Z.to_nat (Z.min count (capacity s))) with (length recs + 1)%nat by lia.
  rewrite load_entries_add.
  destruct (load_entries_complete clock recs 0%nat cut s1 [] HW1 Hfit)
    as (s2 & Jc & -> & HW2 & HC2 & Hg2 & Hdom2).
  { lia. }
  rewrite app_nil_r in HW2.
  assert (Hs2 : current_size s2 = Z.of_nat (length recs)).
  { rewrite (WF_size _ _ HW2), (Contents_length _ _ _ HC2), length_reverse. reflexivity. }
  assert (Hc2 : capacity s2 = capacity s).
  { destruct Hg2 as (_ & _ & -> & _). exact Hc. }
  rewrite load_entries_S. unfold cut. rewrite read_record_cut by assumption.
  destruct (add_entry_run s2 Jc k (new_CacheEntry (clock (0 + length recs)%nat)
                                     (padded part vsize)) (WF_rep _ _ HW2))
    as (s' & Hrun & HR' & Hins & Hm' & Hsz').
  rewrite Hrun. simpl load_entries. unfold ret.
  destruct (WF_add_entry _ _ _ _ _ _ HW2 ltac:(lia) HR' Hins Hm' Hsz') as [HW' _].
  exists s', (fresh (dom (heap s2)) :: Jc).
  split; [reflexivity|]. split; [exact HW'|]. split.
  - constructor.
    + destruct Hins as (_&_&_&_&Hkn&Hen&_). split; [exact Hkn|]. eauto.
    + eapply Contents_frame; [|exact HC2]. intros l Hl.
      destruct Hins as (Hn&_&_&_&_&_&Ho). apply Ho. intros ->.
      assert (Ha : is_Some (heap s2 !! fresh (dom (heap s2)))).
      { eapply Rep_allocated; [apply HW2|]. apply list_elem_of_further, elem_of_app.
        left. exact Hl. }
      rewrite Hn in Ha. destruct Ha; discriminate.
  - intros k' Hk'. rewrite Hm', lookup_insert. case_decide; [eauto|].
    apply Hdom2. right. apply elem_of_cons in Hk' as [->|Hk']; [congruence|exact Hk'].
Qed.

(** On a stream of version 1 that ends, or has fewer than four bytes left,
    where the size of the key of a record is to be read, [load_snapshot] uses
    the uninitialised [key_size]: the call is undefined. *)
Lemma load_snapshot_cut_size (clock : nat -> time_point) (s : LRUCache)
    (count : Z) (recs : list (string * string)) (partial : list ascii) :
  reachable s -> count < 2 ^ 32 -> Forall fits32 recs ->
  Z.of_nat (length recs) < Z.min count (capacity s) -> (length partial < 4)%nat ->
  load_snapshot clock (Some (le32 1 ++ le32 count ++ encode_entries recs ++ partial)) s
  = None.
Proof.
  intros Hreach Hcount Hfit Hlen Hp. destruct (reachable_WF s Hreach) as [L HW].
  pose proof (WF_cap _ _ HW) as Hcap.
  destruct (load_snapshot_opened clock
              (le32 1 ++ le32 count ++ encode_entries recs ++ partial) s
              (Rep_Sentinels _ _ (WF_rep _ _ HW)))
    as (s1 & _ & HR1 & Hsn & Hm & Hsz & ->).
  assert (Hc : capacity s1 = capacity s) by apply Hsn.
  assert (HW1 : WF s1 []).
  { eapply WF_nil; try eassumption. }
  rewrite read_u32_app by lia. rewrite read_u32_app by lia.
  rewrite decide_False by (intros H; apply H; reflexivity).
  rewrite Hc.
  set (r := (Z.to_nat (Z.min count (capacity s)) - S (length recs))%nat).
  replace (Z.to_nat (Z.min count (capacity s))) with (length recs + S r)%nat
    by (unfold r; lia).
  rewrite load_entries_add.
  destruct (load_entries_complete clock recs 0%nat partial s1 [] HW1 Hfit)
    as (s2 & Jc & -> & _).
  { lia. }
  rewrite load_entries_S. pose proof (read_record_no_size partial Hp) as Hr.
  destruct (read_record (mkIfstream partial false)) as [[kv|] f1]; [discriminate|].
  reflexivity.
Qed.

(** C1 fails on the code: [load_snapshot] does not look at the state of the
    stream.  The stream has version 1 and announces one record, of which the
    last byte of the value is missing (no uninitialised local is read):
    [load_snapshot] returns [true], not [false], and [get] finds the key with
    the byte that was read followed by the zero byte that the buffer held. *)
Theorem load_snapshot_truncated_returns_true :
  truncated_record cut_record
  /\ fst <$> load_cut_stream (engine 2) = Some true
  /\ fst <$> get 0 "k" "" (after load_cut_stream (engine 2))
     = Some (true, String "v" (String zero EmptyString)).
Proof.
  split; [|split].
  - exists ("k", "vw"), (list_ascii_of_string "w").
    split; [split; vm_compute; reflexivity|]. split; [reflexivity|discriminate].
  - vm_compute. reflexivity.
  - vm_compute. reflexivity.
Qed.

(** ** Round trip *)

Lemma NoDup_fst_unique {A B} (l : list (A * B)) x y1 y2 :
  NoDup l.*1 -> (x, y1) ∈ l -> (x, y2) ∈ l -> y1 = y2.
Proof.
  induction l as [|[a b] l IH]; intros Hnd H1 H2.
  - apply elem_of_nil in H1. contradiction.
  - rewrite fmap_cons in Hnd. apply NoDup_cons in Hnd as [Ha Hnd]. simpl in Ha.
    apply elem_of_cons in H1 as [H1|H1]; apply elem_of_cons in H2 as [H2|H2].
    + congruence.
    + injection H1 as -> ->. exfalso. apply Ha.
      apply list_elem_of_fmap. exists (a, y2). split; [reflexivity|exact H2].
    + injection H2 as -> ->. exfalso. apply Ha.
      apply list_elem_of_fmap. exists (a, y1). split; [reflexivity|exact H1].
    + apply IH; assumption.
Qed.

(** C4, for an engine in which no two nodes share a key: after
    [save_snapshot] of [E] and [load_snapshot] of the file into an engine of
    the same capacity, [get] finds the same keys in both, with the same
    values.  The lengths of keys and values and the number of entries are
    within the 32-bit fields of the format. *)
Theorem snapshot_round_trip (clock : nat -> time_point)
    (fuel : nat) (E : LRUCache) (L : list loc) (kvs : list (string * string))
    (E' : LRUCache) :
  Inv E L -> Contents E L kvs -> Forall fits32 kvs -> current_size E < 2 ^ 32 ->
  reachable E' -> capacity E' = capacity E -> (length L < fuel)%nat ->
  exists bytes E'',
    save_snapshot true fuel E = Some (Some bytes, E)
    /\ load_snapshot clock (Some bytes) E' = Some (true, E'')
    /\ forall (k : string) (now now' : time_point) (value0 value0' : string),
         exists r sE r' sE'',
           get now k value0 E = Some (r, sE)
           /\ get now' k value0' E'' = Some (r', sE'')
           /\ fst r = fst r'
           /\ (fst r = true -> snd r = snd r').
Proof.
  intros HI HC Hfit Hsz Hreach Hcap Hfuel. destruct (reachable_WF E' Hreach) as [L' HW'].
  pose proof (proj1 HI) as HW.
  pose proof (WF_size _ _ HW) as Hs. pose proof (WF_bound _ _ HW) as Hb.
  pose proof (Contents_length _ _ _ HC) as Hlen.
  exists (le32 1 ++ le32 (current_size E) ++ encode_entries kvs).
  destruct (load_snapshot_opened clock
              (le32 1 ++ le32 (current_size E) ++ encode_entries kvs) E'
              (Rep_Sentinels _ _ (WF_rep _ _ HW')))
    as (s1 & _ & HR1 & Hsn & Hm & Hsz1 & Hload).
  assert (Hc : capacity s1 = capacity E') by apply Hsn.
  assert (HW1 : WF s1 []).
  { eapply WF_nil; try eassumption. apply HW'. }
  rewrite read_u32_app in Hload by lia. rewrite read_u32_app in Hload by lia.
  rewrite decide_False in Hload by (intros H; apply H; reflexivity).
  rewrite Hc, Hcap in Hload.
  replace (Z.to_nat (Z.min (current_size E) (capacity E))) with (length kvs) in Hload
    by lia.
  rewrite <- (app_nil_r (encode_entries kvs)) in Hload.
  destruct (load_entries_complete clock kvs 0%nat [] s1 [] HW1 Hfit)
    as (E'' & J & Hrun & HW'' & HC'' & _ & Hdom).
  { lia. }
  rewrite Hrun in Hload. rewrite app_nil_r in Hload, HW''. exists E''.
  split; [apply (save_snapshot_run E L kvs fuel); try assumption; [apply HW|lia]|].
  split; [exact Hload|].
  intros k now now' value0 value0'.
  pose proof (Inv_NoDup_keys _ _ _ HI HC) as Hnd.
  assert (Hdom' : is_Some (cache_map E'' !! k) <-> is_Some (cache_map E !! k)).
  { rewrite Hdom, Hm, lookup_empty, (Inv_index _ _ _ k HI HC).
    split; [|auto]. intros [H|H]; [destruct H; discriminate|exact H]. }
  destruct (get_Contents E L kvs now k value0 HW HC)
    as (r & sE & Hget & Hr).
  destruct (get_Contents E'' J (reverse kvs) now' k value0' HW'' HC'')
    as (r' & sE'' & Hget' & Hr').
  exists r, sE, r', sE''. split; [exact Hget|]. split; [exact Hget'|].
  destruct Hr as [(Hf & Hsome & Hin)|(-> & Hnone)];
    destruct Hr' as [(Hf' & Hsome' & Hin')|(-> & Hnone')].
  - split; [congruence|]. intros _. rewrite elem_of_reverse in Hin'.
    exact (NoDup_fst_unique kvs k _ _ Hnd Hin Hin').
  - apply Hdom' in Hsome. rewrite Hnone' in Hsome. destruct Hsome; discriminate.
  - apply Hdom' in Hsome'. rewrite Hnone in Hsome'. destruct Hsome'; discriminate.
  - split; [reflexivity|]. simpl. discriminate.
Qed.

Lemma snapshot_round_trip_witness :
  exists bytes E'',
    save_snapshot true 3 engine_ab = Some (Some bytes, engine_ab)
    /\ load_snapshot (fun _ => 0) (Some bytes) (engine 2) = Some (true, E'')
    /\ forall (k : string) (now now' : time_point) (value0 value0' : string),
         exists r sE r' sE'',
           get now k value0 engine_ab = Some (r, sE)
           /\ get now' k value0' E'' = Some (r', sE'')
           /\ fst r = fst r'
           /\ (fst r = true -> snd r = snd r').
Proof.
  apply (snapshot_round_trip (fun _ => 0) 3 engine_ab [4; 3]%positive
           [("b", "2"); ("a", "1")] (engine 2)).
  - apply Inv_check_sound. vm_compute. reflexivity.
  - apply Contents_check_sound. vm_compute. reflexivity.
  - apply fits32_check_sound. vm_compute. reflexivity.
  - vm_compute. reflexivity.
  - exists 2, [], (engine 2). split; [lia|]. split; vm_compute; reflexivity.
  - vm_compute. reflexivity.
  - simpl. lia.
Defined.

(** C4, as stated, fails on [engine_dup], whose size is within its capacity:
    [get("a")] returns ["2"] in it and ["1"] after the round trip. *)
Lemma snapshot_round_trip_counterexample :
  new_LRUCache 2 = Some (engine 2)
  /\ load_snapshot (fun _ => 0) (Some duplicate_stream) (engine 2)
     = Some (true, engine_dup)
  /\ current_size engine_dup <= capacity engine_dup
  /\ save_snapshot true 3 engine_dup = Some (Some saved_dup, engine_dup)
  /\ load_snapshot (fun _ => 0) (Some saved_dup) (engine 2)
     = Some (true, engine_dup_reloaded)
  /\ fst <$> get 0 "a" "" engine_dup = Some (true, "2")
  /\ fst <$> get 0 "a" "" engine_dup_reloaded = Some (true, "1").
Proof.
  split; [vm_compute; reflexivity|].
  split; [vm_compute; reflexivity|].
  split; [vm_compute; discriminate|].
  split; [vm_compute; reflexivity|].
  split; [vm_compute; reflexivity|].
  split; vm_compute; reflexivity.
Qed.

(** ** The facade *)

(** C8, as the code has it: [get], [put] and [remove] of the store add one to
    [total_operations] (modulo 2^64) and then call the engine; [get] then adds
    one to [cache_hits] when the key was found and to [cache_misses] when it
    was not, and to nothing else.  [clear] does not count an operation: it
    calls the engine and then resets all the counters. *)
Theorem facade_counters (st : KVStore) (now : time_point) (k v value0 : string) :
  reachable (cache_ st) ->
  let m := metrics_ st in
  (exists r st',
      KVStoreOps.get now k value0 st = Some (r, st')
      /\ get now k value0 (cache_ st) = Some (r, cache_ st')
      /\ total_operations (metrics_ st') = wrap64 (total_operations m + 1)
      /\ cache_hits (metrics_ st')
         = (if fst r then wrap64 (cache_hits m + 1) else cache_hits m)
      /\ cache_misses (metrics_ st')
         = (if fst r then cache_misses m else wrap64 (cache_misses m + 1))
      /\ evictions (metrics_ st') = evictions m)
  /\ (exists st',
         KVStoreOps.put now k v st = Some (tt, st')
         /\ put now k v (cache_ st) = Some (tt, cache_ st')
         /\ total_operations (metrics_ st') = wrap64 (total_operations m + 1)
         /\ cache_hits (metrics_ st') = cache_hits m
         /\ cache_misses (metrics_ st') = cache_misses m)
  /\ (exists r st',
         KVStoreOps.remove k st = Some (r, st')
         /\ remove k (cache_ st) = Some (r, cache_ st')
         /\ total_operations (metrics_ st') = wrap64 (total_operations m + 1)
         /\ cache_hits (metrics_ st') = cache_hits m
         /\ cache_misses (metrics_ st') = cache_misses m
         /\ evictions (metrics_ st') = evictions m)
  /\ (exists st',
         KVStoreOps.clear now st = Some (tt, st')
         /\ clear (cache_ st) = Some (tt, cache_ st')
         /\ metrics_ st' = new_PerformanceMetrics now).
Proof.
  intros Hreach m. destruct (reachable_WF _ Hreach) as [L HW].
  destruct st as [c m0 f]. simpl in *. subst m.
  split; [|split; [|split]].
  - destruct (WF_get c L now k value0 HW) as (r & c' & L' & Hrun & _).
    unfold KVStoreOps.get, kbind, on_metrics, on_cache, kret. simpl.
    rewrite Hrun. destruct r as [[] v']; simpl; eexists _, _;
      (split; [reflexivity|]); simpl; auto.
  - destruct (WF_put c L now k v HW) as (c' & L' & Hrun & _).
    unfold KVStoreOps.put, kbind, on_metrics, on_cache, kret, size, read. simpl.
    rewrite Hrun. case_decide; eexists; (split; [reflexivity|]); simpl; auto.
  - destruct (WF_remove c L k HW) as (r & c' & L' & Hrun & _).
    unfold KVStoreOps.remove, kbind, on_metrics, on_cache. simpl.
    rewrite Hrun. eexists _, _. split; [reflexivity|]. simpl. auto.
  - destruct (WF_clear c L HW) as (c' & Hrun & _).
    unfold KVStoreOps.clear, KVStoreOps.reset_metrics, kbind, on_metrics, on_cache.
    simpl. rewrite Hrun. eexists. split; [reflexivity|]. simpl. auto.
Qed.

Lemma facade_counters_witness :
  let m := metrics_ store_ab in
  (exists r st',
      KVStoreOps.get 3 "a" "" store_ab = Some (r, st')
      /\ get 3 "a" "" (cache_ store_ab) = Some (r, cache_ st')
      /\ total_operations (metrics_ st') = wrap64 (total_operations m + 1)
      /\ cache_hits (metrics_ st')
         = (if fst r then wrap64 (cache_hits m + 1) else cache_hits m)
      /\ cache_misses (metrics_ st')
         = (if fst r then cache_misses m else wrap64 (cache_misses m + 1))
      /\ evictions (metrics_ st') = evictions m)
  /\ (exists st',
         KVStoreOps.put 3 "a" "x" store_ab = Some (tt, st')
         /\ put 3 "a" "x" (cache_ store_ab) = Some (tt, cache_ st')
         /\ total_operations (metrics_ st') = wrap64 (total_operations m + 1)
         /\ cache_hits (metrics_ st') = cache_hits m
         /\ cache_misses (metrics_ st') = cache_misses m)
  /\ (exists r st',
         KVStoreOps.remove "a" store_ab = Some (r, st')
         /\ remove "a" (cache_ store_ab) = Some (r, cache_ st')
         /\ total_operations (metrics_ st') = wrap64 (total_operations m + 1)
         /\ cache_hits (metrics_ st') = cache_hits m
         /\ cache_misses (metrics_ st') = cache_misses m
         /\ evictions (metrics_ st') = evictions m)
  /\ (exists st',
         KVStoreOps.clear 3 store_ab = Some (tt, st')
         /\ clear (cache_ store_ab) = Some (tt, cache_ st')
         /\ metrics_ st' = new_PerformanceMetrics 3).
Proof.
  apply (facade_counters store_ab 3 "a" "x" "").
  exists 2, [CallPut 1 "a" "1"; CallPut 2 "b" "2"], (engine 2).
  split; [lia|]. split; vm_compute; reflexivity.
Defined.

(** C8, as stated, fails for [clear]: the store had counted five operations
    and counts none after it, not six. *)
Lemma facade_clear_counterexample :
  total_operations (metrics_ store_ab) = 5
  /\ (fun r => total_operations (metrics_ (snd r))) <$> KVStoreOps.clear 9 store_ab
     = Some 0.
Proof. split; vm_compute; reflexivity. Qed.

(** ** The sizes of the index, the list and [current_size] *)

(** Under the strong invariant the three sizes agree, within the capacity. *)
Lemma Inv_sizes s L :
  Inv s L ->
  base.size (cache_map s) = length L
  /\ list_length (S (length L)) s = Some (length L)
  /\ current_size s = Z.of_nat (length L)
  /\ current_size s <= capacity s.
Proof.
  intros HI. split; [apply Inv_size, HI|]. destruct HI as [HW _].
  split; [apply list_length_Rep; [apply HW|lia]|].
  split; [apply HW|apply HW].
Qed.

(** Any sequence of [get], [put], [remove] and [clear] on a fresh engine
    returns and leaves the three sizes equal, within the capacity. *)
Lemma sizes_agree_without_load (C : Z) (os : list operation) :
  0 < C < 2 ^ 64 -> forallb (fun o => negb (is_load o)) os = true ->
  exists s0 s n,
    new_LRUCache C = Some s0 /\ apply_operations os s0 = Some s
    /\ base.size (cache_map s) = n /\ list_length (S n) s = Some n
    /\ current_size s = Z.of_nat n /\ current_size s <= C.
Proof.
  intros HC Hos. destruct (new_LRUCache_Inv C HC) as (s0 & Hnew & HI0 & Hc0).
  destruct (Inv_apply_operations os s0 [] Hos HI0) as (s & L & Hrun & HI & Hc).
  destruct (Inv_sizes s L HI) as (H1 & H2 & H3 & H4).
  exists s0, s, (length L).
  split; [exact Hnew|]. split; [exact Hrun|]. split; [exact H1|].
  split; [exact H2|]. split; [exact H3|]. rewrite <- Hc0, <- Hc. exact H4.
Qed.

(** C3 fails on the code: after [load_snapshot] of a file of version 1 with
    two records for the key ["a"], into a fresh engine of capacity 2, the index
    has one key while the list has two nodes and [current_size] is 2. *)
Theorem load_snapshot_duplicate_keys :
  new_LRUCache 2 = Some (engine 2)
  /\ load_snapshot (fun _ => 0) (Some duplicate_stream) (engine 2)
     = Some (true, engine_dup)
  /\ base.size (cache_map engine_dup) = 1%nat
  /\ list_length 3 engine_dup = Some 2%nat
  /\ current_size engine_dup = 2.
Proof.
  split; [vm_compute; reflexivity|].
  split; [vm_compute; reflexivity|].
  split; [vm_compute; reflexivity|].
  split; vm_compute; reflexivity.
Qed.

(** ** The two phases of [get] and a concurrent [remove] *)

(** C9 fails on the code: the promotion phase does not look the key up
    again.  After the [remove], it links the node back into the list: the
    call returns [(true, "1")], the list has one node, and the index and
    [current_size] have none. *)
Theorem get_promotes_removed_node :
  fst <$> get_with_remove_between engine_a = Some (true, "1")
  /\ cache_map (after get_with_remove_between engine_a) !! "a" = None
  /\ base.size (cache_map (after get_with_remove_between engine_a)) = 0%nat
  /\ list_length 3 (after get_with_remove_between engine_a) = Some 1%nat
  /\ current_size (after get_with_remove_between engine_a) = 0.
Proof.
  split; [vm_compute; reflexivity|].
  split; [vm_compute; reflexivity|].
  split; [vm_compute; reflexivity|].
  split; vm_compute; reflexivity.
Qed.

(** * Further properties of the code *)

(** ** What [get] finds after each call *)

Lemma get_lookup_value s L now k value0 :
  WF s L ->
  exists s' L',
    get now k value0 s = Some (get_result (lookup_value s k) value0, s')
    /\ WF s' L' /\ L' ≡ₚ L
    /\ (forall k', lookup_value s' k' = lookup_value s k')
    /\ cache_map s' = cache_map s /\ capacity s' = capacity s
    /\ current_size s' = current_size s.
Proof.
  intros HW. unfold lookup_value at 1. destruct (cache_map s !! k) as [n|] eqn:Hk.
  - destruct (WF_map _ _ HW _ _ Hk) as [Hin _].
    destruct (WF_entries _ _ HW _ Hin) as [e He].
    apply list_elem_of_split in Hin as (L1 & L2 & ->).
    destruct (get_hit s L1 n L2 now k value0 e HW Hk He) as (s' & Hrun & HR & Ht).
    assert (HP : n :: L1 ++ L2 ≡ₚ L1 ++ n :: L2) by apply Permutation_middle.
    rewrite He. exists s', (n :: L1 ++ L2). split; [exact Hrun|].
    split; [eapply WF_touched; eassumption|]. split; [exact HP|].
    destruct Ht as (Em & _ & _ & Ec & Es & _ & Hen).
    split; [|auto]. intros k'. unfold lookup_value. rewrite Em.
    destruct (cache_map s !! k') as [n'|]; [|reflexivity].
    rewrite Hen. destruct (decide (n' = n)) as [->|Hne]; [|reflexivity].
    rewrite He. reflexivity.
  - exists s, L. split; [apply get_miss, Hk|]. split; [exact HW|]. auto.
Qed.

Lemma get_fst s L now k value0 :
  WF s L -> fst <$> get now k value0 s = Some (get_result (lookup_value s k) value0).
Proof.
  intros HW. destruct (get_lookup_value s L now k value0 HW) as (s' & L' & -> & _).
  reflexivity.
Qed.

Lemma lookup_value_index s L k :
  WF s L -> is_Some (lookup_value s k) <-> is_Some (cache_map s !! k).
Proof.
  intros HW. unfold lookup_value. destruct (cache_map s !! k) as [n|] eqn:Hk.
  - destruct (WF_map _ _ HW _ _ Hk) as [Hin _].
    destruct (WF_entries _ _ HW _ Hin) as [e ->]. split; eauto.
  - split; intros [x Hx]; discriminate.
Qed.

Lemma put_lookup_value s L now k v :
  WF s L ->
  exists s' L',
    put now k v s = Some (tt, s') /\ WF s' L'
    /\ capacity s' = capacity s
    /\ lookup_value s' k = Some v
    /\ (forall k', k' <> k ->
          lookup_value s' k' = lookup_value s k'
          \/ (lookup_value s' k' = None /\ cache_map s !! k = None
              /\ capacity s <= current_size s
              /\ exists L0 t, L = L0 ++ [t] /\ key_of s t = Some k')).
Proof.
  intros HW. destruct (WF_put s L now k v HW) as (s' & L' & Hrun & HW' & Hc).
  exists s', L'. split; [exact Hrun|]. split; [exact HW'|]. split; [exact Hc|].
  destruct (cache_map s !! k) as [n|] eqn:Hk.
  - destruct (WF_map _ _ HW _ _ Hk) as [Hin _].
    destruct (WF_entries _ _ HW _ Hin) as [e He].
    apply list_elem_of_split in Hin as (L1 & L2 & ->).
    destruct (put_present s L1 n L2 now k v e HW Hk He) as (s1 & Hrun1 & HR & Ht).
    assert (s1 = s') by congruence. subst s1.
    destruct Ht as (Em & _ & _ & Ec & Es & Hks & Hen).
    split.
    + unfold lookup_value. rewrite Em, Hk, Hen.
      rewrite decide_True by reflexivity. reflexivity.
    + intros k' Hne. left. unfold lookup_value. rewrite Em.
      destruct (cache_map s !! k') as [n'|] eqn:Hk'; [|reflexivity].
      rewrite Hen. destruct (decide (n' = n)) as [->|Hn]; [|reflexivity].
      destruct (WF_map _ _ HW _ _ Hk) as [_ H1].
      destruct (WF_map _ _ HW _ _ Hk') as [_ H2]. congruence.
  - destruct (put_absent s L now k v HW Hk)
      as (s1 & n & L1 & Hrun1 & HR & Hins & Hsz & Hcase).
    assert (s1 = s') by congruence. subst s1.
    destruct Hins as (Hn & _ & _ & _ & Hkn & Hen & Ho).
    assert (Hold : forall k' n', cache_map s !! k' = Some n' ->
                     entry_of s' n' = entry_of s n').
    { intros k' n' Hk'. apply Ho. intros ->.
      destruct (WF_map _ _ HW _ _ Hk') as [Hin _].
      destruct (WF_entries _ _ HW _ Hin) as [e He].
      unfold entry_of in He. rewrite Hn in He. discriminate. }
    split.
    + unfold lookup_value.
      replace (cache_map s' !! k) with (Some n).
      * rewrite Hen. reflexivity.
      * destruct Hcase as [(_ & _ & ->)|(_ & t & kt & _ & _ & ->)];
          rewrite lookup_insert_eq; reflexivity.
    + intros k' Hne.
      destruct Hcase as [(_ & _ & Em)|(Hfull & t & kt & -> & Hkt & Em)].
      * left. unfold lookup_value. rewrite Em, lookup_insert_ne by congruence.
        destruct (cache_map s !! k') as [n'|] eqn:Hk'; [|reflexivity].
        rewrite (Hold _ _ Hk'). reflexivity.
      * destruct (decide (kt = k')) as [->|Hkt'].
        -- right. split; [|split; [reflexivity|split; [exact Hfull|eauto]]].
           unfold lookup_value. rewrite Em, lookup_insert_ne by congruence.
           rewrite lookup_delete_eq. reflexivity.
        -- left. unfold lookup_value.
           rewrite Em, lookup_insert_ne, lookup_delete_ne by congruence.
           destruct (cache_map s !! k') as [n'|] eqn:Hk'; [|reflexivity].
           rewrite (Hold _ _ Hk'). reflexivity.
Qed.

(** A [put] that has room, or whose key is in the index, loses no key. *)
Lemma put_room s L now k v :
  WF s L -> is_Some (cache_map s !! k) \/ current_size s < capacity s ->
  forall s', put now k v s = Some (tt, s') ->
  forall k', k' <> k -> lookup_value s' k' = lookup_value s k'.
Proof.
  intros HW Hroom s' Hrun k' Hne.
  destruct (put_lookup_value s L now k v HW) as (s1 & L1 & Hrun1 & _ & _ & _ & Hk').
  assert (s1 = s') by congruence. subst s1.
  destruct (Hk' k' Hne) as [H|(_ & Hnone & Hfull & _)]; [exact H|].
  destruct Hroom as [[x Hx]|Hlt]; [congruence|lia].
Qed.

Lemma remove_lookup_value s L k :
  WF s L ->
  exists s' L',
    remove k s = Some (bool_decide (is_Some (cache_map s !! k)), s')
    /\ WF s' L' /\ capacity s' = capacity s
    /\ cache_map s' = delete k (cache_map s)
    /\ (forall k', lookup_value s' k'
                   = if decide (k' = k) then None else lookup_value s k').
Proof.
  intros HW. destruct (WF_remove s L k HW) as (r & s' & L' & Hrun & HW' & Hc).
  exists s', L'. destruct (cache_map s !! k) as [n|] eqn:Hk.
  - destruct (WF_map _ _ HW _ _ Hk) as [Hin Hkey].
    apply list_elem_of_split in Hin as (L1 & L2 & ->).
    destruct (remove_hit s L1 n L2 k (WF_rep _ _ HW) Hk)
      as (s1 & Hrun1 & HR & (Hh & Ht & _ & Hks & Hes) & Hm & Hsz).
    assert (r = true /\ s1 = s') as [-> ->] by (split; congruence).
    rewrite bool_decide_eq_true_2 by eauto.
    split; [exact Hrun|]. split; [exact HW'|]. split; [exact Hc|]. split; [exact Hm|].
    intros k'. unfold lookup_value. rewrite Hm, lookup_delete.
    destruct (decide (k = k')) as [->|Hne].
    + rewrite decide_True by reflexivity. reflexivity.
    + rewrite decide_False by congruence.
      destruct (cache_map s !! k'); [|reflexivity]. rewrite Hes. reflexivity.
  - rewrite (remove_miss s k Hk) in Hrun. injection Hrun as <- <-.
    rewrite bool_decide_eq_false_2 by (intros [x Hx]; discriminate).
    split; [apply remove_miss, Hk|]. split; [exact HW'|]. split; [reflexivity|].
    split; [symmetry; apply delete_id, Hk|].
    intros k'. destruct (decide (k' = k)) as [->|Hne]; [|reflexivity].
    unfold lookup_value. rewrite Hk. reflexivity.
Qed.

Lemma reachable_step o s s' :
  reachable s -> apply_operation o s = Some s' -> reachable s'.
Proof.
  intros (C & os & s0 & HC & Hnew & Hrun) Ho. exists C, (os ++ [o]), s0.
  split; [exact HC|]. split; [exact Hnew|].
  clear Hnew. revert s0 Hrun. induction os as [|o' os IH]; intros s0 Hrun; simpl in *.
  - injection Hrun as ->. rewrite Ho. reflexivity.
  - destruct (apply_operation o' s0) as [s1|]; [|discriminate]. apply IH, Hrun.
Qed.

Lemma reachable_engine_ab : reachable engine_ab.
Proof.
  exists 2, [CallPut 1 "a" "1"; CallPut 2 "b" "2"], (engine 2).
  split; [lia|]. split; vm_compute; reflexivity.
Defined.

(** X1: in every state that calls of the interface can reach, [put(k, v)]
    returns, and a [get(k)] that follows it returns [true] and the value
    [v], whether or not [k] was in the index and whether or not the cache
    was full. *)
Theorem put_then_get (s : LRUCache) (now now' : time_point) (k v value0 : string) :
  reachable s ->
  exists s1 s2,
    put now k v s = Some (tt, s1)
    /\ get now' k value0 s1 = Some ((true, v), s2).
Proof.
  intros Hreach. destruct (reachable_WF s Hreach) as [L HW].
  destruct (put_lookup_value s L now k v HW) as (s1 & L1 & Hrun & HW1 & _ & Hk & _).
  destruct (get_lookup_value s1 L1 now' k value0 HW1) as (s2 & _ & Hget & _).
  rewrite Hk in Hget. exists s1, s2. split; assumption.
Qed.

Lemma put_then_get_witness :
  exists s1 s2,
    put 3 "c" "3" engine_ab = Some (tt, s1)
    /\ get 4 "c" "" s1 = Some ((true, "3"), s2).
Proof. apply (put_then_get engine_ab 3 4 "c" "3" ""). exact reachable_engine_ab. Defined.

(** X2: a [put(k, v)] whose key is in the index, or that finds the cache
    below its capacity, loses nothing: every other key is found after it
    exactly when it was found before, with the same value. *)
Theorem put_keeps_other_keys (s : LRUCache) (now : time_point) (k v : string) :
  reachable s ->
  is_Some (cache_map s !! k) \/ current_size s < capacity s ->
  exists s1,
    put now k v s = Some (tt, s1)
    /\ forall (now' : time_point) (k' value0 : string),
         k' <> k ->
         fst <$> get now' k' value0 s1 = fst <$> get now' k' value0 s.
Proof.
  intros Hreach Hroom. destruct (reachable_WF s Hreach) as [L HW].
  destruct (put_lookup_value s L now k v HW) as (s1 & L1 & Hrun & HW1 & _).
  exists s1. split; [exact Hrun|]. intros now' k' value0 Hne.
  rewrite (get_fst s1 L1 now' k' value0 HW1), (get_fst s L now' k' value0 HW).
  rewrite (put_room s L now k v HW Hroom s1 Hrun k' Hne). reflexivity.
Qed.

Lemma put_keeps_other_keys_witness :
  exists s1,
    put 3 "a" "x" engine_ab = Some (tt, s1)
    /\ forall (now' : time_point) (k' value0 : string),
         k' <> "a" ->
         fst <$> get now' k' value0 s1 = fst <$> get now' k' value0 engine_ab.
Proof.
  apply (put_keeps_other_keys engine_ab 3 "a" "x").
  - exact reachable_engine_ab.
  - left. exists 3%positive. vm_compute. reflexivity.
Defined.

(** X3: [get] changes what no later [get] returns: after [get(k)], hit or
    miss, every key is found exactly when it was found before, with the same
    value; the index and [current_size] are unchanged. *)
Theorem get_keeps_every_key (s : LRUCache) (now : time_point) (k value0 : string) :
  reachable s ->
  exists r s1,
    get now k value0 s = Some (r, s1)
    /\ cache_map s1 = cache_map s /\ current_size s1 = current_size s
    /\ forall (now' : time_point) (k' value0' : string),
         fst <$> get now' k' value0' s1 = fst <$> get now' k' value0' s.
Proof.
  intros Hreach. destruct (reachable_WF s Hreach) as [L HW].
  destruct (get_lookup_value s L now k value0 HW)
    as (s1 & L1 & Hrun & HW1 & _ & Hsame & Hm & _ & Hs).
  eexists _, s1. split; [exact Hrun|]. split; [exact Hm|]. split; [exact Hs|].
  intros now' k' value0'.
  rewrite (get_fst s1 L1 now' k' value0' HW1), (get_fst s L now' k' value0' HW), Hsame.
  reflexivity.
Qed.

Lemma get_keeps_every_key_witness :
  exists r s1,
    get 3 "a" "" engine_ab = Some (r, s1)
    /\ cache_map s1 = cache_map engine_ab /\ current_size s1 = current_size engine_ab
    /\ forall (now' : time_point) (k' value0' : string),
         fst <$> get now' k' value0' s1 = fst <$> get now' k' value0' engine_ab.
Proof. apply (get_keeps_every_key engine_ab 3 "a" ""). exact reachable_engine_ab. Defined.

(** X4: [remove(k)] returns whether [k] was in the index.  After it [get(k)]
    misses and leaves the state as it is, a second [remove(k)] returns
    [false], and every other key is found exactly when it was found before,
    with the same value. *)
Theorem remove_then_absent (s : LRUCache) (k : string) :
  reachable s ->
  exists s1,
    remove k s = Some (bool_decide (is_Some (cache_map s !! k)), s1)
    /\ (forall (now : time_point) (value0 : string),
          get now k value0 s1 = Some ((false, value0), s1))
    /\ remove k s1 = Some (false, s1)
    /\ forall (now : time_point) (k' value0 : string),
         k' <> k ->
         fst <$> get now k' value0 s1 = fst <$> get now k' value0 s.
Proof.
  intros Hreach. destruct (reachable_WF s Hreach) as [L HW].
  destruct (remove_lookup_value s L k HW) as (s1 & L1 & Hrun & HW1 & _ & Hm & Hl).
  assert (Hk : cache_map s1 !! k = None) by (rewrite Hm; apply lookup_delete_eq).
  exists s1. split; [exact Hrun|]. split; [|split].
  - intros now value0. apply get_miss, Hk.
  - apply remove_miss, Hk.
  - intros now k' value0 Hne.
    rewrite (get_fst s1 L1 now k' value0 HW1), (get_fst s L now k' value0 HW), Hl.
    rewrite decide_False by exact Hne. reflexivity.
Qed.

Lemma remove_then_absent_witness :
  exists s1,
    remove "a" engine_ab = Some (bool_decide (is_Some (cache_map engine_ab !! "a")), s1)
    /\ (forall (now : time_point) (value0 : string),
          get now "a" value0 s1 = Some ((false, value0), s1))
    /\ remove "a" s1 = Some (false, s1)
    /\ forall (now : time_point) (k' value0 : string),
         k' <> "a" ->
         fst <$> get now k' value0 s1 = fst <$> get now k' value0 engine_ab.
Proof. apply (remove_then_absent engine_ab "a"). exact reachable_engine_ab. Defined.

(** ** [clear], [size] and [empty] *)

(** [clear] writes to an empty engine what it holds already. *)
Lemma clear_empty_state s :
  Rep s [] -> cache_map s = ∅ -> current_size s = 0 -> clear s = Some (tt, s).
Proof.
  intros (_ & Hf & Hb) Hm Hs. simpl in Hf, Hb. destruct Hf as [Hf _], Hb as [Hb _].
  destruct s as [h m hd tl c sz]. unfold nxt, prv in *. simpl in *. subst m sz.
  destruct (h !! hd) as [nh|] eqn:Hh; [|discriminate].
  destruct (h !! tl) as [nt|] eqn:Ht; [|discriminate].
  simpl in Hf, Hb. injection Hf as Hf. injection Hb as Hb.
  assert (E1 : <[hd := with_next (Some tl) nh]> h = h).
  { apply insert_id. rewrite Hh. f_equal. destruct nh; simpl in *.
    unfold with_next; simpl. congruence. }
  assert (E2 : <[tl := with_prev (Some hd) nt]> h = h).
  { apply insert_id. rewrite Ht. f_equal. destruct nt; simpl in *.
    unfold with_prev; simpl. congruence. }
  unfold clear, bind, write_cache_map, read, set_next, set_prev, modify,
    write_current_size, set_cache_map, set_heap, set_current_size. simpl.
  rewrite Hh. simpl. rewrite E1, Ht. simpl. rewrite E2. reflexivity.
Qed.

(** X5: in every reachable state [clear] returns and leaves an empty cache:
    [size] is 0, [empty] is true, every [get] misses without any effect, and
    a second [clear] changes nothing. *)
Theorem clear_empties (s : LRUCache) :
  reachable s ->
  exists s1,
    clear s = Some (tt, s1)
    /\ size s1 = Some (0, s1) /\ empty s1 = Some (true, s1)
    /\ (forall (now : time_point) (k value0 : string),
          get now k value0 s1 = Some ((false, value0), s1))
    /\ clear s1 = Some (tt, s1)
    /\ capacity s1 = capacity s.
Proof.
  intros Hreach. destruct (reachable_WF s Hreach) as [L HW].
  destruct (clear_spec s (Rep_Sentinels _ _ (WF_rep _ _ HW)))
    as (s1 & Hrun & HR & Hsn & Hm & Hs).
  exists s1. split; [exact Hrun|].
  split; [unfold size, read; rewrite Hs; reflexivity|].
  split; [unfold empty, read; rewrite Hs; reflexivity|].
  split; [|split; [apply clear_empty_state; assumption|apply Hsn]].
  intros now k value0. apply get_miss. rewrite Hm. apply lookup_empty.
Qed.

Lemma clear_empties_witness :
  exists s1,
    clear engine_ab = Some (tt, s1)
    /\ size s1 = Some (0, s1) /\ empty s1 = Some (true, s1)
    /\ (forall (now : time_point) (k value0 : string),
          get now k value0 s1 = Some ((false, value0), s1))
    /\ clear s1 = Some (tt, s1)
    /\ capacity s1 = capacity engine_ab.
Proof. apply (clear_empties engine_ab). exact reachable_engine_ab. Defined.

(** ** No call is undefined but by an uninitialised local *)

(** The loop of [load_snapshot] is defined exactly when every iteration reads
    its two sizes. *)
Lemma load_entries_reads clock n :
  forall i f s L,
    WF s L -> current_size s + Z.of_nat n <= capacity s ->
    if reads_sizes n f then is_Some (load_entries clock n i f s)
    else load_entries clock n i f s = None.
Proof.
  induction n as [|n IH]; intros i f s L HW Hle.
  - simpl. eauto.
  - rewrite load_entries_S. simpl reads_sizes.
    destruct (read_record f) as [[[k v]|] f1]; [|reflexivity].
    destruct (add_entry_run s L k (new_CacheEntry (clock i) v) (WF_rep _ _ HW))
      as (s1 & Hrun & HR1 & Hins & Hm & Hsz).
    rewrite Hrun.
    destruct (WF_add_entry _ _ _ _ _ _ HW ltac:(lia) HR1 Hins Hm Hsz) as [HW1 Hsz1].
    apply (IH (S i) f1 s1 _ HW1). destruct Hins as (_&_&_&->&_). lia.
Qed.

(** [load_snapshot] is defined exactly when it uses no uninitialised
    local. *)
Lemma load_snapshot_reads clock file s L :
  WF s L ->
  if reads_initialised (capacity s) file then is_Some (load_snapshot clock file s)
  else load_snapshot clock file s = None.
Proof.
  intros HW. destruct file as [bytes|]; [|simpl; eauto].
  destruct (load_snapshot_opened clock bytes s (Rep_Sentinels _ _ (WF_rep _ _ HW)))
    as (s1 & _ & HR1 & Hsn & Hm & Hsz & ->).
  assert (Hc1 : capacity s1 = capacity s) by apply Hsn.
  assert (HW1 : WF s1 []).
  { eapply WF_nil; try eassumption. apply HW. }
  pose proof (WF_cap _ _ HW) as Hcap.
  unfold reads_initialised.
  destruct (read_u32 (mkIfstream bytes false)) as [[version|] f1];
    destruct (read_u32 f1) as [[count|] f2]; try reflexivity.
  - case_decide; [eauto|]. rewrite Hc1.
    pose proof (load_entries_reads clock (Z.to_nat (Z.min count (capacity s))) 0 f2 s1 []
                  HW1 ltac:(lia)) as Hrd.
    destruct (reads_sizes (Z.to_nat (Z.min count (capacity s))) f2).
    + destruct Hrd as [[f' s'] ->]. eauto.
    + rewrite Hrd. reflexivity.
  - case_decide; [eauto|reflexivity].
Qed.

(** A call that uses an uninitialised local is undefined. *)
Lemma unread_local_undefined (s : LRUCache) (o : operation) :
  reachable s -> well_read (capacity s) o = false -> apply_operation o s = None.
Proof.
  intros Hreach Ho. destruct (reachable_WF s Hreach) as [L HW].
  destruct o as [now k v0|now k v| k | |clock file]; try discriminate.
  simpl in *. pose proof (load_snapshot_reads clock file s L HW) as H.
  rewrite Ho in H. rewrite H. reflexivity.
Qed.

(** X6: in every reachable state, every call of the interface is defined,
    but for a [load_snapshot] that uses one of its locals after the read of
    it failed: it dereferences no null pointer and no pointer to a node that
    is not allocated.  The state after it is reachable, the capacity is the
    same, and the number of nodes between the sentinels is [current_size],
    within the capacity. *)
Theorem every_call_returns (s : LRUCache) (o : operation) :
  reachable s -> well_read (capacity s) o = true ->
  exists s' n,
    apply_operation o s = Some s' /\ reachable s'
    /\ capacity s' = capacity s
    /\ list_length (S n) s' = Some n
    /\ current_size s' = Z.of_nat n /\ current_size s' <= capacity s'.
Proof.
  intros Hreach Ho. destruct (reachable_WF s Hreach) as [L HW].
  assert (Hrun : exists s', apply_operation o s = Some s').
  { destruct (is_load o) eqn:Hl; [|exact (apply_operation_returns o s L Hl HW)].
    destruct o as [now k v0|now k v| k | |clock file]; try discriminate.
    simpl in *. pose proof (load_snapshot_reads clock file s L HW) as H.
    rewrite Ho in H. destruct H as [[r s'] ->]. eauto. }
  destruct Hrun as [s' Hrun].
  destruct (WF_apply_operation o s L s' HW Hrun) as (L' & HW' & Hc).
  exists s', (length L'). split; [exact Hrun|].
  split; [eapply reachable_step; eassumption|]. split; [exact Hc|].
  split; [apply list_length_Rep; [apply HW'|lia]|].
  split; [apply HW'|apply HW'].
Qed.

Lemma every_call_returns_witness :
  exists s' n,
    apply_operation (CallLoad (fun _ => 0) (Some duplicate_stream)) engine_ab
    = Some s'
    /\ reachable s'
    /\ capacity s' = capacity engine_ab
    /\ list_length (S n) s' = Some n
    /\ current_size s' = Z.of_nat n /\ current_size s' <= capacity s'.
Proof.
  apply (every_call_returns engine_ab
           (CallLoad (fun _ => 0) (Some duplicate_stream))).
  - exact reachable_engine_ab.
  - vm_compute. reflexivity.
Defined.

(** ** The engine and its model *)

Lemma fwd_unique s t L :
  forall x L', t ∉ L -> t ∉ L' ->
    fwd s x (L ++ [t]) -> fwd s x (L' ++ [t]) -> L = L'.
Proof.
  induction L as [|y L IH]; intros x L' Ht Ht' Hf Hf'.
  - destruct L' as [|y' L']; [reflexivity|]. simpl in Hf, Hf'.
    destruct Hf as [Hf _], Hf' as [Hf' _]. exfalso. apply Ht'.
    assert (y' = t) by congruence. subst y'. apply list_elem_of_here.
  - destruct L' as [|y' L']; simpl in Hf, Hf'.
    + destruct Hf as [Hf _], Hf' as [Hf' _]. exfalso. apply Ht.
      assert (y = t) by congruence. subst y. apply list_elem_of_here.
    + destruct Hf as [Hf Hr], Hf' as [Hf' Hr'].
      assert (y' = y) by congruence. subst y'. f_equal.
      apply (IH y L'); [| |exact Hr|exact Hr'].
      * intros H. apply Ht, list_elem_of_further, H.
      * intros H. apply Ht', list_elem_of_further, H.
Qed.

(** The list that a state represents is unique. *)
Lemma Rep_unique s L L' : Rep s L -> Rep s L' -> L = L'.
Proof.
  intros HR HR'.
  assert (Ht : forall X, Rep s X -> tail s ∉ X).
  { intros X HX Hin. destruct (Rep_not_sentinel _ _ _ HX Hin) as [_ H]. apply H. reflexivity. }
  apply (fwd_unique s (tail s) L (head s) L'); [apply Ht, HR|apply Ht, HR'| |].
  - apply HR.
  - apply HR'.
Qed.

Lemma assoc_None k (m : list (string * string)) : assoc k m = None <-> k ∉ m.*1.
Proof.
  induction m as [|[k' v] m IH]; simpl.
  - split; [intros _ H; apply elem_of_nil in H; contradiction|reflexivity].
  - destruct (decide (k' = k)) as [->|Hne].
    + split; [discriminate|]. intros H. exfalso. apply H, list_elem_of_here.
    + rewrite IH. split.
      * intros H Hin. apply elem_of_cons in Hin as [->|Hin]; [congruence|contradiction].
      * intros H Hin. apply H, list_elem_of_further, Hin.
Qed.


Lemma assoc_app k (m1 m2 : list (string * string)) :
  assoc k (m1 ++ m2) = match assoc k m1 with
                       | Some v => Some v
                       | None => assoc k m2
                       end.
Proof.
  induction m1 as [|[k' v] m1 IH]; simpl; [reflexivity|].
  destruct (decide (k' = k)); [reflexivity|exact IH].
Qed.

Lemma assoc_middle k v (m1 m2 : list (string * string)) :
  k ∉ m1.*1 -> assoc k (m1 ++ (k, v) :: m2) = Some v.
Proof.
  intros H. rewrite assoc_app. apply assoc_None in H. rewrite H. simpl.
  rewrite decide_True by reflexivity. reflexivity.
Qed.

Lemma remove_key_notin k (m : list (string * string)) : k ∉ m.*1 -> remove_key k m = m.
Proof.
  unfold remove_key. induction m as [|[k' v] m IH]; intros H; [reflexivity|].
  rewrite filter_cons. simpl. rewrite fmap_cons in H. simpl in H.
  rewrite decide_True.
  - f_equal. apply IH. intros Hin. apply H, list_elem_of_further, Hin.
  - intros ->. apply H, list_elem_of_here.
Qed.

Lemma remove_key_middle k v (m1 m2 : list (string * string)) :
  k ∉ m1.*1 -> k ∉ m2.*1 -> remove_key k (m1 ++ (k, v) :: m2) = m1 ++ m2.
Proof.
  intros H1 H2. unfold remove_key. rewrite filter_app, filter_cons. simpl.
  rewrite decide_False by (intros H; apply H; reflexivity).
  fold (remove_key k m1). fold (remove_key k m2).
  rewrite !remove_key_notin by assumption. reflexivity.
Qed.

(** The pairs of a list around one of its nodes. *)
Lemma Contents_split s L1 n L2 (m : list (string * string)) :
  Contents s (L1 ++ n :: L2) m ->
  exists K1 kv K2 e,
    m = K1 ++ kv :: K2 /\ Contents s L1 K1 /\ Contents s L2 K2
    /\ key_of s n = Some kv.1 /\ entry_of s n = Some (Some e) /\ value e = kv.2.
Proof.
  intros HC. apply Forall2_app_inv_l in HC as (K1 & K' & HC1 & HC' & ->).
  apply Forall2_cons_inv_l in HC' as (kv & K2 & (Hk & e & He & Hv) & HC2 & ->).
  exists K1, kv, K2, e. auto 10.
Qed.

Lemma NoDup_keys_middle (K1 K2 : list (string * string)) k v :
  NoDup ((K1 ++ (k, v) :: K2).*1) -> (k ∉ K1.*1) /\ (k ∉ K2.*1).
Proof.
  rewrite fmap_app, fmap_cons. simpl. intros H.
  apply NoDup_app in H as (_ & Hd & H2). apply NoDup_cons in H2 as [H2 _].
  split; [|exact H2]. intros Hin. apply (Hd k Hin), list_elem_of_here.
Qed.

(** The pairs of the list after a node has been moved to the front with a
    new entry. *)
Lemma Contents_touched s L1 n L2 K1 K2 k e s' :
  NoDup (L1 ++ n :: L2) -> Contents s L1 K1 -> Contents s L2 K2 ->
  key_of s n = Some k -> touched s n e s' ->
  Contents s' (n :: L1 ++ L2) ((k, value e) :: K1 ++ K2).
Proof.
  intros Hnd HC1 HC2 Hk (_ & _ & _ & _ & _ & Hks & Hen).
  apply NoDup_app in Hnd as (_ & Hd & Hnd2). apply NoDup_cons in Hnd2 as [Hn2 _].
  constructor.
  - simpl. split; [rewrite Hks; exact Hk|]. exists e. split; [|reflexivity].
    rewrite Hen, decide_True by reflexivity. reflexivity.
  - apply Forall2_app.
    + eapply Contents_frame; [|exact HC1]. intros l Hl. split; [apply Hks|].
      rewrite Hen, decide_False; [reflexivity|].
      intros ->. apply (Hd n Hl), list_elem_of_here.
    + eapply Contents_frame; [|exact HC2]. intros l Hl. split; [apply Hks|].
      rewrite Hen, decide_False; [reflexivity|]. intros ->. contradiction.
Qed.

Lemma Models_get s m now k value0 :
  Models s m ->
  exists s',
    get now k value0 s = Some (get_result (assoc k m) value0, s')
    /\ Models s' (model_get k m) /\ capacity s' = capacity s.
Proof.
  intros (L & HI & HC). pose proof (proj1 HI) as HW.
  pose proof (Inv_NoDup_keys _ _ _ HI HC) as Hnd.
  unfold model_get. destruct (cache_map s !! k) as [n|] eqn:Hk.
  - destruct (WF_map _ _ HW _ _ Hk) as [Hin Hkey].
    apply list_elem_of_split in Hin as (L1 & L2 & ->).
    destruct (Contents_split _ _ _ _ _ HC)
      as (K1 & [k0 v0] & K2 & e & -> & HC1 & HC2 & Hk0 & He & Hv).
    simpl in Hk0, Hv. assert (k0 = k) by congruence. subst k0 v0.
    destruct (NoDup_keys_middle _ _ _ _ Hnd) as [Hn1 Hn2].
    rewrite assoc_middle by exact Hn1. rewrite remove_key_middle by assumption.
    destruct (get_hit s L1 n L2 now k value0 e HW Hk He) as (s' & Hrun & HR & Ht).
    exists s'. split; [exact Hrun|]. split; [|apply Ht].
    exists (n :: L1 ++ L2). split.
    + eapply Inv_touched; try eassumption. apply Permutation_middle.
    + apply (Contents_touched s L1 n L2 K1 K2 k _ s'
               (Rep_NoDup _ _ (WF_rep _ _ HW)) HC1 HC2 Hkey Ht).
  - assert (Ha : assoc k m = None).
    { apply assoc_None. rewrite <- (Inv_index _ _ _ k HI HC), Hk.
      intros [x Hx]; discriminate. }
    rewrite Ha. exists s. split; [apply get_miss, Hk|]. split; [|reflexivity].
    exists L. split; assumption.
Qed.

Lemma Models_put s m now k v :
  Models s m ->
  exists s',
    put now k v s = Some (tt, s')
    /\ Models s' (model_put (capacity s) k v m) /\ capacity s' = capacity s.
Proof.
  intros (L & HI & HC). pose proof (proj1 HI) as HW.
  pose proof (Inv_NoDup_keys _ _ _ HI HC) as Hnd.
  unfold model_put. destruct (cache_map s !! k) as [n|] eqn:Hk.
  - destruct (WF_map _ _ HW _ _ Hk) as [Hin Hkey].
    apply list_elem_of_split in Hin as (L1 & L2 & ->).
    destruct (Contents_split _ _ _ _ _ HC)
      as (K1 & [k0 v0] & K2 & e & -> & HC1 & HC2 & Hk0 & He & Hv).
    simpl in Hk0, Hv. assert (k0 = k) by congruence. subst k0 v0.
    destruct (NoDup_keys_middle _ _ _ _ Hnd) as [Hn1 Hn2].
    rewrite assoc_middle by exact Hn1. rewrite remove_key_middle by assumption.
    destruct (put_present s L1 n L2 now k v e HW Hk He) as (s' & Hrun & HR & Ht).
    exists s'. split; [exact Hrun|]. split; [|apply Ht].
    exists (n :: L1 ++ L2). split.
    + eapply Inv_touched; try eassumption. apply Permutation_middle.
    + apply (Contents_touched s L1 n L2 K1 K2 k
               (mkCacheEntry v now (wrap64 (access_count e + 1))) s'
               (Rep_NoDup _ _ (WF_rep _ _ HW)) HC1 HC2 Hkey Ht).
  - assert (Ha : assoc k m = None).
    { apply assoc_None. rewrite <- (Inv_index _ _ _ k HI HC), Hk.
      intros [x Hx]; discriminate. }
    rewrite Ha.
    destruct (Inv_put_absent s L m now k v HI HC Hk) as (s' & L' & Hrun & HI' & HC' & Hc).
    exists s'. split; [exact Hrun|]. split; [|exact Hc]. exists L'. split; assumption.
Qed.

Lemma Models_remove s m k :
  Models s m ->
  exists s',
    remove k s = Some (bool_decide (is_Some (assoc k m)), s')
    /\ Models s' (remove_key k m) /\ capacity s' = capacity s.
Proof.
  intros (L & HI & HC). pose proof (proj1 HI) as HW.
  pose proof (Inv_NoDup_keys _ _ _ HI HC) as Hnd.
  destruct (cache_map s !! k) as [n|] eqn:Hk.
  - destruct (WF_map _ _ HW _ _ Hk) as [Hin Hkey].
    destruct (Inv_remove s L k HI) as (r & s1 & L' & Hrun1 & HI' & Hc).
    apply list_elem_of_split in Hin as (L1 & L2 & ->).
    destruct (Contents_split _ _ _ _ _ HC)
      as (K1 & [k0 v0] & K2 & e & -> & HC1 & HC2 & Hk0 & He & Hv).
    simpl in Hk0, Hv. assert (k0 = k) by congruence. subst k0 v0.
    destruct (NoDup_keys_middle _ _ _ _ Hnd) as [Hn1 Hn2].
    rewrite assoc_middle by exact Hn1. rewrite remove_key_middle by assumption.
    rewrite bool_decide_eq_true_2 by eauto.
    destruct (remove_hit s L1 n L2 k (WF_rep _ _ HW) Hk)
      as (s' & Hrun & HR & (_ & _ & _ & Hks & Hes) & _).
    assert (s1 = s') by congruence. subst s1.
    assert (L' = L1 ++ L2) by (eapply Rep_unique; [apply HI'|exact HR]). subst L'.
    exists s'. split; [exact Hrun|]. split; [|exact Hc].
    exists (L1 ++ L2). split; [exact HI'|].
    apply Forall2_app; (eapply Contents_frame; [|eassumption]); intros l _; auto.
  - assert (Ha : assoc k m = None).
    { apply assoc_None. rewrite <- (Inv_index _ _ _ k HI HC), Hk.
      intros [x Hx]; discriminate. }
    rewrite Ha. rewrite bool_decide_eq_false_2 by (intros [x Hx]; discriminate).
    rewrite remove_key_notin by (apply assoc_None, Ha).
    exists s. split; [apply remove_miss, Hk|]. split; [|reflexivity].
    exists L. split; assumption.
Qed.

Lemma Models_size s m : Models s m -> current_size s = Z.of_nat (length m).
Proof.
  intros (L & HI & HC). rewrite (WF_size _ _ (proj1 HI)), (Contents_length _ _ _ HC).
  reflexivity.
Qed.

Lemma Models_serve s m q :
  Models s m ->
  exists s',
    serve q s = Some (fst (model_serve (capacity s) q m), s')
    /\ Models s' (snd (model_serve (capacity s) q m)) /\ capacity s' = capacity s.
Proof.
  intros HM. destruct q as [now k value0|now k v|k| | |]; simpl.
  - destruct (Models_get s m now k value0 HM) as (s' & Hrun & HM' & Hc).
    exists s'. split; [|split; assumption]. unfold bind. rewrite Hrun. reflexivity.
  - destruct (Models_put s m now k v HM) as (s' & Hrun & HM' & Hc).
    exists s'. split; [|split; assumption]. unfold bind. rewrite Hrun. reflexivity.
  - destruct (Models_remove s m k HM) as (s' & Hrun & HM' & Hc).
    exists s'. split; [|split; assumption]. unfold bind. rewrite Hrun. reflexivity.
  - destruct HM as (L & HI & _). destruct (Inv_clear s L HI) as (s' & Hrun & HI' & Hc).
    exists s'. split; [unfold bind; rewrite Hrun; reflexivity|]. split; [|exact Hc].
    exists []. split; [exact HI'|constructor].
  - exists s. split; [|split; [exact HM|reflexivity]].
    unfold bind, size, read, ret. rewrite (Models_size s m HM). reflexivity.
  - exists s. split; [|split; [exact HM|reflexivity]].
    unfold bind, empty, read, ret. rewrite (Models_size s m HM). do 3 f_equal.
    destruct m as [|kv m]; [reflexivity|].
    rewrite bool_decide_eq_false_2 by discriminate. simpl length.
    destruct (Z.eqb_spec (Z.of_nat (S (length m))) 0); [lia|reflexivity].
Qed.

Lemma Models_serve_all qs :
  forall s m,
    Models s m ->
    exists s',
      serve_all qs s = Some (fst (model_serve_all (capacity s) qs m), s')
      /\ Models s' (snd (model_serve_all (capacity s) qs m))
      /\ capacity s' = capacity s.
Proof.
  induction qs as [|q qs IH]; intros s m HM; simpl.
  - exists s. split; [reflexivity|]. split; [exact HM|reflexivity].
  - destruct (Models_serve s m q HM) as (s1 & Hrun1 & HM1 & Hc1).
    destruct (model_serve (capacity s) q m) as [r m1]. simpl in Hrun1, HM1.
    destruct (IH s1 m1 HM1) as (s' & Hrun & HM' & Hc). rewrite Hc1 in Hrun, HM'.
    destruct (model_serve_all (capacity s) qs m1) as [rs m']. simpl in Hrun, HM'.
    exists s'. split; [|split; [exact HM'|congruence]].
    unfold bind. rewrite Hrun1, Hrun. reflexivity.
Qed.

(** X7: the engine refines the association list.  For every sequence of
    calls of [get], [put], [remove], [clear], [size] and [empty] on a new
    engine of capacity [C], every call returns what the same call returns on
    the list of pairs ordered from the most to the least recently used, where
    a hit of [get] and a [put] move the pair to the front and a [put] of a new
    key keeps the first [C - 1] pairs behind it; the engine ends with the
    strong invariant and with the pairs of the model in its list. *)
Theorem engine_refines_model (C : Z) (qs : list request) :
  0 < C < 2 ^ 64 ->
  exists s0 s,
    new_LRUCache C = Some s0
    /\ serve_all qs s0 = Some (fst (model_serve_all C qs []), s)
    /\ Models s (snd (model_serve_all C qs [])).
Proof.
  intros HC. destruct (new_LRUCache_Inv C HC) as (s0 & Hnew & HI0 & Hc0).
  assert (HM0 : Models s0 []) by (exists []; split; [exact HI0|constructor]).
  destruct (Models_serve_all qs s0 [] HM0) as (s & Hrun & HM & _).
  rewrite Hc0 in Hrun, HM. exists s0, s. auto.
Qed.

Lemma engine_refines_model_witness :
  exists s0 s,
    new_LRUCache 2 = Some s0
    /\ serve_all [ReqPut 1 "a" "1"; ReqPut 2 "b" "2"; ReqGet 3 "a" "";
                  ReqPut 4 "c" "3"; ReqGet 5 "b" ""; ReqSize] s0
       = Some ([PutReply; PutReply; GetReply (true, "1"); PutReply;
                GetReply (false, ""); SizeReply 2], s)
    /\ Models s [("c", "3"); ("a", "1")].
Proof.
  apply (engine_refines_model 2
           [ReqPut 1 "a" "1"; ReqPut 2 "b" "2"; ReqGet 3 "a" "";
            ReqPut 4 "c" "3"; ReqGet 5 "b" ""; ReqSize]).
  lia.
Defined.

(** ** The eviction policy *)

Lemma Models_get_fst s m now k value0 :
  Models s m -> fst <$> get now k value0 s = Some (get_result (assoc k m) value0).
Proof.
  intros HM. destruct (Models_get s m now k value0 HM) as (s' & -> & _). reflexivity.
Qed.

Lemma Models_engine_ab : Models engine_ab [("b", "2"); ("a", "1")].
Proof.
  exists [4; 3]%positive. split.
  - apply Inv_check_sound. vm_compute. reflexivity.
  - apply Contents_check_sound. vm_compute. reflexivity.
Defined.



(** X9: a hit of [get] protects the key from the next eviction: in a cache
    of capacity 2 or more, after [get(k)] has found [k], a [put] of a key
    that is not in the cache leaves [k] in it, with its value, whether or not
    the cache is full and wherever [k] was in the list. *)
Theorem get_protects_from_eviction (s : LRUCache) (m : list (string * string))
    (now now' : time_point) (k value0 v k' v' : string) :
  Models s m -> 2 <= capacity s ->
  assoc k m = Some v -> assoc k' m = None ->
  exists s1 s2,
    get now k value0 s = Some ((true, v), s1)
    /\ put now' k' v' s1 = Some (tt, s2)
    /\ forall now'' value0', fst <$> get now'' k value0' s2 = Some (true, v).
Proof.
  intros HM Hcap Hk Hk'.
  assert (Hne : k' <> k) by (intros ->; congruence).
  destruct (Models_get s m now k value0 HM) as (s1 & Hget & HM1 & Hc1).
  rewrite Hk in Hget. unfold model_get in HM1. rewrite Hk in HM1.
  destruct (Models_put s1 _ now' k' v' HM1) as (s2 & Hput & HM2 & _).
  unfold model_put in HM2.
  assert (Ha : assoc k' ((k, v) :: remove_key k m) = None).
  { apply assoc_None. rewrite fmap_cons. simpl. intros Hin.
    apply elem_of_cons in Hin as [->|Hin]; [congruence|].
    apply assoc_None in Hk'. apply Hk'.
    apply list_elem_of_fmap in Hin as (kv & -> & Hin).
    apply list_elem_of_filter in Hin as [_ Hin].
    apply list_elem_of_fmap. exists kv. auto. }
  rewrite Ha in HM2. rewrite Hc1 in HM2.
  replace (Z.to_nat (capacity s) - 1)%nat with (S (Z.to_nat (capacity s) - 2)) in HM2
    by lia.
  rewrite firstn_cons in HM2.
  exists s1, s2. split; [exact Hget|]. split; [exact Hput|].
  intros now'' value0'. rewrite (Models_get_fst _ _ _ _ _ HM2). simpl.
  rewrite decide_False by exact Hne. rewrite decide_True by reflexivity. reflexivity.
Qed.

Lemma get_protects_from_eviction_witness :
  exists s1 s2,
    get 3 "a" "" engine_ab = Some ((true, "1"), s1)
    /\ put 4 "c" "3" s1 = Some (tt, s2)
    /\ forall now'' value0', fst <$> get now'' "a" value0' s2 = Some (true, "1").
Proof.
  apply (get_protects_from_eviction engine_ab [("b", "2"); ("a", "1")] 3 4
           "a" "" "1" "c" "3").
  - exact Models_engine_ab.
  - vm_compute. discriminate.
  - vm_compute. reflexivity.
  - vm_compute. reflexivity.
Defined.

(** ** Snapshots of well-formed streams *)

Lemma Contents_key_inj s J kvs l l' :
  Contents s J kvs -> NoDup kvs.*1 -> l ∈ J -> l' ∈ J ->
  key_of s l = key_of s l' -> l = l'.
Proof.
  intros HC. revert l l'.
  induction HC as [|x kv J kvs [Hk _] HC IH]; intros l l' Hnd Hl Hl' Heq.
  - apply elem_of_nil in Hl. contradiction.
  - rewrite fmap_cons in Hnd. apply NoDup_cons in Hnd as [Hkv Hnd].
    assert (Hout : forall y, y ∈ J -> key_of s y <> Some kv.1).
    { intros y Hy Hky.
      destruct (Contents_lookup _ _ _ _ HC Hy) as (kv' & e & Hin & Hk' & _).
      apply Hkv. apply list_elem_of_fmap. exists kv'. split; [congruence|exact Hin]. }
    apply elem_of_cons in Hl as [->|Hl]; apply elem_of_cons in Hl' as [->|Hl'].
    + reflexivity.
    + exfalso. apply (Hout l' Hl'). congruence.
    + exfalso. apply (Hout l Hl). congruence.
    + apply IH; assumption.
Qed.

(** A list without two nodes of the same key, all of them in the index,
    satisfies the strong invariant. *)
Lemma Inv_of_NoDup s J kvs :
  WF s J -> Contents s J kvs -> NoDup kvs.*1 ->
  (forall k, k ∈ kvs.*1 -> is_Some (cache_map s !! k)) -> Inv s J.
Proof.
  intros HW HC Hnd Hdom. split; [exact HW|]. intros l Hl.
  destruct (Contents_lookup _ _ _ _ HC Hl) as (kv & e & Hin & Hk & _).
  exists kv.1. split; [exact Hk|].
  destruct (Hdom kv.1) as [l' Hl'].
  { apply list_elem_of_fmap. exists kv. auto. }
  destruct (WF_map _ _ HW _ _ Hl') as [Hin' Hk'].
  rewrite Hl'. f_equal. apply (Contents_key_inj s J kvs l' l HC Hnd Hin' Hl). congruence.
Qed.

Lemma lookup_value_add_entry s L n k e s1 :
  WF s L -> inserted s n k e s1 -> cache_map s1 = <[k := n]> (cache_map s) ->
  forall k', lookup_value s1 k'
             = if decide (k' = k) then Some (value e) else lookup_value s k'.
Proof.
  intros HW (Hn & _ & _ & _ & Hkn & Hen & Ho) Hm k'. unfold lookup_value.
  rewrite Hm. destruct (decide (k' = k)) as [->|Hne].
  - rewrite lookup_insert_eq, Hen. reflexivity.
  - rewrite lookup_insert_ne by congruence.
    destruct (cache_map s !! k') as [n'|] eqn:Hk'; [|reflexivity].
    destruct (Ho n') as [_ ->]; [|reflexivity]. intros ->.
    destruct (WF_map _ _ HW _ _ Hk') as [Hin _].
    destruct (WF_entries _ _ HW _ Hin) as [e' He'].
    unfold entry_of in He'. rewrite Hn in He'. discriminate.
Qed.

(** What the index leads to after the loop of [load_snapshot]: for each key,
    the value of the last record that has it. *)
Lemma load_entries_lookup clock recs :
  forall i rest s L f' s',
    WF s L -> Forall fits32 recs ->
    current_size s + Z.of_nat (length recs) <= capacity s ->
    load_entries clock (length recs) i
      (mkIfstream (encode_entries recs ++ rest) false) s = Some (f', s') ->
    forall k, lookup_value s' k
              = match assoc k (reverse recs) with
                | Some v => Some v
                | None => lookup_value s k
                end.
Proof.
  induction recs as [|kv recs IH]; intros i rest s L f' s' HW Hfit Hle Hrun k0.
  - simpl in Hrun. injection Hrun as _ <-. reflexivity.
  - apply Forall_cons in Hfit as [Hkv Hfit]. simpl length in *.
    rewrite load_entries_S, encode_entries_cons, <- app_assoc in Hrun.
    rewrite read_record_app in Hrun by exact Hkv. destruct kv as [k v].
    destruct (add_entry_run s L k (new_CacheEntry (clock i) v) (WF_rep _ _ HW))
      as (s1 & Hrun1 & HR1 & Hins & Hm & Hsz).
    rewrite Hrun1 in Hrun.
    destruct (WF_add_entry _ _ _ _ _ _ HW ltac:(lia) HR1 Hins Hm Hsz) as [HW1 Hsz1].
    assert (Hle1 : current_size s1 + Z.of_nat (length recs) <= capacity s1).
    { destruct Hins as (_&_&_&->&_). lia. }
    rewrite (IH (S i) rest s1 _ f' s' HW1 Hfit Hle1 Hrun k0).
    rewrite reverse_cons, assoc_app.
    destruct (assoc k0 (reverse recs)); [reflexivity|].
    rewrite (lookup_value_add_entry s L _ k _ s1 HW Hins Hm k0). simpl.
    destruct (decide (k = k0)) as [->|Hne].
    + rewrite decide_True by reflexivity. reflexivity.
    + rewrite decide_False by congruence. reflexivity.
Qed.

(** [load_snapshot] of a stream that holds the records it is to read. *)
Lemma load_snapshot_complete clock s L count recs rest :
  WF s L -> 0 <= count < 2 ^ 32 -> Forall fits32 recs ->
  Z.of_nat (length recs) = Z.min count (capacity s) ->
  exists s' J,
    load_snapshot clock
      (Some (le32 1 ++ le32 count ++ encode_entries recs ++ rest)) s
    = Some (true, s')
    /\ WF s' J /\ Contents s' J (reverse recs) /\ capacity s' = capacity s
    /\ (forall k, is_Some (cache_map s' !! k) <-> k ∈ recs.*1)
    /\ (forall k, lookup_value s' k = assoc k (reverse recs)).
Proof.
  intros HW Hcount Hfit Hlen. pose proof (WF_cap _ _ HW) as Hcap.
  destruct (load_snapshot_opened clock
              (le32 1 ++ le32 count ++ encode_entries recs ++ rest) s
              (Rep_Sentinels _ _ (WF_rep _ _ HW)))
    as (s1 & _ & HR1 & Hsn & Hm & Hsz & ->).
  assert (Hc : capacity s1 = capacity s) by apply Hsn.
  assert (HW1 : WF s1 []).
  { eapply WF_nil; try eassumption. }
  rewrite read_u32_app by lia. rewrite read_u32_app by lia.
  rewrite decide_False by (intros H; apply H; reflexivity).
  rewrite Hc. replace (Z.to_nat (Z.min count (capacity s))) with (length recs) by lia.
  assert (Hle : current_size s1 + Z.of_nat (length recs) <= capacity s1) by lia.
  destruct (load_entries_complete clock recs 0%nat rest s1 [] HW1 Hfit Hle)
    as (s' & J & Hrun & HW' & HC' & Hg & Hdom).
  pose proof (load_entries_lookup clock recs 0%nat rest s1 [] _ s' HW1 Hfit Hle Hrun)
    as Hlook.
  rewrite Hrun. rewrite app_nil_r in HW'.
  exists s', J. split; [reflexivity|]. split; [exact HW'|]. split; [exact HC'|].
  split; [destruct Hg as (_ & _ & -> & _); exact Hc|]. split.
  - intros k. rewrite Hdom, Hm, lookup_empty. split; [|auto].
    intros [H|H]; [destruct H; discriminate|exact H].
  - intros k. rewrite Hlook. destruct (assoc k (reverse recs)); [reflexivity|].
    unfold lookup_value. rewrite Hm, lookup_empty. reflexivity.
Qed.

(** X10: [load_snapshot] of a stream of version 1 that holds the
    [min(count, capacity)] records it is to read, whatever follows them,
    returns [true] and replaces the content of the cache by these records:
    [current_size] is their number and [get] finds exactly their keys, each
    with the value of the last record that has the key. *)
Theorem load_snapshot_last_record_wins (clock : nat -> time_point)
    (s : LRUCache) (count : Z) (recs : list (string * string)) (rest : list ascii) :
  reachable s -> 0 <= count < 2 ^ 32 -> Forall fits32 recs ->
  Z.of_nat (length recs) = Z.min count (capacity s) ->
  exists s',
    load_snapshot clock
      (Some (le32 1 ++ le32 count ++ encode_entries recs ++ rest)) s
    = Some (true, s')
    /\ current_size s' = Z.of_nat (length recs)
    /\ forall (now : time_point) (k value0 : string),
         fst <$> get now k value0 s'
         = Some (get_result (assoc k (reverse recs)) value0).
Proof.
  intros Hreach Hcount Hfit Hlen. destruct (reachable_WF s Hreach) as [L HW].
  destruct (load_snapshot_complete clock s L count recs rest HW Hcount Hfit Hlen)
    as (s' & J & Hrun & HW' & HC' & _ & _ & Hlook).
  exists s'. split; [exact Hrun|]. split.
  - rewrite (WF_size _ _ HW'), (Contents_length _ _ _ HC'), length_reverse. reflexivity.
  - intros now k value0. rewrite (get_fst s' J now k value0 HW'), Hlook. reflexivity.
Qed.

Lemma load_snapshot_last_record_wins_witness :
  exists s',
    load_snapshot (fun _ => 0)
      (Some (le32 1 ++ le32 2 ++ encode_entries [("a", "1"); ("a", "2")]
             ++ list_ascii_of_string "junk")) engine_ab
    = Some (true, s')
    /\ current_size s' = 2
    /\ forall (now : time_point) (k value0 : string),
         fst <$> get now k value0 s'
         = Some (get_result (assoc k [("a", "2"); ("a", "1")]) value0).
Proof.
  apply (load_snapshot_last_record_wins (fun _ => 0) engine_ab 2
           [("a", "1"); ("a", "2")] (list_ascii_of_string "junk")).
  - exact reachable_engine_ab.
  - lia.
  - apply fits32_check_sound. vm_compute. reflexivity.
  - vm_compute. reflexivity.
Defined.

(** X11: [save_snapshot] writes the version 1, the number of entries and one
    record for each node of the list, from the head (the most recently used)
    to the tail, and changes nothing in the engine; when the file cannot be
    opened it throws, and changes nothing either.  The lengths of the keys and
    values and the number of entries are within the 32-bit fields. *)
Theorem save_snapshot_stream (s : LRUCache) (L : list loc)
    (kvs : list (string * string)) (fuel : nat) :
  WF s L -> Contents s L kvs -> Forall fits32 kvs ->
  current_size s < 2 ^ 32 -> (length L < fuel)%nat ->
  save_snapshot true fuel s
  = Some (Some (le32 1 ++ le32 (Z.of_nat (length kvs)) ++ encode_entries kvs), s)
  /\ save_snapshot false fuel s = Some (None, s).
Proof.
  intros HW HC Hfit Hsz Hfuel. split; [|apply save_snapshot_unopened].
  pose proof (WF_size _ _ HW) as Hs.
  rewrite <- (Contents_length _ _ _ HC), <- Hs.
  apply (save_snapshot_run s L kvs fuel); try assumption; [apply HW|lia].
Qed.

Lemma save_snapshot_stream_witness :
  save_snapshot true 3 engine_ab
  = Some (Some (le32 1 ++ le32 2 ++ encode_entries [("b", "2"); ("a", "1")]), engine_ab)
  /\ save_snapshot false 3 engine_ab = Some (None, engine_ab).
Proof.
  apply (save_snapshot_stream engine_ab [4; 3]%positive [("b", "2"); ("a", "1")] 3).
  - apply WF_check_sound. vm_compute. reflexivity.
  - apply Contents_check_sound. vm_compute. reflexivity.
  - apply fits32_check_sound. vm_compute. reflexivity.
  - vm_compute. reflexivity.
  - simpl. lia.
Defined.

(** Saving an engine and loading the file into an engine of the same
    capacity. *)
Lemma round_trip_Models clock fuel E m E' L' :
  Models E m -> Forall fits32 m -> Z.of_nat (length m) < 2 ^ 32 ->
  WF E' L' -> capacity E' = capacity E -> (length m < fuel)%nat ->
  exists E1,
    save_snapshot true fuel E
    = Some (Some (le32 1 ++ le32 (Z.of_nat (length m)) ++ encode_entries m), E)
    /\ load_snapshot clock
         (Some (le32 1 ++ le32 (Z.of_nat (length m)) ++ encode_entries m)) E'
       = Some (true, E1)
    /\ Models E1 (reverse m) /\ capacity E1 = capacity E.
Proof.
  intros HM Hfit Hlen HW' Hcap Hfuel.
  pose proof (Models_size _ _ HM) as Hsz. destruct HM as (L & HI & HC).
  pose proof (proj1 HI) as HW. pose proof (WF_bound _ _ HW) as Hb.
  pose proof (Contents_length _ _ _ HC) as HlenL.
  destruct (load_snapshot_complete clock E' L' (Z.of_nat (length m)) m [] HW')
    as (E1 & J & Hload & HW1 & HC1 & Hc1 & Hdom & _); [lia|exact Hfit|lia|].
  rewrite app_nil_r in Hload. exists E1. split; [|split; [exact Hload|split]].
  - rewrite <- Hsz. apply (save_snapshot_run E L m fuel); try assumption; [apply HW|lia|lia].
  - exists J. split; [|exact HC1]. apply (Inv_of_NoDup E1 J (reverse m) HW1 HC1).
    + rewrite fmap_reverse, reverse_Permutation. exact (Inv_NoDup_keys _ _ _ HI HC).
    + intros k Hk. apply Hdom. rewrite fmap_reverse, elem_of_reverse in Hk. exact Hk.
  - congruence.
Qed.

(** X12: [save_snapshot] writes the list from the head and [load_snapshot]
    links each record after the head, so a round trip reverses the order of
    recency: the engine loaded from the file of [E] holds the pairs of [E]
    with the least recently used one first, and so is the next to be evicted
    the pair that was used last.  A second round trip restores the order. *)
Theorem snapshot_reverses_recency (clock : nat -> time_point)
    (fuel : nat) (E : LRUCache) (m : list (string * string)) (E' : LRUCache) :
  Models E m -> Forall fits32 m -> Z.of_nat (length m) < 2 ^ 32 ->
  reachable E' -> capacity E' = capacity E -> (length m < fuel)%nat ->
  exists bytes E1 bytes1 E2,
    save_snapshot true fuel E = Some (Some bytes, E)
    /\ load_snapshot clock (Some bytes) E' = Some (true, E1)
    /\ Models E1 (reverse m)
    /\ save_snapshot true fuel E1 = Some (Some bytes1, E1)
    /\ load_snapshot clock (Some bytes1) E' = Some (true, E2)
    /\ Models E2 m.
Proof.
  intros HM Hfit Hlen Hreach Hcap Hfuel. destruct (reachable_WF E' Hreach) as [L' HW'].
  destruct (round_trip_Models clock fuel E m E' L' HM Hfit Hlen HW' Hcap Hfuel)
    as (E1 & Hsave & Hload & HM1 & Hc1).
  destruct (round_trip_Models clock fuel E1 (reverse m) E' L' HM1)
    as (E2 & Hsave1 & Hload1 & HM2 & _).
  { apply Forall_reverse, Hfit. }
  { rewrite length_reverse. exact Hlen. }
  { exact HW'. }
  { congruence. }
  { rewrite length_reverse. exact Hfuel. }
  rewrite reverse_involutive in HM2.
  eexists _, E1, _, E2. split; [exact Hsave|]. split; [exact Hload|].
  split; [exact HM1|]. split; [exact Hsave1|]. split; [exact Hload1|exact HM2].
Qed.

Lemma snapshot_reverses_recency_witness :
  exists bytes E1 bytes1 E2,
    save_snapshot true 3 engine_ab = Some (Some bytes, engine_ab)
    /\ load_snapshot (fun _ => 0) (Some bytes) (engine 2) = Some (true, E1)
    /\ Models E1 [("a", "1"); ("b", "2")]
    /\ save_snapshot true 3 E1 = Some (Some bytes1, E1)
    /\ load_snapshot (fun _ => 0) (Some bytes1) (engine 2) = Some (true, E2)
    /\ Models E2 [("b", "2"); ("a", "1")].
Proof.
  apply (snapshot_reverses_recency (fun _ => 0) 3 engine_ab
           [("b", "2"); ("a", "1")] (engine 2)).
  - exact Models_engine_ab.
  - apply fits32_check_sound. vm_compute. reflexivity.
  - vm_compute. reflexivity.
  - exists 2, [], (engine 2). split; [lia|]. split; vm_compute; reflexivity.
  - vm_compute. reflexivity.
  - simpl. lia.
Defined.

(** ** The counters of the store *)

Lemma put_size s L now k v :
  WF s L ->
  exists s',
    put now k v s = Some (tt, s')
    /\ (is_Some (cache_map s !! k) ->
        current_size s' = current_size s /\ cache_map s' = cache_map s)
    /\ (cache_map s !! k = None -> current_size s < capacity s ->
        current_size s' = current_size s + 1)
    /\ (cache_map s !! k = None -> capacity s <= current_size s ->
        current_size s' = current_size s).
Proof.
  intros HW. destruct (cache_map s !! k) as [n|] eqn:Hk.
  - destruct (WF_map _ _ HW _ _ Hk) as [Hin _].
    destruct (WF_entries _ _ HW _ Hin) as [e He].
    apply list_elem_of_split in Hin as (L1 & L2 & ->).
    destruct (put_present s L1 n L2 now k v e HW Hk He)
      as (s' & Hrun & _ & (Em & _ & _ & _ & Es & _)).
    exists s'. split; [exact Hrun|]. split; [auto|]. split; discriminate.
  - destruct (put_absent s L now k v HW Hk)
      as (s' & n & L' & Hrun & _ & _ & Hsz & Hcase).
    pose proof (WF_size _ _ HW) as Hs.
    exists s'. split; [exact Hrun|].
    split; [intros [x Hx]; discriminate|]. split; intros _ Hcmp.
    + destruct Hcase as [(_ & -> & _)|(Hfull & _)]; lia.
    + destruct Hcase as [(Hlt & _)|(_ & t & kt & -> & _)]; [lia|].
      rewrite length_app in Hs. simpl in Hs. lia.
Qed.

(** X13: [KVStore::put] counts an eviction whenever [size] has not grown:
    when the cache was full and a pair was evicted, but also whenever the key
    was in the cache already, where the value is overwritten and nothing is
    evicted.  It counts none for a new key that finds room.  The capacity is
    below the greatest [size_t]. *)
Theorem store_put_counts_evictions (st : KVStore) (now : time_point) (k v : string) :
  reachable (cache_ st) -> capacity (cache_ st) < 2 ^ 64 - 1 ->
  exists st',
    KVStoreOps.put now k v st = Some (tt, st')
    /\ put now k v (cache_ st) = Some (tt, cache_ st')
    /\ (is_Some (cache_map (cache_ st) !! k) ->
        evictions (metrics_ st') = wrap64 (evictions (metrics_ st) + 1)
        /\ current_size (cache_ st') = current_size (cache_ st)
        /\ cache_map (cache_ st') = cache_map (cache_ st))
    /\ (cache_map (cache_ st) !! k = None ->
        current_size (cache_ st) < capacity (cache_ st) ->
        evictions (metrics_ st') = evictions (metrics_ st)
        /\ current_size (cache_ st') = current_size (cache_ st) + 1)
    /\ (cache_map (cache_ st) !! k = None ->
        capacity (cache_ st) <= current_size (cache_ st) ->
        evictions (metrics_ st') = wrap64 (evictions (metrics_ st) + 1)
        /\ current_size (cache_ st') = current_size (cache_ st)).
Proof.
  intros Hreach Hcap. destruct (reachable_WF _ Hreach) as [L HW].
  destruct st as [c m f]. simpl in *.
  destruct (put_size c L now k v HW) as (c' & Hrun & Hpres & Hroom & Hfull).
  pose proof (WF_size _ _ HW) as Hs. pose proof (WF_bound _ _ HW) as Hb.
  unfold KVStoreOps.put, kbind, on_metrics, on_cache, kret, size, read. simpl.
  rewrite Hrun. cbn [cache_ metrics_ snapshot_file_]. rewrite wrap64_small by lia.
  destruct (cache_map c !! k) as [n|] eqn:Hk.
  - destruct Hpres as [Es Em]; [eauto|].
    rewrite decide_True by lia. eexists. split; [reflexivity|]. simpl.
    split; [reflexivity|]. split; [auto|]. split; discriminate.
  - destruct (decide (current_size c < capacity c)) as [Hlt|Hge].
    + rewrite (Hroom eq_refl Hlt). rewrite decide_False by lia.
      eexists. split; [reflexivity|]. simpl. split; [reflexivity|].
      split; [intros [x Hx]; discriminate|]. split; [auto|]. intros _ ?. lia.
    + rewrite (Hfull eq_refl ltac:(lia)). rewrite decide_True by lia.
      eexists. split; [reflexivity|]. simpl. split; [reflexivity|].
      split; [intros [x Hx]; discriminate|]. split; [intros _ ?; lia|]. auto.
Qed.

Lemma store_put_counts_evictions_witness :
  exists st',
    KVStoreOps.put 3 "a" "x" store_ab = Some (tt, st')
    /\ put 3 "a" "x" (cache_ store_ab) = Some (tt, cache_ st')
    /\ (is_Some (cache_map (cache_ store_ab) !! "a") ->
        evictions (metrics_ st') = wrap64 (evictions (metrics_ store_ab) + 1)
        /\ current_size (cache_ st') = current_size (cache_ store_ab)
        /\ cache_map (cache_ st') = cache_map (cache_ store_ab))
    /\ (cache_map (cache_ store_ab) !! "a" = None ->
        current_size (cache_ store_ab) < capacity (cache_ store_ab) ->
        evictions (metrics_ st') = evictions (metrics_ store_ab)
        /\ current_size (cache_ st') = current_size (cache_ store_ab) + 1)
    /\ (cache_map (cache_ store_ab) !! "a" = None ->
        capacity (cache_ store_ab) <= current_size (cache_ store_ab) ->
        evictions (metrics_ st') = wrap64 (evictions (metrics_ store_ab) + 1)
        /\ current_size (cache_ st') = current_size (cache_ store_ab)).
Proof.
  apply (store_put_counts_evictions store_ab 3 "a" "x").
  - exact reachable_engine_ab.
  - vm_compute. reflexivity.
Defined.

Lemma wrap64_add_l a b : wrap64 (wrap64 a + b) = wrap64 (a + b).
Proof. unfold wrap64. apply Zplus_mod_idemp_l. Qed.

Lemma wrap64_add_r a b : wrap64 (a + wrap64 b) = wrap64 (a + b).
Proof. unfold wrap64. apply Zplus_mod_idemp_r. Qed.

Lemma store_apply_counts c st :
  reachable (cache_ st) ->
  exists st',
    store_apply c st = Some (tt, st') /\ reachable (cache_ st')
    /\ total_operations (metrics_ st') = wrap64 (total_operations (metrics_ st) + 1)
    /\ wrap64 (cache_hits (metrics_ st') + cache_misses (metrics_ st'))
       = wrap64 (cache_hits (metrics_ st) + cache_misses (metrics_ st)
                 + (if is_store_get c then 1 else 0)).
Proof.
  intros Hreach. destruct (reachable_WF _ Hreach) as [L HW].
  destruct st as [s m f]. simpl in *. destruct c as [now k value0|now k v|k].
  - destruct (WF_get s L now k value0 HW) as (r & s' & L' & Hrun & _).
    assert (Hreach' : reachable s').
    { apply (reachable_step (CallGet now k value0) s s' Hreach). simpl.
      rewrite Hrun. reflexivity. }
    unfold store_apply, KVStoreOps.get, kbind, on_metrics, on_cache, kret. simpl.
    rewrite Hrun. destruct r as [[] v']; simpl; eexists;
      (split; [reflexivity|]); simpl; (split; [exact Hreach'|]);
      (split; [reflexivity|]).
    + rewrite wrap64_add_l. f_equal. lia.
    + rewrite wrap64_add_r. f_equal. lia.
  - destruct (WF_put s L now k v HW) as (s' & L' & Hrun & _).
    assert (Hreach' : reachable s').
    { apply (reachable_step (CallPut now k v) s s' Hreach). simpl.
      rewrite Hrun. reflexivity. }
    unfold store_apply, KVStoreOps.put, kbind, on_metrics, on_cache, kret, size, read.
    simpl. rewrite Hrun. case_decide; eexists; (split; [reflexivity|]); simpl;
      (split; [exact Hreach'|]); (split; [reflexivity|]); f_equal; lia.
  - destruct (WF_remove s L k HW) as (r & s' & L' & Hrun & _).
    assert (Hreach' : reachable s').
    { apply (reachable_step (CallRemove k) s s' Hreach). simpl.
      rewrite Hrun. reflexivity. }
    unfold store_apply, KVStoreOps.remove, kbind, on_metrics, on_cache, kret. simpl.
    rewrite Hrun. eexists. split; [reflexivity|]. simpl.
    split; [exact Hreach'|]. split; [reflexivity|]. f_equal. lia.
Qed.

(** X14: over any sequence of calls of [get], [put] and [remove] of the
    store, every call returns, [total_operations] grows by the number of
    calls and [cache_hits + cache_misses] by the number of calls of [get],
    modulo 2^64. *)
Theorem store_counters_add_up (cs : list store_call) (st : KVStore) :
  reachable (cache_ st) ->
  exists st',
    store_apply_all cs st = Some (tt, st')
    /\ wrap64 (total_operations (metrics_ st'))
       = wrap64 (total_operations (metrics_ st) + Z.of_nat (length cs))
    /\ wrap64 (cache_hits (metrics_ st') + cache_misses (metrics_ st'))
       = wrap64 (cache_hits (metrics_ st) + cache_misses (metrics_ st)
                 + Z.of_nat (count_gets cs)).
Proof.
  revert st. induction cs as [|c cs IH]; intros st Hreach.
  - exists st. split; [reflexivity|]. unfold count_gets. simpl. rewrite !Z.add_0_r.
    split; reflexivity.
  - destruct (store_apply_counts c st Hreach) as (st1 & Hrun1 & Hreach1 & Ht1 & Hg1).
    destruct (IH st1 Hreach1) as (st' & Hrun & Ht & Hg).
    exists st'. split; [|split].
    + simpl. unfold kbind. rewrite Hrun1. exact Hrun.
    + rewrite Ht, Ht1, wrap64_add_l. f_equal. simpl length. lia.
    + rewrite Hg. rewrite <- wrap64_add_l, Hg1, wrap64_add_l. f_equal.
      unfold count_gets. simpl. destruct (is_store_get c); simpl length; lia.
Qed.

Lemma store_counters_add_up_witness :
  exists st',
    store_apply_all [StoreGet 3 "a" ""; StorePut 4 "c" "3"; StoreGet 5 "b" "";
                     StoreRemove "c"] store_ab = Some (tt, st')
    /\ wrap64 (total_operations (metrics_ st'))
       = wrap64 (total_operations (metrics_ store_ab) + 4)
    /\ wrap64 (cache_hits (metrics_ st') + cache_misses (metrics_ st'))
       = wrap64 (cache_hits (metrics_ store_ab) + cache_misses (metrics_ store_ab) + 2).
Proof.
  apply (store_counters_add_up
           [StoreGet 3 "a" ""; StorePut 4 "c" "3"; StoreGet 5 "b" ""; StoreRemove "c"]
           store_ab).
  exact reachable_engine_ab.
Defined.

(** ** The store and its snapshot file *)

(** X15: a store with a snapshot file that is destroyed, and constructed
    again with the same capacity and the file that the destructor wrote,
    holds the same pairs, in the reverse order of recency, with new
    counters.  When the destructor cannot open the file, it catches the
    exception and the file stays as it was. *)
Theorem store_survives_restart (now' : time_point)
    (clock : nat -> time_point) (fuel : nat) (st : KVStore)
    (m : list (string * string)) (file : option (list ascii)) :
  snapshot_file_ st <> EmptyString -> Models (cache_ st) m ->
  Forall fits32 m -> Z.of_nat (length m) < 2 ^ 32 -> (length m < fuel)%nat ->
  exists bytes st',
    delete_KVStore true fuel file st = Some (Some bytes)
    /\ new_KVStore now' (capacity (cache_ st)) (snapshot_file_ st) clock (Some bytes)
       = Some st'
    /\ Models (cache_ st') (reverse m)
    /\ capacity (cache_ st') = capacity (cache_ st)
    /\ metrics_ st' = new_PerformanceMetrics now'
    /\ snapshot_file_ st' = snapshot_file_ st
    /\ delete_KVStore false fuel file st = Some file.
Proof.
  intros Hpath HM Hfit Hlen Hfuel. destruct st as [E mt path]. simpl in *.
  assert (Hcap : 0 < capacity E < 2 ^ 64).
  { destruct HM as (L & HI & _). apply (WF_cap _ _ (proj1 HI)). }
  destruct (new_LRUCache_WF (capacity E) Hcap) as (c0 & Hnew & HW0 & Hc0).
  destruct (round_trip_Models clock fuel E m c0 [] HM Hfit Hlen HW0 Hc0 Hfuel)
    as (E1 & Hsave & Hload & HM1 & Hc1).
  exists (le32 1 ++ le32 (Z.of_nat (length m)) ++ encode_entries m),
    (mkKVStore E1 (new_PerformanceMetrics now') path).
  split; [|split; [|split; [exact HM1|split; [exact Hc1|split; [reflexivity|split;
    [reflexivity|]]]]]].
  - unfold delete_KVStore, KVStoreOps.save_snapshot, kbind, on_cache, kret.
    cbn [snapshot_file_ cache_ metrics_].
    rewrite !decide_True by exact Hpath. rewrite Hsave. reflexivity.
  - unfold new_KVStore. rewrite Hnew. cbv zeta. rewrite decide_True by exact Hpath.
    unfold KVStoreOps.load_snapshot, on_cache. cbn [snapshot_file_ cache_ metrics_].
    rewrite decide_True by exact Hpath. rewrite Hload. reflexivity.
  - unfold delete_KVStore, KVStoreOps.save_snapshot, kbind, on_cache, kret.
    cbn [snapshot_file_ cache_ metrics_].
    rewrite !decide_True by exact Hpath. rewrite save_snapshot_unopened. reflexivity.
Qed.

Lemma store_survives_restart_witness :
  exists bytes st',
    delete_KVStore true 3 None store_snap = Some (Some bytes)
    /\ new_KVStore 9 (capacity (cache_ store_snap)) (snapshot_file_ store_snap)
         (fun _ => 0) (Some bytes)
       = Some st'
    /\ Models (cache_ st') [("a", "1"); ("b", "2")]
    /\ capacity (cache_ st') = capacity (cache_ store_snap)
    /\ metrics_ st' = new_PerformanceMetrics 9
    /\ snapshot_file_ st' = snapshot_file_ store_snap
    /\ delete_KVStore false 3 None store_snap = Some None.
Proof.
  apply (store_survives_restart 9 (fun _ => 0) 3 store_snap
           [("b", "2"); ("a", "1")] None).
  - discriminate.
  - exact Models_engine_ab.
  - apply fits32_check_sound. vm_compute. reflexivity.
  - vm_compute. reflexivity.
  - simpl. lia.
Defined.

(** ** The tokens of a command line *)















(** ** Construction *)


